(** * browsercompat: version algebra, issue derivation, guard recognition

    A shallow embedding of the compatibility diagnostic engine
    (src/Version.ts, src/Issue.ts, src/ClientInfo.ts, src/CompatData.ts,
    src/ClientCompatIssueList.ts, src/ClientCompatChecker.ts,
    src/GuardExprChecker.ts, src/Whitelist.ts with [parseWhitelist], and
    the guard handling of src/Walker.ts), followed by the properties
    proved about it.

    Conventions of the embedding:
    - a JavaScript string is the list of its UTF-16 code units;
    - a JavaScript number is NaN, an integer, another finite number
      given as a fraction, or an infinity; [parseInt] and the integer
      constants of the program give the first two only;
    - a thrown [RangeError] is the result [None];
    - a thrown [TypeError] is the result [None] as well;
    - a [Map] is a [gmap]; a plain object used as a dictionary is the
      [gmap] of its own properties, and where the program reads it by a
      name that its caller chooses ([support[clientInfo.name]],
      [clientName in browsers]) the read goes through [JSObject.get],
      which finds the members inherited from [Object.prototype] too;
    - a number of the untyped data is an integer of magnitude at most
      2^53, which [String] prints with all its digits;
    - a method that appends to an array it is given returns the array
      after the call; the mutable fields of a [GuardExprChecker] are a
      state passed through its methods. *)

From Stdlib Require Import ZArith NArith QArith Qround List Bool Ascii String Lia.
From stdpp Require Import base option list gmap.

#[local] Set Warnings "-register-all".

Local Open Scope Z_scope.

(* ===================================================================== *)
(** ** JavaScript values used by the program *)
(* ===================================================================== *)

Module JS.

(** A string is a sequence of UTF-16 code units. *)
Definition jsstring : Type := list N.

(** A string literal of the source (code units below 256). *)
Definition lit (s : string) : jsstring :=
  map N_of_ascii (list_ascii_of_string s).

(** Numbers: NaN, an integer, any other finite number given as a
    fraction, or an infinity.  [parseInt] and the integer constants of
    the program give [NaN] or [Num]; [Frac] and [Infinity] reach the
    code from its callers only.  [Frac q] is read by its value, also
    when [q] is a whole number. *)
Inductive number : Type :=
| NaN
| Num (z : Z)
| Frac (q : Q)
| Infinity (negative : bool).

(** [x <= y] on numbers: false when either is NaN. *)
Definition leb (x y : number) : bool :=
  match x, y with
  | NaN, _ | _, NaN => false
  | Infinity true, _ => true
  | _, Infinity false => true
  | Infinity false, _ => false
  | _, Infinity true => false
  | Num a, Num b => (a <=? b)%Z
  | Num a, Frac q => Qle_bool (inject_Z a) q
  | Frac q, Num b => Qle_bool q (inject_Z b)
  | Frac p, Frac q => Qle_bool p q
  end.

(** [x >= y]. *)
Definition geb (x y : number) : bool := leb y x.

(** [x | 0], that is ToInt32: NaN and the infinities give 0, any other
    number its integer part (rounded towards zero) wrapped to 32 bits. *)
Definition toInt32 (x : number) : Z :=
  let wrap z := (z + 2 ^ 31) mod 2 ^ 32 - 2 ^ 31 in
  match x with
  | NaN | Infinity _ => 0
  | Num z => wrap z
  | Frac q => wrap (Z.quot (Qnum q) (Z.pos (Qden q)))
  end.

(** [s.startsWith(pat)]. *)
Fixpoint startsWith (s pat : jsstring) {struct pat} : bool :=
  match pat, s with
  | [], _ => true
  | _ :: _, [] => false
  | p :: pat', c :: s' => (p =? c)%N && startsWith s' pat'
  end.

(** The scan of [s.indexOf(pat)], [i] being the index of the head of [s]. *)
Fixpoint indexOf_from (s pat : jsstring) (i : Z) : Z :=
  if startsWith s pat then i
  else match s with
       | [] => -1
       | _ :: s' => indexOf_from s' pat (i + 1)
       end.

(** [s.indexOf(pat)]: the first position at which [pat] occurs, or -1. *)
Definition indexOf (s pat : jsstring) : Z := indexOf_from s pat 0.

(** [s.substring(a, b)]: both indices are clamped to [0, length] and
    swapped when [a > b]. *)
Definition substring (s : jsstring) (a b : Z) : jsstring :=
  let len := Z.of_nat (length s) in
  let a' := Z.min (Z.max a 0) len in
  let b' := Z.min (Z.max b 0) len in
  let lo := Z.min a' b' in
  let hi := Z.max a' b' in
  take (Z.to_nat (hi - lo)) (drop (Z.to_nat lo) s).

(** [s.substring(a)]: the end index defaults to the length. *)
Definition substring_from (s : jsstring) (a : Z) : jsstring :=
  substring s a (Z.of_nat (length s)).

(** White space and line terminators skipped by [parseInt]. *)
Definition isStrWhiteSpaceChar (c : N) : bool :=
  ((9 <=? c) && (c <=? 13) || (c =? 32) || (c =? 160) || (c =? 5760)
   || (8192 <=? c) && (c <=? 8202) || (c =? 8232) || (c =? 8233)
   || (c =? 8239) || (c =? 8287) || (c =? 12288) || (c =? 65279))%N.

Definition isDigit (c : N) : bool := ((48 <=? c) && (c <=? 57))%N.

Fixpoint trimStart (s : jsstring) : jsstring :=
  match s with
  | c :: s' => if isStrWhiteSpaceChar c then trimStart s' else s
  | [] => []
  end.

(** The longest prefix of decimal digits, read most significant first;
    [None] when there is no digit at all. *)
Fixpoint parseDigits (s : jsstring) (acc : option Z) : option Z :=
  match s with
  | c :: s' =>
      if isDigit c
      then parseDigits s' (Some (10 * default 0 acc + (Z.of_N c - 48)))
      else acc
  | [] => acc
  end.

(** [parseInt(s, 10)]: leading white space, an optional sign, then the
    longest run of decimal digits; NaN when that run is empty. *)
Definition parseInt (s : jsstring) : number :=
  let t := trimStart s in
  let '(sign, body) :=
    match t with
    | 45%N :: r => (-1, r)
    | 43%N :: r => (1, r)
    | _ => (1, t)
    end in
  match parseDigits body None with
  | Some n => Num (sign * n)
  | None => NaN
  end.

(** The decimal digits of a non-negative integer, most significant
    first, prepended to [acc]; [fuel] bounds the number of digits. *)
Fixpoint digits (fuel : nat) (n : Z) (acc : jsstring) : jsstring :=
  let acc' := Z.to_N (48 + n mod 10) :: acc in
  match fuel with
  | O => acc'
  | S fuel' => if n <? 10 then acc' else digits fuel' (n / 10) acc'
  end.

(** [String(n)] and [n.toString()] for an integer of magnitude at most
    2^53.  Above it JavaScript prints the shortest digits that give the
    number back, and from 10^21 on an exponent, which this function
    does not. *)
Definition numberToString (n : Z) : jsstring :=
  if n <? 0
  then 45%N :: digits (Z.to_nat (Z.log2 (- n))) (- n) []
  else digits (Z.to_nat (Z.log2 n)) n [].

End JS.

Import JS.

(* ===================================================================== *)
(** ** Plain objects *)
(* ===================================================================== *)

Module JSObject.

(** The names of the members that every plain object inherits from
    [Object.prototype]. *)
Definition prototypeNames : list jsstring :=
  lit <$> ["constructor"; "__defineGetter__"; "__defineSetter__";
           "hasOwnProperty"; "__lookupGetter__"; "__lookupSetter__";
           "isPrototypeOf"; "propertyIsEnumerable"; "toString"; "valueOf";
           "__proto__"; "toLocaleString"]%string.

(** What [obj[key]] finds in a plain object with the own properties
    [own]: an own property; else a member inherited from
    [Object.prototype] (a function, or for [__proto__] the prototype
    itself: truthy, no array, and without any property of the data);
    else [undefined]. *)
Inductive Property (A : Type) : Type :=
| Own (value : A)
| Inherited
| Missing.

Arguments Own {A} value.
Arguments Inherited {A}.
Arguments Missing {A}.

Definition get {A : Type} (own : gmap jsstring A) (key : jsstring)
  : Property A :=
  match own !! key with
  | Some value => Own value
  | None => if bool_decide (key ∈ prototypeNames) then Inherited else Missing
  end.

(** [key in obj]. *)
Definition has {A : Type} (own : gmap jsstring A) (key : jsstring) : bool :=
  match get own key with
  | Missing => false
  | _ => true
  end.

End JSObject.

(* ===================================================================== *)
(** ** src/Version.ts *)
(* ===================================================================== *)

Record Version : Type := mkVersion { major : Z; minor : Z }.

Module Version.

Definition _VERSION_MAX : Z := 999999999.
Definition MAX_MAJOR : Z := _VERSION_MAX.
Definition MAX_MINOR : Z := _VERSION_MAX.

Definition minVal : Version := mkVersion 0 0.
Definition maxVal : Version := mkVersion _VERSION_MAX _VERSION_MAX.
Definition infinite : Version := mkVersion (_VERSION_MAX + 1) 0.

(** [Version.create]: a [RangeError] ([None]) unless both numbers lie in
    [0, _VERSION_MAX]; then [major |= 0] and [minor |= 0] keep the
    integer parts. *)
Definition create (major minor : number) : option Version :=
  if geb major (Num 0) && leb major (Num MAX_MAJOR)
     && geb minor (Num 0) && leb minor (Num MAX_MINOR)
  then Some (mkVersion (toInt32 major) (toInt32 minor))
  else None.

Definition _fromString (str : jsstring) (defaultMinorMax : bool)
  : option Version :=
  let p := indexOf str (lit ".") in
  let '(major, minor, hasMinor) :=
    if p =? -1
    then (parseInt str, Num (-1), false)
    else (parseInt (substring str 0 p),
          parseInt (substring_from str (p + 1)), true) in
  let minor :=
    if negb hasMinor
    then Num (if defaultMinorMax then MAX_MINOR else 0)
    else minor in
  create major minor.

Definition fromString (str : jsstring) : option Version :=
  _fromString str false.

Definition compare (v1 v2 : Version) : Z :=
  if negb (major v1 =? major v2)
  then (if major v1 <? major v2 then -1 else 1)
  else if negb (minor v1 =? minor v2)
  then (if minor v1 <? minor v2 then -1 else 1)
  else 0.

Definition min (v1 v2 : Version) : Version :=
  if compare v1 v2 <? 0 then v1 else v2.

Definition max (v1 v2 : Version) : Version :=
  if compare v1 v2 >? 0 then v1 else v2.

Definition toString (v : Version) : jsstring :=
  numberToString (major v) ++ lit "." ++ numberToString (minor v).

Definition rangeFromString (str : jsstring) : option (Version * Version) :=
  if bool_decide (str = lit "*") then Some (minVal, maxVal)
  else
    let dashPos := indexOf str (lit "-") in
    r ← (if negb (dashPos =? -1) then
           min ← _fromString (substring str 0 dashPos) false;
           max ← _fromString (substring_from str (dashPos + 1)) true;
           Some (min, max)
         else if startsWith str (lit "<=") then
           max ← _fromString (substring_from str 2) true;
           Some (minVal, max)
         else if startsWith str (lit ">=") then
           min ← _fromString (substring_from str 2) false;
           Some (min, maxVal)
         else if indexOf str (lit ".") =? -1 then
           min ← create (parseInt str) (Num 0);
           max ← create (Num (major min)) (Num MAX_MINOR);
           Some (min, max)
         else
           v ← fromString str;
           Some (v, v));
    if compare r.1 r.2 >? 0 then None else Some r.

Definition _versionMajorRangeToString (startMajor endMajor : Z) : jsstring :=
  if startMajor =? endMajor then numberToString startMajor
  else if startMajor =? 0 then
    (if endMajor =? MAX_MAJOR then lit "*"
     else lit "<=" ++ numberToString endMajor)
  else if endMajor =? MAX_MAJOR then lit ">=" ++ numberToString startMajor
  else numberToString startMajor ++ lit "-" ++ numberToString endMajor.

Definition rangeToString (start end_ : Version) : jsstring :=
  if compare start end_ =? 0 then toString start
  else if (minor start =? 0) && (minor end_ =? MAX_MINOR) then
    _versionMajorRangeToString (major start) (major end_)
  else if compare start minVal <=? 0 then lit "<=" ++ toString end_
  else if compare end_ maxVal >=? 0 then lit ">=" ++ toString start
  else toString start ++ lit "-" ++ toString end_.

End Version.

(* ===================================================================== *)
(** ** Untyped data of the knowledge base *)
(* ===================================================================== *)

(** The caveat fields of a support statement are read from untyped
    (JSON-like) data; an absent property reads as [JUndefined].
    [JNumber n] is the integer [n], of magnitude at most 2^53; a number
    of the data that is no such integer has no value of this type. *)
Inductive jsval : Type :=
| JUndefined
| JNull
| JBool (b : bool)
| JNumber (n : Z)
| JString (s : jsstring)
| JArray (items : list jsval)
| JObject.

Module JSVal.

(** ToBoolean, as applied by [if (v)], [!v], [a || b] and [c ? x : y]. *)
Definition truthy (v : jsval) : bool :=
  match v with
  | JUndefined | JNull => false
  | JBool b => b
  | JNumber n => negb (n =? 0)
  | JString s => negb (bool_decide (s = []))
  | JArray _ | JObject => true
  end.

(** [v === true]. *)
Definition isTrue (v : jsval) : bool :=
  match v with
  | JBool true => true
  | _ => false
  end.

Fixpoint join (sep : jsstring) (parts : list jsstring) : jsstring :=
  match parts with
  | [] => []
  | [p] => p
  | p :: rest => p ++ sep ++ join sep rest
  end.

(** [String(v)]; an array is the comma-separated list of its elements,
    [null] and [undefined] elements contributing the empty string. *)
Fixpoint toString (v : jsval) : jsstring :=
  match v with
  | JUndefined => lit "undefined"
  | JNull => lit "null"
  | JBool true => lit "true"
  | JBool false => lit "false"
  | JNumber n => numberToString n
  | JString s => s
  | JArray items =>
      join (lit ",")
        (map (fun x => match x with
                       | JUndefined | JNull => []
                       | _ => toString x
                       end) items)
  | JObject => lit "[object Object]"
  end.

End JSVal.

(* ===================================================================== *)
(** ** src/ClientInfo.ts, src/Issue.ts *)
(* ===================================================================== *)

Record ClientInfo : Type := mkClientInfo {
  name : jsstring;
  displayName : jsstring;
  minVersion : Version;
  maxVersion : Version;
  description : jsstring
}.

Module ClientInfo.

Definition _createDescription
  (displayName : jsstring) (minVersion maxVersion : Version) : jsstring :=
  if (Version.compare minVersion Version.minVal =? 0)
     && (Version.compare maxVersion Version.maxVal =? 0)
  then displayName
  else displayName ++ lit " " ++ Version.rangeToString minVersion maxVersion.

(** The constructor. *)
Definition new (name displayName : jsstring) (minVersion maxVersion : Version)
  : ClientInfo :=
  mkClientInfo name displayName minVersion maxVersion
    (_createDescription displayName minVersion maxVersion).

End ClientInfo.

Inductive IssueKind : Type :=
| NOT_SUPPORTED
| NEEDS_PREFIX
| NEEDS_ALT_NAME
| NEEDS_FLAG
| IS_PARTIAL_IMPL
| NOTE.

#[global] Instance IssueKind_eq_dec : EqDecision IssueKind.
Proof. solve_decision. Defined.

Record Issue : Type := mkIssue {
  featureName : jsstring;
  clientInfo : ClientInfo;
  kind : IssueKind;
  altOrPrefix : option jsstring;
  note : option jsstring;
  url : option jsstring;
  startVersion : Version;
  endVersion : Version
}.

Module Issue.

(** The constructor with its default arguments. *)
Definition new3 (featureName : jsstring) (clientInfo : ClientInfo)
  (kind : IssueKind) : Issue :=
  mkIssue featureName clientInfo kind None None None
    Version.minVal Version.infinite.

End Issue.

(* ===================================================================== *)
(** ** src/CompatData.ts: from support statements to issues *)
(* ===================================================================== *)

(** The bit values of the enum [ClientCompatCheckerFlags]; the file that
    declares them is not among the sources, so they are parameters. *)
Class ClientCompatCheckerFlags : Type := {
  IGNORE_NOTES : Z;
  IGNORE_PARTIAL_IMPL : Z
}.

(** A support statement after [_preprocessMDNCompatDataSupportStatement]:
    [version_added] and [version_removed] are [Version] objects. *)
Record SupportStatement : Type := mkSupportStatement {
  version_added : Version;
  version_removed : Version;
  prefix : jsval;
  alternative_name : jsval;
  flags : jsval;
  partial_implementation : jsval;
  notes : jsval
}.

(** The entry of a client in a [support] block. *)
Inductive Support : Type :=
| SingleSupport (s : SupportStatement)
| ArraySupport (l : list SupportStatement).

(** A [__compat] object. *)
Record CompatStatement : Type := mkCompatStatement {
  support : gmap jsstring Support;
  mdn_url : jsval
}.

Module CompatData.

(** [str.replace] of every match of [/<[^>]+>/g] by the empty string,
    scanning left to right. [tag] holds
    the text read since an unmatched '<'; it is dropped at the next
    '>' unless it is the lone '<' (the pattern needs one character
    between the brackets), and kept when the input ends first. *)
Fixpoint _stripTags (str : jsstring) (tag : option jsstring) : jsstring :=
  match str with
  | [] => default [] tag
  | c :: rest =>
      match tag with
      | None =>
          if (c =? 60)%N then _stripTags rest (Some [c])
          else c :: _stripTags rest None
      | Some t =>
          if (c =? 62)%N then
            (if (length t =? 1)%nat then t ++ c :: _stripTags rest None
             else _stripTags rest None)
          else _stripTags rest (Some (t ++ [c]))
      end
  end.

(** [str.replace(/&(?:lt|gt|amp);/g, ...)]. *)
Fixpoint _replaceEntities (str : jsstring) : jsstring :=
  match str with
  | 38%N :: 108%N :: 116%N :: 59%N :: rest => 60%N :: _replaceEntities rest
  | 38%N :: 103%N :: 116%N :: 59%N :: rest => 62%N :: _replaceEntities rest
  | 38%N :: 97%N :: 109%N :: 112%N :: 59%N :: rest =>
      38%N :: _replaceEntities rest
  | c :: rest => c :: _replaceEntities rest
  | [] => []
  end.

Definition _stripHTMLFromNotes (str : jsstring) : jsstring :=
  _replaceEntities (_stripTags str None).

Definition _compareSupportStatementsForSort (a b : SupportStatement) : Z :=
  let r := Version.compare (version_added a) (version_added b) in
  if negb (r =? 0) then r
  else Version.compare (version_removed b) (version_removed a).

Definition _makeNotSupportedIssue
  (name : jsstring) (propName : option jsstring) (clientInfo : ClientInfo)
  : Issue :=
  Issue.new3
    (match propName with
     | Some p => name ++ lit "." ++ p
     | None => name
     end)
    clientInfo NOT_SUPPORTED.

Definition _getIssueKindAndPrefixFromSupportStatement
  (supportStatement : SupportStatement)
  : option IssueKind * option jsstring :=
  if JSVal.truthy (prefix supportStatement) then
    (Some NEEDS_PREFIX, Some (JSVal.toString (prefix supportStatement)))
  else if JSVal.truthy (alternative_name supportStatement) then
    (Some NEEDS_ALT_NAME,
     Some (JSVal.toString (alternative_name supportStatement)))
  else if JSVal.truthy (flags supportStatement) then
    (Some NEEDS_FLAG, None)
  else if JSVal.isTrue (partial_implementation supportStatement) then
    (Some IS_PARTIAL_IMPL, None)
  else if JSVal.truthy (notes supportStatement) then
    (Some NOTE, None)
  else (None, None).

(** [x.prefix || x.alternative_name || x.flags || x.partial_implementation]
    read as a condition. *)
Definition _hasCaveat (x : SupportStatement) : bool :=
  JSVal.truthy (prefix x) || JSVal.truthy (alternative_name x)
  || JSVal.truthy (flags x) || JSVal.truthy (partial_implementation x).

Definition _checkIfSupportedVersion
  (clientInfo : ClientInfo) (support : SupportStatement)
  (withNoIssues : bool) : bool :=
  if (Version.compare (minVersion clientInfo) (version_added support) <? 0)
     || (Version.compare (maxVersion clientInfo) (version_removed support) >=? 0)
  then false
  else if negb withNoIssues then true
  else negb (_hasCaveat support).

(** The loop of [_checkVersionRangeIntersection] from index 1 on. *)
Fixpoint _sweep (vMin vMax : Version) (rest : list SupportStatement)
  (lastRemoved : Version) : bool :=
  match rest with
  | [] => Version.compare vMax lastRemoved <? 0
  | s :: rest' =>
      let nextAdded := version_added s in
      if (Version.compare nextAdded lastRemoved >? 0)
         && (Version.compare vMin nextAdded <? 0)
         && (Version.compare vMax lastRemoved >=? 0)
      then false
      else _sweep vMin vMax rest' (Version.max lastRemoved (version_removed s))
  end.

(** Called with at least two statements only; on an empty array the
    source would read [arr[0].version_added] of [undefined]. *)
Definition _checkVersionRangeIntersection
  (clientInfo : ClientInfo) (sortedSupportStatements : list SupportStatement)
  : bool :=
  let vMin := minVersion clientInfo in
  let vMax := maxVersion clientInfo in
  match sortedSupportStatements with
  | [] => false
  | arr0 :: rest =>
      if Version.compare vMin (version_added arr0) <? 0 then false
      else _sweep vMin vMax rest (version_removed arr0)
  end.

Definition _checkIfSupportedVersionArray
  (clientInfo : ClientInfo) (supportStatements : list SupportStatement)
  (withNoIssues : bool) : bool :=
  let supportStatements :=
    if withNoIssues
    then List.filter (fun x => negb (_hasCaveat x)) supportStatements
    else supportStatements in
  match supportStatements with
  | [] => false
  | [s] => _checkIfSupportedVersion clientInfo s false
  | _ => _checkVersionRangeIntersection clientInfo supportStatements
  end.

Section WithFlags.

Context `{ClientCompatCheckerFlags}.

Definition _shouldDiscardIssueBasedOnFlags (issue : Issue) (flagBits : Z)
  : bool :=
  if negb (Z.land flagBits IGNORE_NOTES =? 0)
     && bool_decide (kind issue = NOTE)
  then true
  else if negb (Z.land flagBits IGNORE_PARTIAL_IMPL =? 0)
          && bool_decide (kind issue = IS_PARTIAL_IMPL)
  then true
  else false.

Definition _makeIssueFromSupportStatement
  (typeName : jsstring) (propName : option jsstring) (url : option jsstring)
  (clientInfo : ClientInfo) (flagBits : Z)
  (supportStatement : SupportStatement) : option Issue :=
  let versionAdded := version_added supportStatement in
  let versionRemoved := version_removed supportStatement in
  if (Version.compare (maxVersion clientInfo) versionAdded <? 0)
     || (Version.compare (minVersion clientInfo) versionRemoved >=? 0)
  then None
  else
    let notes_ :=
      if JSVal.truthy (notes supportStatement)
      then Some (_stripHTMLFromNotes (JSVal.toString (notes supportStatement)))
      else None in
    let '(issueKind, altOrPrefix) :=
      _getIssueKindAndPrefixFromSupportStatement supportStatement in
    match issueKind with
    | None => None
    | Some issueKind =>
        let featureName :=
          match propName with
          | Some p => typeName ++ lit "." ++ p
          | None => typeName
          end in
        let issue :=
          mkIssue featureName clientInfo issueKind altOrPrefix notes_ url
            versionAdded versionRemoved in
        if _shouldDiscardIssueBasedOnFlags issue flagBits then None
        else Some issue
    end.

(** The functions below append to the [issues] array they are given;
    they return the array after the call. *)
Definition _getIssuesFromSingleSupportStatement
  (clientInfo : ClientInfo) (typeName : jsstring)
  (propName : option jsstring) (url : option jsstring)
  (supportStatement : SupportStatement) (flagBits : Z)
  (issues : list Issue) : list Issue :=
  let issue :=
    if _checkIfSupportedVersion clientInfo supportStatement false
    then _makeIssueFromSupportStatement
           typeName propName url clientInfo flagBits supportStatement
    else Some (_makeNotSupportedIssue typeName propName clientInfo) in
  match issue with
  | Some i => issues ++ [i]
  | None => issues
  end.

(** The [for] loop of [_getIssuesFromArraySupportStatement]. *)
Fixpoint _pushStatementIssues
  (clientInfo : ClientInfo) (typeName : jsstring)
  (propName : option jsstring) (url : option jsstring) (flagBits : Z)
  (notesOnly : bool) (supportStatements : list SupportStatement)
  (issues : list Issue) : list Issue :=
  match supportStatements with
  | [] => issues
  | s :: rest =>
      let issue :=
        _makeIssueFromSupportStatement
          typeName propName url clientInfo flagBits s in
      let issues' :=
        match issue with
        | None => issues
        | Some i =>
            if notesOnly && negb (bool_decide (kind i = NOTE))
            then issues
            else issues ++ [i]
        end in
      _pushStatementIssues clientInfo typeName propName url flagBits
        notesOnly rest issues'
  end.

Definition _getIssuesFromArraySupportStatement
  (clientInfo : ClientInfo) (typeName : jsstring)
  (propName : option jsstring) (url : option jsstring)
  (supportStatements : list SupportStatement) (flagBits : Z)
  (issues : list Issue) : list Issue :=
  if negb (_checkIfSupportedVersionArray clientInfo supportStatements false)
  then issues ++ [_makeNotSupportedIssue typeName propName clientInfo]
  else
    let notesOnly :=
      _checkIfSupportedVersionArray clientInfo supportStatements true in
    _pushStatementIssues clientInfo typeName propName url flagBits
      notesOnly supportStatements issues.

(** [compatStatement] is [None] when the feature node has no
    [__compat] property.  [support] is a plain object: when
    [support[clientInfo.name]] is a member inherited from
    [Object.prototype], it passes the test [!support], is no array, and
    [_checkIfSupportedVersion] hands its [version_added], which is
    [undefined], to [Version.compare], which reads [major] of it: a
    TypeError ([None]). *)
Definition _getIssuesFromCompatStatement
  (clientInfo : ClientInfo) (typeName : jsstring)
  (propName : option jsstring) (compatStatement : option CompatStatement)
  (flagBits : Z) (issues : list Issue) : option (list Issue) :=
  match compatStatement with
  | None => Some issues
  | Some compatStatement =>
      match JSObject.get (support compatStatement) (name clientInfo) with
      | JSObject.Missing =>
          Some (issues ++ [_makeNotSupportedIssue typeName propName clientInfo])
      | JSObject.Inherited => None
      | JSObject.Own sup =>
          let url :=
            if JSVal.truthy (mdn_url compatStatement)
            then Some (JSVal.toString (mdn_url compatStatement))
            else None in
          match sup with
          | ArraySupport l =>
              Some (_getIssuesFromArraySupportStatement
                      clientInfo typeName propName url l flagBits issues)
          | SingleSupport s =>
              Some (_getIssuesFromSingleSupportStatement
                      clientInfo typeName propName url s flagBits issues)
          end
      end
  end.

End WithFlags.

End CompatData.

(* ===================================================================== *)
(** ** src/ClientCompatIssueList.ts, src/ClientCompatChecker.ts *)
(* ===================================================================== *)

(** A stored value of type [Issue | Issue[]]. *)
Inductive StoredIssues : Type :=
| OneIssue (issue : Issue)
| IssueArray (issues : list Issue).

Record ClientCompatIssueList : Type := mkClientCompatIssueList {
  m_global : gmap jsstring StoredIssues;
  m_properties : gmap jsstring (gmap jsstring StoredIssues);
  m_events : gmap jsstring (gmap jsstring StoredIssues)
}.

Module ClientCompatIssueList.

Definition new : ClientCompatIssueList :=
  mkClientCompatIssueList ∅ ∅ ∅.

(** What [set] stores for an array of at least one issue. *)
Definition _stored (issues : list Issue) : StoredIssues :=
  match issues with
  | [i] => OneIssue i
  | _ => IssueArray issues
  end.

Definition setIssuesForGlobal
  (this : ClientCompatIssueList) (name : jsstring) (issues : list Issue)
  : ClientCompatIssueList :=
  if (length issues =? 0)%nat then this
  else mkClientCompatIssueList
         (<[name := _stored issues]> (m_global this))
         (m_properties this) (m_events this).

Definition setIssuesForPropertyOrEvent
  (this : ClientCompatIssueList) (typeName propName : jsstring)
  (isEvent : bool) (issues : list Issue) : ClientCompatIssueList :=
  if (length issues =? 0)%nat then this
  else
    let dict := if isEvent then m_events this else m_properties this in
    let typeDict := default ∅ (dict !! typeName) in
    let dict' := <[typeName := <[propName := _stored issues]> typeDict]> dict in
    if isEvent
    then mkClientCompatIssueList (m_global this) (m_properties this) dict'
    else mkClientCompatIssueList (m_global this) dict' (m_events this).

(** [issues.push(...)] of what was found. *)
Definition _append (issues : list Issue) (issuesFound : StoredIssues)
  : list Issue :=
  match issuesFound with
  | IssueArray found => issues ++ found
  | OneIssue found => issues ++ [found]
  end.

(** The lookups return the [issues] array after the call. *)
Definition getIssuesForGlobal
  (this : ClientCompatIssueList) (name : jsstring) (issues : list Issue)
  : list Issue :=
  match m_global this !! name with
  | None => issues
  | Some issuesFound => _append issues issuesFound
  end.

Definition getIssuesForPropertyOrEvent
  (this : ClientCompatIssueList) (typeName propName : jsstring)
  (isEvent : bool) (issues : list Issue) : list Issue :=
  let dict := if isEvent then m_events this else m_properties this in
  match dict !! typeName with
  | None => issues
  | Some typeDict =>
      match typeDict !! propName with
      | None => issues
      | Some issuesFound => _append issues issuesFound
      end
  end.

End ClientCompatIssueList.

Record ClientCompatChecker : Type := mkClientCompatChecker {
  m_clientIssueLists : list ClientCompatIssueList;
  m_globals : gset jsstring
}.

Module ClientCompatChecker.

Definition isGlobalRecognized (this : ClientCompatChecker) (name : jsstring)
  : bool :=
  bool_decide (name ∈ m_globals this).

(** The loop over [m_clientIssueLists], each list appending in turn. *)
Definition _collect (get : ClientCompatIssueList → list Issue → list Issue)
  (lists : list ClientCompatIssueList) (issues : list Issue) : list Issue :=
  foldl (fun acc l => get l acc) issues lists.

(** The result and the [issues] array after the call. *)
Definition checkGlobal
  (this : ClientCompatChecker) (name : jsstring) (issues : list Issue)
  : bool * list Issue :=
  let oldIssuesLength := length issues in
  let issues' :=
    _collect (fun l acc => ClientCompatIssueList.getIssuesForGlobal l name acc)
      (m_clientIssueLists this) issues in
  (negb (length issues' =? oldIssuesLength)%nat, issues').

Definition checkPropertyOrEvent
  (this : ClientCompatChecker) (typeName propName : jsstring)
  (isEvent : bool) (issues : list Issue) : bool * list Issue :=
  let oldIssuesLength := length issues in
  let issues' :=
    _collect
      (fun l acc =>
         ClientCompatIssueList.getIssuesForPropertyOrEvent
           l typeName propName isEvent acc)
      (m_clientIssueLists this) issues in
  (negb (length issues' =? oldIssuesLength)%nat, issues').

End ClientCompatChecker.

(* ===================================================================== *)
(** ** src/GuardExprChecker.ts *)
(* ===================================================================== *)

(** The operator tokens and expression nodes of the TypeScript syntax
    tree that the checker tells apart; every other kind is opaque. *)
Inductive BinaryOperator : Type :=
| AmpersandAmpersandToken
| BarBarToken
| EqualsEqualsToken
| EqualsEqualsEqualsToken
| ExclamationEqualsToken
| ExclamationEqualsEqualsToken
| InKeyword
| OtherBinaryOperator (kind : N).

Inductive PrefixUnaryOperator : Type :=
| ExclamationToken
| OtherPrefixUnaryOperator (kind : N).

Inductive Expression : Type :=
| ParenthesizedExpression (expression : Expression)
| PrefixUnaryExpression (operator : PrefixUnaryOperator) (operand : Expression)
| BinaryExpression
    (left : Expression) (operatorToken : BinaryOperator) (right : Expression)
| TypeOfExpression (expression : Expression)
| PropertyAccessExpression (expression : Expression) (name : jsstring)
| StringLiteral (text : jsstring)
| Identifier (escapedText : jsstring)
| NullKeyword
| UndefinedKeyword
| OtherExpression (kind : N).

#[global] Instance BinaryOperator_eq_dec : EqDecision BinaryOperator.
Proof. solve_decision. Defined.

(** A declaration node, compared by identity. *)
Inductive Declaration : Type :=
| DeclarationNode (id : N).

#[global] Instance Declaration_eq_dec : EqDecision Declaration.
Proof. solve_decision. Defined.

(** A [ts.Symbol]: its name and its value declaration, if it has one. *)
Record Symbol : Type := mkSymbol {
  symbolName : jsstring;
  valueDeclaration : option Declaration
}.

(** The part of [ts.TypeChecker] that the guard checker calls. *)
Class TypeChecker : Type := {
  TsType : Type;
  getTypeAtLocation : Expression → TsType;
  getApparentType : TsType → TsType;
  getPropertyOfType : TsType → jsstring → option Symbol;
  getSymbolAtLocation : Expression → option Symbol
}.

Record GuardExpression : Type := mkGuardExpression {
  operand : Expression;
  guardedSymbol : option Symbol;
  isNegated : bool
}.

Record GuardExprChain : Type := mkGuardExprChain {
  expressions : list GuardExpression;
  operator : BinaryOperator;
  chainIsNegated : bool
}.

(** The result type [GuardExpression | GuardExprChain]. *)
Inductive GuardResult : Type :=
| IsGuardExpression (g : GuardExpression)
| IsGuardExprChain (c : GuardExprChain).

(** The mutable fields of a [GuardExprChecker]. *)
Record CheckerState : Type := mkCheckerState {
  m_operand : option Expression;
  m_propertyObj : option Expression;
  m_propertyName : option jsstring;
  m_isTypeof : bool;
  m_isNegative : bool
}.

Module GuardExprChecker.

Definition initial : CheckerState :=
  mkCheckerState None None None false false.

Fixpoint _unwrapParentheses (expr : Expression) : Expression :=
  match expr with
  | ParenthesizedExpression e => _unwrapParentheses e
  | _ => expr
  end.

(** The loop of [_unwrapNegations]: parentheses are removed, then a
    leading [!] flips [isNegative] and the loop goes on with its operand. *)
Fixpoint _unwrapNegations_loop (expr : Expression) (isNegative : bool)
  : Expression * bool :=
  match expr with
  | ParenthesizedExpression e => _unwrapNegations_loop e isNegative
  | PrefixUnaryExpression ExclamationToken e =>
      _unwrapNegations_loop e (negb isNegative)
  | _ => (expr, isNegative)
  end.

Definition _unwrapNegations (expr : Expression) : Expression * bool :=
  _unwrapNegations_loop expr false.

Definition _isPositiveEqualityOperator (op : BinaryOperator) : bool :=
  bool_decide (op = EqualsEqualsToken)
  || bool_decide (op = EqualsEqualsEqualsToken).

Definition _isNegativeEqualityOperator (op : BinaryOperator) : bool :=
  bool_decide (op = ExclamationEqualsToken)
  || bool_decide (op = ExclamationEqualsEqualsToken).

Definition _isStrictEqualityOperator (op : BinaryOperator) : bool :=
  bool_decide (op = EqualsEqualsEqualsToken)
  || bool_decide (op = ExclamationEqualsEqualsToken).

Definition _isUndefinedExpression (expr : Expression) : bool :=
  match expr with
  | UndefinedKeyword => true
  | Identifier escapedText => bool_decide (escapedText = lit "undefined")
  | _ => false
  end.

Definition _isStringLiteralOrNullOrUndefined (expr : Expression) : bool :=
  match expr with
  | StringLiteral _ | NullKeyword | UndefinedKeyword => true
  | Identifier name =>
      bool_decide (name = lit "undefined") || bool_decide (name = lit "null")
  | _ => false
  end.

Definition _isNullKeyword (expr : Expression) : bool :=
  match expr with
  | NullKeyword => true
  | _ => false
  end.

Definition _evaluateTypeofCheckExpression
  (operand : Expression) (type : jsstring) (isNotEquals : bool)
  (st : CheckerState) : CheckerState :=
  if bool_decide (type = lit "undefined") then
    mkCheckerState (Some (_unwrapParentheses operand))
      (m_propertyObj st) (m_propertyName st) true (negb isNotEquals)
  else if negb isNotEquals then
    mkCheckerState (Some (_unwrapParentheses operand))
      (m_propertyObj st) (m_propertyName st) true false
  else st.

Definition _evaluateEqualityExpression
  (left right : Expression) (isNotEquals isStrict : bool)
  (st : CheckerState) : CheckerState :=
  let '(left_, right_) :=
    if _isStringLiteralOrNullOrUndefined left
    then (right, left) else (left, right) in
  if _isUndefinedExpression right_ || (negb isStrict && _isNullKeyword right_)
  then
    mkCheckerState (Some (_unwrapParentheses left_))
      (m_propertyObj st) (m_propertyName st) (m_isTypeof st)
      (negb isNotEquals)
  else
    match left_, right_ with
    | TypeOfExpression e, StringLiteral text =>
        _evaluateTypeofCheckExpression e text isNotEquals st
    | _, _ => st
    end.

(** [expr] is [this.m_operand], which the caller checked to be a binary
    expression; on any other node nothing is recognised. *)
Definition _evaluateBinaryExpression (st : CheckerState) : CheckerState :=
  match m_operand st with
  | Some (BinaryExpression l op r as expr) =>
      let left_ := _unwrapParentheses l in
      let right_ := _unwrapParentheses r in
      match op, left_ with
      | InKeyword, StringLiteral text =>
          mkCheckerState (Some expr) (Some right_) (Some text)
            (m_isTypeof st) (m_isNegative st)
      | _, _ =>
          let isExprWithEquals := _isPositiveEqualityOperator op in
          let isExprWithNotEquals := _isNegativeEqualityOperator op in
          let isStrictEquality := _isStrictEqualityOperator op in
          if isExprWithEquals || isExprWithNotEquals
          then _evaluateEqualityExpression
                 left_ right_ isExprWithNotEquals isStrictEquality st
          else st
      end
  | _ => st
  end.

Definition _isBinaryExpression (expr : Expression) : bool :=
  match expr with
  | BinaryExpression _ _ _ => true
  | _ => false
  end.

Definition _isIdentifier (expr : Expression) : bool :=
  match expr with
  | Identifier _ => true
  | _ => false
  end.

Section WithTypeChecker.

Context `{TypeChecker}.

(** [m_operand] and, when a property name is set, [m_propertyObj]
    are non-null where the source asserts it with [!]. *)
Definition _tryResolveSymbol (st : CheckerState) : option Symbol :=
  match m_propertyName st with
  | Some propertyName =>
      obj ← m_propertyObj st;
      getPropertyOfType
        (getApparentType (getTypeAtLocation obj)) propertyName
  | None =>
      operand ← m_operand st;
      if m_isTypeof st && _isIdentifier operand
      then getSymbolAtLocation operand
      else None
  end.

(** The guard expression and the fields of the checker after the call. *)
Definition evaluate
  (expr : Expression) (mustBePosOrNeg : option bool) (st : CheckerState)
  : GuardExpression * CheckerState :=
  let '(expr, hasLeadingNot) := _unwrapNegations expr in
  let st := mkCheckerState (Some expr) None None false false in
  let st :=
    if _isBinaryExpression expr then _evaluateBinaryExpression st else st in
  let st :=
    if hasLeadingNot
    then mkCheckerState (m_operand st) (m_propertyObj st)
           (m_propertyName st) (m_isTypeof st) (negb (m_isNegative st))
    else st in
  let operand := default expr (m_operand st) in
  if bool_decide (mustBePosOrNeg = Some (m_isNegative st)) then
    (mkGuardExpression operand None (m_isNegative st), st)
  else
    let st :=
      match m_propertyName st, operand with
      | None, PropertyAccessExpression obj name =>
          mkCheckerState (m_operand st) (Some obj) (Some name)
            (m_isTypeof st) (m_isNegative st)
      | _, _ => st
      end in
    let sym := _tryResolveSymbol st in
    (mkGuardExpression operand sym (m_isNegative st), st).

(** [_evaluateChainOperands]: parentheses are removed, an expression
    with the chain's operator is descended into, anything else is
    evaluated and pushed. *)
Fixpoint _evaluateChainOperands
  (expr : Expression) (op : BinaryOperator)
  (guardExprs : list GuardExpression) (st : CheckerState)
  : list GuardExpression * CheckerState :=
  let leaf :=
    let '(g, st') :=
      evaluate expr (Some (bool_decide (op = AmpersandAmpersandToken))) st in
    (guardExprs ++ [g], st') in
  match expr with
  | ParenthesizedExpression e => _evaluateChainOperands e op guardExprs st
  | BinaryExpression l op' r =>
      if bool_decide (op' = op) then
        let '(guardExprs', st') := _evaluateChainOperands l op guardExprs st in
        _evaluateChainOperands r op guardExprs' st'
      else leaf
  | _ => leaf
  end.

Definition evaluateChain (expr : Expression) (st : CheckerState)
  : GuardResult * CheckerState :=
  let '(innerExpr, hasLeadingNot) := _unwrapNegations expr in
  let single :=
    let '(g, st') := evaluate expr None st in (IsGuardExpression g, st') in
  match innerExpr with
  | BinaryExpression _ op _ =>
      if negb (bool_decide (op = AmpersandAmpersandToken))
         && negb (bool_decide (op = BarBarToken))
      then single
      else
        let '(guardExprs, st') := _evaluateChainOperands innerExpr op [] st in
        (IsGuardExprChain (mkGuardExprChain guardExprs op hasLeadingNot), st')
  | _ => single
  end.

End WithTypeChecker.

End GuardExprChecker.

(* ===================================================================== *)
(** ** src/Walker.ts: the guard stack *)
(* ===================================================================== *)

Module Walker.

Definition _isSuppressibleKind (k : IssueKind) : bool :=
  bool_decide (k = NOT_SUPPORTED) || bool_decide (k = NEEDS_PREFIX)
  || bool_decide (k = NEEDS_ALT_NAME) || bool_decide (k = NEEDS_FLAG).

Fixpoint _canIssuesBeSuppressedByGuards (issues : list Issue) : bool :=
  match issues with
  | [] => false
  | issue :: rest =>
      if _isSuppressibleKind (kind issue) then true
      else _canIssuesBeSuppressedByGuards rest
  end.

(** The loop of [_checkEnclosingGuards] over the stack entries, the
    most recently pushed first. *)
Fixpoint _scanGuardStack
  (valueDecl : option Declaration) (fromTop : list Symbol) : bool :=
  match fromTop with
  | [] => false
  | stackSymbol :: below =>
      if bool_decide (valueDecl = valueDeclaration stackSymbol) then true
      else _scanGuardStack valueDecl below
  end.

(** [m_guardStack] is an array; [push] appends at its end. *)
Definition _checkEnclosingGuards
  (m_guardStack : list Symbol) (issues : list Issue) (symbol : Symbol)
  : bool :=
  if negb (_canIssuesBeSuppressedByGuards issues) then false
  else _scanGuardStack (valueDeclaration symbol) (rev m_guardStack).

(** The end of [_checkPropertyOrEvent], from the collected issues on:
    the issues handed to [_reportIssues]. *)
Definition _checkPropertyOrEvent_reported
  (m_guardStack : list Symbol) (issues : list Issue)
  (propSymbol : option Symbol) : list Issue :=
  if (length issues =? 0)%nat then []
  else
    match propSymbol with
    | Some p =>
        if _checkEnclosingGuards m_guardStack issues p then [] else issues
    | None => issues
    end.

End Walker.

(* ===================================================================== *)
(** ** The coverage test as the specification words it *)
(* ===================================================================== *)

Module Spec.

(** The order on versions: by major, then by minor. *)
Definition lt (a b : Version) : bool :=
  (major a <? major b) || ((major a =? major b) && (minor a <? minor b)).

Definition ge (a b : Version) : bool := negb (lt a b).

Definition vmax (a b : Version) : Version := if lt b a then a else b.

(** One step of the sweep: [None] once the target straddles a gap. *)
Definition sweep_step (tmin tmax : Version)
  (acc : option Version) (s : SupportStatement) : option Version :=
  lastRemoved ← acc;
  if lt lastRemoved (version_added s) && lt tmin (version_added s)
     && ge tmax lastRemoved
  then None
  else Some (vmax lastRemoved (version_removed s)).

(** [covers(target, stmts)] for a non-empty list. *)
Definition covers (tmin tmax : Version) (stmts : list SupportStatement)
  : bool :=
  match stmts with
  | [] => false
  | s0 :: rest =>
      if lt tmin (version_added s0) then false
      else match foldl (sweep_step tmin tmax) (Some (version_removed s0)) rest with
           | Some lastRemoved => lt tmax lastRemoved
           | None => false
           end
  end.

End Spec.

(* ===================================================================== *)
(** ** Notions used to state the properties *)
(* ===================================================================== *)

(** The number denoted by a run of decimal digits. *)
Definition digitsValue (ds : jsstring) : Z :=
  foldl (fun a c => 10 * a + (Z.of_N c - 48)) 0 ds.

(** [ds] is the decimal numeral of [n]: digits only, at least one. *)
Definition numeral (n : Z) (ds : jsstring) : Prop :=
  ds ≠ [] ∧ Forall (fun c => isDigit c = true) ds ∧ digitsValue ds = n.

(** A version built by [Version.create]. *)
Definition validVersion (v : Version) : Prop :=
  0 <= major v <= Version._VERSION_MAX ∧ 0 <= minor v <= Version._VERSION_MAX.

(** What follows a numeral when [parseInt] stops reading it. *)
Definition stopsDigits (r : jsstring) : Prop :=
  match r with
  | [] => True
  | c :: _ => isDigit c = false
  end.

(** The statement's interval meets the target range:
    [target.max >= addedAt] and [target.min < removedAt]. *)
Definition applies (t : ClientInfo) (s : SupportStatement) : Prop :=
  Spec.ge (maxVersion t) (version_added s) = true
  ∧ Spec.lt (minVersion t) (version_removed s) = true.

Definition appliesb (t : ClientInfo) (s : SupportStatement) : bool :=
  Spec.ge (maxVersion t) (version_added s)
  && Spec.lt (minVersion t) (version_removed s).

(** A caveat field is present when the code's test [if (field)] passes. *)
Definition present (v : jsval) : Prop := JSVal.truthy v = true.

(** The kind chosen for a statement by strict priority. *)
Inductive selects (s : SupportStatement) : option IssueKind → Prop :=
| selects_prefix :
    present (prefix s) → selects s (Some NEEDS_PREFIX)
| selects_alt_name :
    ¬ present (prefix s) → present (alternative_name s) →
    selects s (Some NEEDS_ALT_NAME)
| selects_flag :
    ¬ present (prefix s) → ¬ present (alternative_name s) →
    present (flags s) → selects s (Some NEEDS_FLAG)
| selects_partial :
    ¬ present (prefix s) → ¬ present (alternative_name s) →
    ¬ present (flags s) → partial_implementation s = JBool true →
    selects s (Some IS_PARTIAL_IMPL)
| selects_note :
    ¬ present (prefix s) → ¬ present (alternative_name s) →
    ¬ present (flags s) → partial_implementation s ≠ JBool true →
    present (notes s) → selects s (Some NOTE)
| selects_nothing :
    ¬ present (prefix s) → ¬ present (alternative_name s) →
    ¬ present (flags s) → partial_implementation s ≠ JBool true →
    ¬ present (notes s) → selects s None.

(** A statement without caveat: no prefix, no alternative name, no
    flags and no partial marker is present. *)
Definition caveatFree (s : SupportStatement) : Prop :=
  ¬ present (prefix s) ∧ ¬ present (alternative_name s)
  ∧ ¬ present (flags s) ∧ ¬ present (partial_implementation s).

#[global] Instance caveatFree_dec (s : SupportStatement) : Decision (caveatFree s).
Proof. unfold caveatFree, present. apply _. Defined.

(** The kinds that the suppression flags drop. *)
Definition dropsKind `{ClientCompatCheckerFlags} (flagBits : Z) (k : IssueKind)
  : bool :=
  (negb (Z.land flagBits IGNORE_NOTES =? 0) && bool_decide (k = NOTE))
  || (negb (Z.land flagBits IGNORE_PARTIAL_IMPL =? 0)
      && bool_decide (k = IS_PARTIAL_IMPL)).

(** Bit values for the worked examples. *)
Definition exampleFlags : ClientCompatCheckerFlags :=
  {| IGNORE_NOTES := 1; IGNORE_PARTIAL_IMPL := 2 |}.

(** A statement without caveat fields and without note. *)
Definition plainStatement (added removed : Version) : SupportStatement :=
  mkSupportStatement added removed
    JUndefined JUndefined JUndefined JUndefined JUndefined.

(** The entry stored for a member of a type, if any. *)
Definition storedForMember (l : ClientCompatIssueList)
  (typeName propName : jsstring) (isEvent : bool) : option StoredIssues :=
  (if isEvent then m_events l else m_properties l) !! typeName
    ≫= λ typeDict, typeDict !! propName.

(** The leaves of a chain of [op]: the operands of the contiguous uses of
    [op], parentheses being transparent; any other expression is a leaf. *)
Fixpoint chainLeaves (op : BinaryOperator) (e : Expression) : list Expression :=
  match e with
  | ParenthesizedExpression e' => chainLeaves op e'
  | BinaryExpression l op' r =>
      if bool_decide (op' = op) then chainLeaves op l ++ chainLeaves op r
      else [e]
  | _ => [e]
  end.

(** An expression that [chainLeaves op] does not take apart. *)
Definition isLeaf (op : BinaryOperator) (e : Expression) : Prop :=
  match e with
  | ParenthesizedExpression _ => False
  | BinaryExpression _ op' _ => op' ≠ op
  | _ => True
  end.

(** The identity that a guard on the operand [x] resolves to. *)
Definition operandSymbol `{TypeChecker} (x : Expression) : option Symbol :=
  match x with
  | Identifier _ => getSymbolAtLocation x
  | PropertyAccessExpression obj name =>
      getPropertyOfType (getApparentType (getTypeAtLocation obj)) name
  | _ => None
  end.

(** The guard on [x] with the given polarity. *)
Definition guardOn `{TypeChecker} (x : Expression) (negated : bool)
  : GuardExpression :=
  mkGuardExpression (GuardExprChecker._unwrapParentheses x)
    (operandSymbol (GuardExprChecker._unwrapParentheses x)) negated.

(** What one statement contributes in the loop over a statement list. *)
Definition contribution `{ClientCompatCheckerFlags} (t : ClientInfo)
  (typeName : jsstring) (propName url : option jsstring) (flagBits : Z)
  (notesOnly : bool) (s : SupportStatement) : option Issue :=
  i ← CompatData._makeIssueFromSupportStatement
        typeName propName url t flagBits s;
  if notesOnly && negb (bool_decide (kind i = NOTE)) then None else Some i.

(** A comparison of [typeof x] with a string literal, in either order. *)
Definition typeofComparison (l r x : Expression) (text : jsstring) : Prop :=
  (GuardExprChecker._unwrapParentheses l = TypeOfExpression x
   ∧ GuardExprChecker._unwrapParentheses r = StringLiteral text)
  ∨ (GuardExprChecker._unwrapParentheses l = StringLiteral text
     ∧ GuardExprChecker._unwrapParentheses r = TypeOfExpression x).

Definition isEqualityOperator (op : BinaryOperator) : Prop :=
  op = EqualsEqualsEqualsToken ∨ op = EqualsEqualsToken
  ∨ op = ExclamationEqualsEqualsToken ∨ op = ExclamationEqualsToken.

(** Data of tests/CompatData.test.ts ("Array support statements"), in
    the order in which [_preprocessMDNCompatDataSupportBlock] sorts it. *)
Definition testFoo : list SupportStatement :=
  [ mkSupportStatement (mkVersion 1 0) (mkVersion 2 0)
      (JString (lit "a")) JUndefined JUndefined JUndefined JUndefined;
    mkSupportStatement (mkVersion 2 0) (mkVersion 3 0)
      JUndefined JUndefined JUndefined JUndefined JUndefined;
    mkSupportStatement (mkVersion 3 0) (mkVersion 4 0)
      JUndefined JUndefined JUndefined (JBool true) JUndefined;
    mkSupportStatement (mkVersion 4 0) (mkVersion 5 0)
      JUndefined (JString (lit "foo")) JUndefined JUndefined JUndefined;
    mkSupportStatement (mkVersion 5 0) (mkVersion 6 0)
      JUndefined (JString (lit "foo2")) JUndefined JUndefined JUndefined;
    mkSupportStatement (mkVersion 6 0) Version.infinite
      JUndefined JUndefined (JArray []) JUndefined JUndefined;
    mkSupportStatement (mkVersion 12 0) (mkVersion 16 0)
      JUndefined JUndefined JUndefined JUndefined (JString (lit "Note-1"));
    mkSupportStatement (mkVersion 14 0) Version.infinite
      JUndefined JUndefined JUndefined JUndefined JUndefined ].

Definition testBar : list SupportStatement :=
  [ plainStatement (mkVersion 2 0) (mkVersion 2 4);
    plainStatement (mkVersion 2 8) (mkVersion 2 15);
    plainStatement (mkVersion 3 2) (mkVersion 3 2);
    plainStatement (mkVersion 3 6) (mkVersion 4 3);
    plainStatement (mkVersion 6 1) (mkVersion 7 0);
    plainStatement (mkVersion 7 10) (mkVersion 7 20);
    plainStatement (mkVersion 7 20) (mkVersion 7 26) ].

(** The helper [f] of that test: the kinds of the issues of a feature
    for the target range written [x-y]. *)
Definition testKinds (stmts : list SupportStatement) (range : string)
  : option (list IssueKind) :=
  r ← Version.rangeFromString (lit range);
  Some (map kind
          (@CompatData._getIssuesFromArraySupportStatement exampleFlags
             (ClientInfo.new (lit "a") (lit "Browser A") r.1 r.2)
             (lit "Foo") None None stmts 0 [])).

(* ===================================================================== *)
(** ** Further code of the repository *)
(* ===================================================================== *)

(** *** String methods used below *)

Module JSString.

(** [s.endsWith(pat)]. *)
Definition endsWith (s pat : jsstring) : bool :=
  (length pat <=? length s)%nat
  && startsWith (drop (length s - length pat) s) pat.

(** [s.startsWith(pat, pos)], for a position that is not negative. *)
Definition startsWithAt (s pat : jsstring) (pos : Z) : bool :=
  startsWith (drop (Z.to_nat pos) s) pat.

(** The scan of [s.lastIndexOf(pat)]: [i] is the index of the head of
    [s], [found] the last position seen so far. *)
Fixpoint lastIndexOf_from (s pat : jsstring) (i found : Z) : Z :=
  let found' := if startsWith s pat then i else found in
  match s with
  | [] => found'
  | _ :: s' => lastIndexOf_from s' pat (i + 1) found'
  end.

(** [s.lastIndexOf(pat)]: the last position at which [pat] occurs, or -1. *)
Definition lastIndexOf (s pat : jsstring) : Z := lastIndexOf_from s pat 0 (-1).

(** [s.charCodeAt(i)] for a position that is not negative; [None] is NaN. *)
Definition charCodeAt (s : jsstring) (i : Z) : option N :=
  s !! Z.to_nat i.

End JSString.

(** *** src/CompatData.ts: normalisation of the raw data *)

(** A support statement as the data source gives it. *)
Record RawSupportStatement : Type := mkRawSupportStatement {
  raw_version_added : jsval;
  raw_version_removed : jsval;
  raw_prefix : jsval;
  raw_alternative_name : jsval;
  raw_flags : jsval;
  raw_partial_implementation : jsval;
  raw_notes : jsval
}.

Inductive RawSupport : Type :=
| RawSingleSupport (s : RawSupportStatement)
| RawArraySupport (l : list RawSupportStatement).

Module Preprocess.

Definition _supportStatementVersionAddedToObject (versionAdded : jsval)
  : option Version :=
  match versionAdded with
  | JBool true => Some Version.minVal
  | JBool false => Some Version.infinite
  | JString str =>
      if bool_decide (JSString.charCodeAt str 0 = Some 8804%N)
      then Some Version.minVal
      else Version.fromString str
  | _ => Some Version.minVal
  end.

Definition _supportStatementVersionRemovedToObject (versionRemoved : jsval)
  : option Version :=
  match versionRemoved with
  | JString str =>
      if bool_decide (JSString.charCodeAt str 0 = Some 8804%N)
      then Version.fromString (substring_from str 1)
      else Version.fromString str
  | _ => Some Version.infinite
  end.

(** The two version fields are replaced; the other fields stay. *)
Definition _preprocessMDNCompatDataSupportStatement (ss : RawSupportStatement)
  : option SupportStatement :=
  added ← _supportStatementVersionAddedToObject (raw_version_added ss);
  removed ← _supportStatementVersionRemovedToObject (raw_version_removed ss);
  Some (mkSupportStatement added removed
          (raw_prefix ss) (raw_alternative_name ss) (raw_flags ss)
          (raw_partial_implementation ss) (raw_notes ss)).

(** [arr.sort(compare)]: the sort is stable; with a consistent comparator
    its result is the one of this insertion sort. *)
Fixpoint _insert (compare : SupportStatement → SupportStatement → Z)
  (x : SupportStatement) (l : list SupportStatement) : list SupportStatement :=
  match l with
  | [] => [x]
  | y :: l' =>
      if compare x y <=? 0 then x :: y :: l' else y :: _insert compare x l'
  end.

Definition sort (compare : SupportStatement → SupportStatement → Z)
  (arr : list SupportStatement) : list SupportStatement :=
  foldr (_insert compare) [] arr.

(** One entry of [_preprocessMDNCompatDataSupportBlock]. *)
Definition _preprocessSupportEntry (supportStatement : RawSupport)
  : option Support :=
  match supportStatement with
  | RawArraySupport l =>
      l' ← mapM _preprocessMDNCompatDataSupportStatement l;
      Some (ArraySupport (sort CompatData._compareSupportStatementsForSort l'))
  | RawSingleSupport s =>
      s' ← _preprocessMDNCompatDataSupportStatement s;
      Some (SingleSupport s')
  end.

(** [_preprocessMDNCompatDataSupportBlock]: every entry is preprocessed;
    an error in any of them is an error of the whole. *)
Definition _preprocessMDNCompatDataSupportBlock (support : gmap jsstring RawSupport)
  : option (gmap jsstring Support) :=
  if bool_decide (map_Forall (λ _ x, is_Some (_preprocessSupportEntry x)) support)
  then Some (omap _preprocessSupportEntry support)
  else None.

End Preprocess.

(** *** src/CompatData.ts: first versions, loading of the issue lists *)

(** An entry of the [browsers] table: the keys of its [releases]. *)
Record Browser : Type := mkBrowser {
  browserName : jsstring;
  releases : list jsstring
}.

(** A node of the feature tree, as far as the loader reads it. *)
Record FeatureNode : Type := mkFeatureNode {
  __compat : option CompatStatement
}.

Module Loader.

(** [versions.reduce((a, x) => compare(a, x) < 0 ? a : x)]: a TypeError
    ([None]) on an empty array. *)
Definition _reduceMin (versions : list Version) : option Version :=
  match versions with
  | [] => None
  | v :: rest =>
      Some (foldl (λ a x, if Version.compare a x <? 0 then a else x) v rest)
  end.

(** The entry of one browser in [_createClientMinVersionMap]. *)
Definition _minVersion (b : Browser) : option Version :=
  versions ← mapM Version.fromString (releases b);
  _reduceMin versions.

Definition _createClientMinVersionMap (browsers : gmap jsstring Browser)
  : option (gmap jsstring Version) :=
  if bool_decide (map_Forall (λ _ b, is_Some (_minVersion b)) browsers)
  then Some (omap _minVersion browsers)
  else None.

(** [browsers] is a plain object and the test is [clientName in
    browsers]; the map has the own names only, and [Some None] is the
    [undefined] that [Map.get] gives for any other name. *)
Definition getFirstVersion (browsers : gmap jsstring Browser)
  (clientName : jsstring) : option (option Version) :=
  if negb (JSObject.has browsers clientName) then None
  else
    dict ← _createClientMinVersionMap browsers;
    Some (dict !! clientName).

Definition _windowInterfaces : gset jsstring :=
  list_to_set
    (lit <$> ["Window"; "EventTarget"; "AnimationFrameProvider";
              "GlobalEventHandlers"; "WindowConsole"; "WindowEventHandlers";
              "WindowLocalStorage"; "WindowOrWorkerGlobalScope";
              "WindowSessionStorage"]%string).

Section WithFlags.

Context `{ClientCompatCheckerFlags}.

(** [sourceData[memberName]], read for its [__compat]: a member
    inherited from [Object.prototype] has none; on [undefined] the read
    of [__compat] is a TypeError ([None]). *)
Definition _memberNode (sourceData : gmap jsstring FeatureNode)
  (memberName : jsstring) : option FeatureNode :=
  match JSObject.get sourceData memberName with
  | JSObject.Own node => Some node
  | JSObject.Inherited => Some (mkFeatureNode None)
  | JSObject.Missing => None
  end.

Definition _loadGlobalIssuesForClient
  (clientInfo : ClientInfo) (name : jsstring) (sourceData : FeatureNode)
  (flagBits : Z) (clientIssues : ClientCompatIssueList)
  : option ClientCompatIssueList :=
  _tempIssuesArray ←
    CompatData._getIssuesFromCompatStatement
      clientInfo name None (__compat sourceData) flagBits [];
  Some (ClientCompatIssueList.setIssuesForGlobal
          clientIssues name _tempIssuesArray).

Definition _loadMemberIssuesForClient
  (clientInfo : ClientInfo) (typeName memberName : jsstring)
  (isEvent isWindowGlobal : bool) (sourceData : FeatureNode)
  (flagBits : Z) (clientIssues : ClientCompatIssueList)
  : option ClientCompatIssueList :=
  _tempIssuesArray ←
    CompatData._getIssuesFromCompatStatement
      clientInfo typeName (Some memberName) (__compat sourceData) flagBits [];
  let clientIssues :=
    ClientCompatIssueList.setIssuesForPropertyOrEvent
      clientIssues typeName memberName isEvent _tempIssuesArray in
  Some (if isWindowGlobal && negb isEvent
        then ClientCompatIssueList.setIssuesForGlobal
               clientIssues memberName _tempIssuesArray
        else clientIssues).

(** [sourceData] is the plain object of the type, [memberNames] the
    names to load from it. *)
Fixpoint _loadAllMemberIssuesForClient
  (clientInfo : ClientInfo) (typeName : jsstring) (memberNames : list jsstring)
  (sourceData : gmap jsstring FeatureNode) (flagBits : Z)
  (clientIssues : ClientCompatIssueList) : option ClientCompatIssueList :=
  let isWindowGlobal := bool_decide (typeName ∈ _windowInterfaces) in
  match memberNames with
  | [] => Some clientIssues
  | memberName :: rest =>
      let isEvent := JSString.endsWith memberName (lit "_event") in
      if negb isEvent
         && (negb (indexOf memberName (lit "_") =? -1)
             || startsWith memberName (lit "@@")
             || bool_decide (memberName = typeName))
      then _loadAllMemberIssuesForClient
             clientInfo typeName rest sourceData flagBits clientIssues
      else
        let memberNameWithoutSuffix :=
          if isEvent
          then substring memberName 0 (Z.of_nat (length memberName) - 6)
          else memberName in
        node ← _memberNode sourceData memberName;
        clientIssues ←
          _loadMemberIssuesForClient
            clientInfo typeName memberNameWithoutSuffix isEvent
            isWindowGlobal node flagBits clientIssues;
        _loadAllMemberIssuesForClient
          clientInfo typeName rest sourceData flagBits clientIssues
  end.

(** The body of the loop over the clients in [_loadCompatDataFromSource]:
    [dataForGlobal] is read for the [__compat] of the global itself,
    [memberData] for its properties, whose names are [members]. *)
Definition _loadCompatDataForGlobal
  (clientInfo : ClientInfo) (globalName : jsstring) (members : list jsstring)
  (dataForGlobal : FeatureNode) (memberData : gmap jsstring FeatureNode)
  (flagBits : Z) (clientIssues : ClientCompatIssueList)
  : option ClientCompatIssueList :=
  clientIssues ←
    _loadGlobalIssuesForClient
      clientInfo globalName dataForGlobal flagBits clientIssues;
  _loadAllMemberIssuesForClient
    clientInfo globalName members memberData flagBits clientIssues.

End WithFlags.

End Loader.

(** *** src/Whitelist.ts and [parseWhitelist] *)

Record Whitelist : Type := mkWhitelist {
  wl_global : gset jsstring;
  wl_properties : gmap jsstring (gset jsstring);
  wl_events : gmap jsstring (gset jsstring)
}.

Module Whitelist.

Definition new : Whitelist := mkWhitelist ∅ ∅ ∅.

Definition addGlobal (this : Whitelist) (name : jsstring) : Whitelist :=
  mkWhitelist ({[name]} ∪ wl_global this) (wl_properties this) (wl_events this).

Definition addProperty (this : Whitelist) (typeName propName : jsstring)
  : Whitelist :=
  let typeWhitelist := default ∅ (wl_properties this !! typeName) in
  mkWhitelist (wl_global this)
    (<[typeName := {[propName]} ∪ typeWhitelist]> (wl_properties this))
    (wl_events this).

Definition addEvent (this : Whitelist) (typeName eventName : jsstring)
  : Whitelist :=
  let typeWhitelist := default ∅ (wl_events this !! typeName) in
  mkWhitelist (wl_global this) (wl_properties this)
    (<[typeName := {[eventName]} ∪ typeWhitelist]> (wl_events this)).

Definition isGlobalWhitelisted (this : Whitelist) (name : jsstring) : bool :=
  bool_decide (name ∈ wl_global this).

Definition isPropertyOrEventWhitelisted (this : Whitelist)
  (typeName propName : jsstring) (isEvent : bool) : bool :=
  let whitelist := if isEvent then wl_events this else wl_properties this in
  match whitelist !! typeName with
  | None => false
  | Some typeWhitelist =>
      bool_decide (propName ∈ typeWhitelist)
      || bool_decide (lit "*" ∈ typeWhitelist)
  end.

(** The loop body of [parseWhitelist]. *)
Definition _addEntry (whitelist : Whitelist) (str : jsstring) : Whitelist :=
  let dotPos := indexOf str (lit ".") in
  if dotPos =? -1 then addGlobal whitelist str
  else if negb (dotPos =? Z.of_nat (length str) - 1)
          && bool_decide (JSString.charCodeAt str (dotPos + 1) = Some 64%N)
  then addEvent whitelist (substring str 0 dotPos)
         (substring_from str (dotPos + 2))
  else addProperty whitelist (substring str 0 dotPos)
         (substring_from str (dotPos + 1)).

(** [_ensureWhitelistArgumentValid]: the strings of the array; a
    TypeError ([None]) when the argument is not an array of strings. *)
Definition _ensureWhitelistArgumentValid (whitelistArg : jsval)
  : option (list jsstring) :=
  match whitelistArg with
  | JArray items =>
      mapM (λ x, match x with JString s => Some s | _ => None end) items
  | _ => None
  end.

Definition parseWhitelist (whitelistArg : jsval) : option Whitelist :=
  match whitelistArg with
  | JUndefined => Some new
  | _ =>
      strings ← _ensureWhitelistArgumentValid whitelistArg;
      Some (foldl _addEntry new strings)
  end.

End Whitelist.

(** *** src/GuardExprChecker.ts, src/Walker.ts: further functions *)

Module Guard.

(** [GuardExpression.getSymbolResolveTarget]. *)
Definition getSymbolResolveTarget (this : GuardExpression) : option Expression :=
  match guardedSymbol this with
  | None => None
  | Some _ =>
      match operand this with
      | PropertyAccessExpression e _ => Some e
      | BinaryExpression _ InKeyword r => Some r
      | _ => None
      end
  end.

(** [Walker._canBinaryOperatorBeUsedInGuard]. *)
Definition _canBinaryOperatorBeUsedInGuard (op : BinaryOperator) : bool :=
  bool_decide (op = AmpersandAmpersandToken)
  || bool_decide (op = BarBarToken)
  || bool_decide (op = EqualsEqualsToken)
  || bool_decide (op = EqualsEqualsEqualsToken)
  || bool_decide (op = ExclamationEqualsToken)
  || bool_decide (op = ExclamationEqualsEqualsToken)
  || bool_decide (op = InKeyword).

(** [Walker._isLibraryFilePath]. *)
Definition _isLibraryFilePath (path : jsstring) : bool :=
  let fileNameStart := JSString.lastIndexOf path (lit "/") + 1 in
  JSString.startsWithAt path (lit "lib.") fileNameStart
  && JSString.endsWith path (lit ".d.ts").

(** The computation of [guardsApplyToElse] in
    [Walker._visitIfStatementOrExpr]. *)
Definition guardsApplyToElse (guardExprOrChain : GuardResult) : bool :=
  match guardExprOrChain with
  | IsGuardExpression g => isNegated g
  | IsGuardExprChain c =>
      let isOr := bool_decide (operator c = BarBarToken) in
      negb (eqb (chainIsNegated c) isOr)
  end.

(** The symbols that [_visitGuardExpressionAndPushSymbol] and
    [_visitGuardExprChainAndPushSymbols] push, in order. *)
Definition pushedSymbols (guardExprOrChain : GuardResult) : list Symbol :=
  match guardExprOrChain with
  | IsGuardExpression g => omap guardedSymbol [g]
  | IsGuardExprChain c => omap guardedSymbol (expressions c)
  end.

End Guard.

(** *** Notions used to state the further properties *)

(** The number [x] lies between the integers [lo] and [hi]; NaN and
    the infinities do not. *)
Definition numberBetween (lo hi : Z) (x : number) : Prop :=
  match x with
  | Num z => lo <= z <= hi
  | Frac q => (inject_Z lo <= q)%Q ∧ (q <= inject_Z hi)%Q
  | NaN | Infinity _ => False
  end.

(** The integer [z] is the integer part of the number [x], which is
    not negative: [z <= x < z + 1]. *)
Definition integerPart (x : number) (z : Z) : Prop :=
  match x with
  | Num n => z = n
  | Frac q => (inject_Z z <= q)%Q ∧ (q < inject_Z (z + 1))%Q
  | NaN | Infinity _ => False
  end.

(** [R] holds between every element of the list and every later one. *)
Fixpoint sortedBy {A : Type} (R : A → A → Prop) (l : list A) : Prop :=
  match l with
  | [] => True
  | x :: l' => Forall (R x) l' ∧ sortedBy R l'
  end.

(** The statements are in ascending order of [version_added]. *)
Definition addedAscending (a b : SupportStatement) : Prop :=
  Spec.ge (version_added b) (version_added a) = true.

(** The canonical order of a statement list. *)
Definition canonicalOrder (a b : SupportStatement) : Prop :=
  CompatData._compareSupportStatementsForSort a b <= 0.

(** The version [v] lies in the support interval of [s]:
    [addedAt <= v < removedAt]. *)
Definition supportedAt (v : Version) (s : SupportStatement) : Prop :=
  Spec.ge v (version_added s) = true ∧ Spec.lt v (version_removed s) = true.

(** The version [v] lies in the range [tmin .. tmax]. *)
Definition inRange (tmin tmax v : Version) : Prop :=
  Spec.ge v tmin = true ∧ Spec.ge tmax v = true.

(** The feature name of an issue on [typeName], or on its member. *)
Definition qualifiedName (typeName : jsstring) (propName : option jsstring)
  : jsstring :=
  match propName with
  | Some p => typeName ++ lit "." ++ p
  | None => typeName
  end.

(** The NOT_SUPPORTED issue of a feature for a client: no prefix or
    alternative name, no note, no url, and the window of all versions. *)
Definition notSupportedIssue (typeName : jsstring) (propName : option jsstring)
  (t : ClientInfo) : Issue :=
  mkIssue (qualifiedName typeName propName) t NOT_SUPPORTED None None None
    Version.minVal Version.infinite.

(** The stored arrays of an issue list hold at least two issues (a
    single issue is stored as such). *)
Definition storedWellFormed (x : StoredIssues) : Prop :=
  match x with
  | OneIssue _ => True
  | IssueArray issues => (2 ≤ length issues)%nat
  end.

Definition issueListWellFormed (l : ClientCompatIssueList) : Prop :=
  map_Forall (λ _ x, storedWellFormed x) (m_global l)
  ∧ map_Forall (λ _ d, map_Forall (λ _ x, storedWellFormed x) d) (m_properties l)
  ∧ map_Forall (λ _ d, map_Forall (λ _ x, storedWellFormed x) d) (m_events l).

(** The issues of a stored value. *)
Definition storedIssues (x : option StoredIssues) : list Issue :=
  match x with
  | None => []
  | Some (OneIssue i) => [i]
  | Some (IssueArray issues) => issues
  end.

(** The statements of a client's entry in a [support] block. *)
Definition entryStatements (entry : option Support) : list SupportStatement :=
  match entry with
  | Some (SingleSupport s) => [s]
  | Some (ArraySupport l) => l
  | None => []
  end.

(** The [url] given to the issues of a compat statement. *)
Definition issueUrl (c : CompatStatement) : option jsstring :=
  if JSVal.truthy (mdn_url c) then Some (JSVal.toString (mdn_url c)) else None.

(** [p] is in the set that the whitelist map [m] holds for [T]. *)
Definition listed (m : gmap jsstring (gset jsstring)) (T p : jsstring) : Prop :=
  ∃ s, m !! T = Some s ∧ p ∈ s.

(** The key under which a property ([isEvent = false]) or an event of a
    type stands among the members of its feature node. *)
Definition memberKey (propName : jsstring) (isEvent : bool) : jsstring :=
  if isEvent then propName ++ lit "_event" else propName.

(** A member name that stands for a property: it holds no ["_"], does
    not start with ["@@"] and is not the name of its type. *)
Definition propertyMember (typeName memberName : jsstring) : Prop :=
  (95%N ∉ memberName) ∧ startsWith memberName (lit "@@") = false
  ∧ memberName ≠ typeName.

(** The member [propName] of [typeName] is among [memberNames] and is
    one that the loader reads. *)
Definition loadedMember (typeName : jsstring) (memberNames : list jsstring)
  (propName : jsstring) (isEvent : bool) : Prop :=
  memberKey propName isEvent ∈ memberNames
  ∧ (isEvent = false → propertyMember typeName propName).

(** The issues that the loader derives for the member [propName] of
    [typeName] from its node in [sourceData]. *)
Definition memberIssues `{ClientCompatCheckerFlags} (t : ClientInfo)
  (typeName : jsstring) (sourceData : gmap jsstring FeatureNode)
  (flagBits : Z) (propName : jsstring) (isEvent : bool)
  : option (list Issue) :=
  CompatData._getIssuesFromCompatStatement t typeName (Some propName)
    (sourceData !! memberKey propName isEvent ≫= __compat) flagBits [].

(** The identity of a guard on [x] that is not a [typeof] test: only a
    property access resolves to one. *)
Definition propertySymbol `{TypeChecker} (x : Expression) : option Symbol :=
  match x with
  | PropertyAccessExpression obj name =>
      getPropertyOfType (getApparentType (getTypeAtLocation obj)) name
  | _ => None
  end.

(** [y] denotes [undefined]: the keyword, or the identifier of that
    name. *)
Definition denotesUndefined (y : Expression) : Prop :=
  y = UndefinedKeyword ∨ y = Identifier (lit "undefined").

(** [y] is what a comparison with [op] takes for the absence of a
    value: [undefined], and the keyword [null] under [==] and [!=]. *)
Definition denotesNoValue (op : BinaryOperator) (y : Expression) : Prop :=
  denotesUndefined y
  ∨ ((op = EqualsEqualsToken ∨ op = ExclamationEqualsToken)
     ∧ y = NullKeyword).

(** A constant operand: a string literal, or [null] or [undefined]
    written as keyword or as identifier. *)
Definition isConstantOperand (x : Expression) : Prop :=
  (∃ text, x = StringLiteral text) ∨ x = NullKeyword ∨ x = UndefinedKeyword
  ∨ x = Identifier (lit "undefined") ∨ x = Identifier (lit "null").

(** The guard expressions of a result of [evaluateChain]. *)
Definition guardExpressions (result : GuardResult) : list GuardExpression :=
  match result with
  | IsGuardExpression g => [g]
  | IsGuardExprChain c => expressions c
  end.

(** Whether the result is a chain under an odd number of [!]. *)
Definition resultIsNegated (result : GuardResult) : bool :=
  match result with
  | IsGuardExpression _ => false
  | IsGuardExprChain c => chainIsNegated c
  end.

(* ===================================================================== *)
(** * Properties *)
(* ===================================================================== *)

(** ** The embedding on the repository's tests *)

Example test_rangeFromString :
  Version.rangeFromString (lit "*")
    = Some (mkVersion 0 0, mkVersion 999999999 999999999)
  ∧ Version.rangeFromString (lit "1.0-2")
    = Some (mkVersion 1 0, mkVersion 2 999999999)
  ∧ Version.rangeFromString (lit "<=2.5") = Some (mkVersion 0 0, mkVersion 2 5)
  ∧ Version.rangeFromString (lit ">=2")
    = Some (mkVersion 2 0, mkVersion 999999999 999999999)
  ∧ Version.rangeFromString (lit "2") = Some (mkVersion 2 0, mkVersion 2 999999999)
  ∧ Version.rangeFromString (lit "2.5") = Some (mkVersion 2 5, mkVersion 2 5)
  ∧ Version.rangeFromString (lit "2-1") = None
  ∧ Version.rangeFromString (lit "2.2-2.1") = None.
Proof. repeat split; vm_compute; reflexivity. Qed.

Example test_rangeToString :
  Version.rangeToString (mkVersion 1 5) (mkVersion 1 5) = lit "1.5"
  ∧ Version.rangeToString (mkVersion 125 0) (mkVersion 125 999999999) = lit "125"
  ∧ Version.rangeToString (mkVersion 0 0) (mkVersion 999999999 999999999) = lit "*"
  ∧ Version.rangeToString (mkVersion 0 0) (mkVersion 1 5) = lit "<=1.5"
  ∧ Version.rangeToString (mkVersion 1 5) (mkVersion 999999999 999999999)
    = lit ">=1.5"
  ∧ Version.rangeToString (mkVersion 2 0) (mkVersion 3 999999999) = lit "2-3"
  ∧ Version.rangeToString (mkVersion 2 1) (mkVersion 3 999999999)
    = lit "2.1-3.999999999".
Proof. repeat split; vm_compute; reflexivity. Qed.

Example test_fromString :
  Version.fromString (lit "1.41.28.182.22") = Some (mkVersion 1 41)
  ∧ Version.fromString (lit "1000000000") = None
  ∧ Version.fromString (lit "-1") = None
  ∧ Version.fromString (lit "0.-1") = None.
Proof. repeat split; vm_compute; reflexivity. Qed.

Example test_stripHTMLFromNotes :
  CompatData._stripHTMLFromNotes
    (lit "See <code>a &lt; b</code> &amp; <a href='x'>this</a>, <> and 1 < 2")
  = lit "See a < b & this, <> and 1 < 2".
Proof. vm_compute. reflexivity. Qed.

Example test_array_support_statements :
  testKinds testFoo "0-999999999" = Some [NOT_SUPPORTED]
  ∧ testKinds testFoo "1-999999999"
    = Some [NEEDS_PREFIX; IS_PARTIAL_IMPL; NEEDS_ALT_NAME; NEEDS_ALT_NAME;
            NEEDS_FLAG; NOTE]
  ∧ testKinds testFoo "16-999999999" = Some []
  ∧ testKinds testFoo "2-2.999999999" = Some []
  ∧ testKinds testFoo "2-5"
    = Some [IS_PARTIAL_IMPL; NEEDS_ALT_NAME; NEEDS_ALT_NAME]
  ∧ testKinds testFoo "6-12" = Some [NEEDS_FLAG; NOTE]
  ∧ testKinds testBar "2-2.3" = Some []
  ∧ testKinds testBar "2-2.4" = Some [NOT_SUPPORTED]
  ∧ testKinds testBar "7.10-7.25" = Some []
  ∧ testKinds testBar "7.21-7.26" = Some [NOT_SUPPORTED].
Proof. repeat split; vm_compute; reflexivity. Qed.

(* ===================================================================== *)

(** ** Strings and decimal numerals *)

Section Strings.

Implicit Types (s r pat : jsstring) (c : N).

Lemma startsWith_cons_single c c' s :
  startsWith (c' :: s) [c] = (c =? c')%N.
Proof. cbn [startsWith]. apply andb_true_r. Qed.

Lemma startsWith_app pat s : startsWith (pat ++ s) pat = true.
Proof.
  induction pat as [|p pat IH]; [reflexivity|].
  cbn [app startsWith]. by rewrite N.eqb_refl, IH.
Qed.

Lemma indexOf_from_absent c s i :
  c ∉ s → indexOf_from s [c] i = -1.
Proof.
  revert i. induction s as [|c' s IH]; intros i Hnin; [reflexivity|].
  apply not_elem_of_cons in Hnin as [Hne Hnin].
  cbn [indexOf_from]. rewrite startsWith_cons_single.
  destruct (N.eqb_spec c c') as [->|_]; [done|]. by apply IH.
Qed.

Lemma indexOf_from_first c s r i :
  c ∉ s → indexOf_from (s ++ c :: r) [c] i = i + Z.of_nat (length s).
Proof.
  revert i. induction s as [|c' s IH]; intros i Hnin.
  - cbn [app indexOf_from length]. rewrite startsWith_cons_single, N.eqb_refl. lia.
  - apply not_elem_of_cons in Hnin as [Hne Hnin].
    change ((c' :: s) ++ c :: r) with (c' :: (s ++ c :: r)).
    cbn [indexOf_from]. rewrite startsWith_cons_single.
    destruct (N.eqb_spec c c') as [->|_]; [done|].
    rewrite IH by done. cbn [length]. lia.
Qed.

Lemma indexOf_absent c s : c ∉ s → indexOf s [c] = -1.
Proof. apply indexOf_from_absent. Qed.

Lemma indexOf_first c s r :
  c ∉ s → indexOf (s ++ c :: r) [c] = Z.of_nat (length s).
Proof. intros. unfold indexOf. by rewrite indexOf_from_first. Qed.

Lemma substring_prefix s r :
  substring (s ++ r) 0 (Z.of_nat (length s)) = s.
Proof.
  unfold substring. rewrite length_app.
  replace (Z.min (Z.max 0 0) _) with 0 by lia.
  replace (Z.min (Z.max (Z.of_nat (length s)) 0) _)
    with (Z.of_nat (length s)) by lia.
  replace (Z.min 0 _) with 0 by lia.
  replace (Z.max 0 (Z.of_nat (length s)) - 0) with (Z.of_nat (length s)) by lia.
  rewrite Nat2Z.id. change (Z.to_nat 0) with O. rewrite drop_0.
  by rewrite take_app_length.
Qed.

Lemma substring_from_suffix s r k :
  k = Z.of_nat (length s) → substring_from (s ++ r) k = r.
Proof.
  intros ->. unfold substring_from, substring. rewrite length_app.
  set (n := length s). set (m := length r).
  replace (Z.min (Z.max (Z.of_nat n) 0) _) with (Z.of_nat n) by lia.
  replace (Z.min (Z.max (Z.of_nat (n + m)) 0) _)
    with (Z.of_nat (n + m)) by lia.
  replace (Z.min (Z.of_nat n) _) with (Z.of_nat n) by lia.
  replace (Z.max (Z.of_nat n) (Z.of_nat (n + m)) - Z.of_nat n)
    with (Z.of_nat m) by lia.
  rewrite !Nat2Z.id. subst n m.
  rewrite drop_app_length. apply firstn_all.
Qed.

End Strings.

Section Numerals.

Implicit Types (ds r : jsstring) (n a : Z).

Lemma isDigit_range c : isDigit c = true ↔ (48 <= c <= 57)%N.
Proof.
  unfold isDigit. rewrite andb_true_iff, !N.leb_le. tauto.
Qed.

Lemma foldl_digits_snoc ds c a :
  foldl (fun a c => 10 * a + (Z.of_N c - 48)) a (ds ++ [c])
  = 10 * foldl (fun a c => 10 * a + (Z.of_N c - 48)) a ds + (Z.of_N c - 48).
Proof. by rewrite foldl_app. Qed.

(** [digits] writes the numeral of [n] in front of [acc]. *)
Lemma digits_numeral fuel :
  ∀ n acc, 0 <= n < 10 ^ (Z.of_nat fuel + 1) →
    ∃ ds, digits fuel n acc = ds ++ acc ∧ numeral n ds.
Proof.
  induction fuel as [|fuel IH]; intros n acc Hn.
  - change (Z.of_nat 0 + 1) with 1 in Hn. rewrite Z.pow_1_r in Hn.
    exists [Z.to_N (48 + n mod 10)]. split; [reflexivity|].
    rewrite Z.mod_small by lia.
    repeat split; [done| |].
    + constructor; [|constructor]. apply isDigit_range. lia.
    + unfold digitsValue. cbn [foldl]. lia.
  - cbn [digits]. destruct (Z.ltb_spec n 10) as [Hlt|Hge].
    + exists [Z.to_N (48 + n mod 10)]. split; [reflexivity|].
      rewrite Z.mod_small by lia.
      repeat split; [done| |].
      * constructor; [|constructor]. apply isDigit_range. lia.
      * unfold digitsValue. cbn [foldl]. lia.
    + destruct (IH (n / 10) (Z.to_N (48 + n mod 10) :: acc)) as (ds & Hds & Hne & Hall & Hval).
      { split; [apply Z.div_pos; lia|].
        apply Z.div_lt_upper_bound; [lia|].
        replace (Z.of_nat (S fuel) + 1) with (Z.succ (Z.of_nat fuel + 1)) in Hn by lia.
        rewrite Z.pow_succ_r in Hn by lia. lia. }
      exists (ds ++ [Z.to_N (48 + n mod 10)]). split.
      { rewrite Hds. by rewrite <- app_assoc. }
      pose proof (Z.mod_pos_bound n 10 ltac:(lia)) as Hm.
      repeat split.
      * by destruct ds.
      * apply Forall_app. split; [done|].
        constructor; [|constructor]. apply isDigit_range. lia.
      * unfold digitsValue in *. rewrite foldl_digits_snoc, Hval.
        rewrite Z2N.id by lia. pose proof (Z.div_mod n 10 ltac:(lia)). lia.
Qed.

Lemma numberToString_numeral n :
  0 <= n → numeral n (numberToString n).
Proof.
  intros Hn. unfold numberToString.
  destruct (Z.ltb_spec n 0) as [?|_]; [lia|].
  destruct (digits_numeral (Z.to_nat (Z.log2 n)) n []) as (ds & Hds & Hnum).
  - split; [done|].
    pose proof (Z.log2_nonneg n) as Hl. rewrite Z2Nat.id by done.
    destruct (Z.eq_dec n 0) as [->|Hnz].
    + change (Z.log2 0) with 0. lia.
    + pose proof (Z.log2_spec n ltac:(lia)) as [_ Hup].
      eapply Z.lt_le_trans; [exact Hup|].
      replace (Z.succ (Z.log2 n)) with (Z.log2 n + 1) by lia.
      apply Z.pow_le_mono_l. lia.
  - rewrite Hds, app_nil_r. exact Hnum.
Qed.

(** [parseDigits] reads a run of digits up to the first other character. *)
Lemma parseDigits_run ds : ∀ r acc,
  Forall (fun c => isDigit c = true) ds → stopsDigits r →
  parseDigits (ds ++ r) acc
  = match ds with
    | [] => acc
    | _ => Some (foldl (fun a c => 10 * a + (Z.of_N c - 48)) (default 0 acc) ds)
    end.
Proof.
  induction ds as [|c ds IH]; intros r acc Hall Hr.
  - cbn [app]. destruct r as [|c r]; [reflexivity|].
    cbn [parseDigits]. cbn in Hr. by rewrite Hr.
  - apply Forall_cons in Hall as [Hc Hall].
    change ((c :: ds) ++ r) with (c :: (ds ++ r)).
    cbn [parseDigits]. rewrite Hc, IH by done.
    destruct ds; reflexivity.
Qed.

Lemma numeral_head n ds :
  numeral n ds → ∃ c ds', ds = c :: ds' ∧ isDigit c = true.
Proof.
  intros (Hne & Hall & _). destruct ds as [|c ds']; [done|].
  apply Forall_cons in Hall as [Hc _]. eauto.
Qed.

Lemma isDigit_not_space c :
  isDigit c = true → isStrWhiteSpaceChar c = false.
Proof.
  intros Hc%isDigit_range. unfold isStrWhiteSpaceChar.
  repeat match goal with
         | |- context [(?a <=? ?b)%N] => destruct (N.leb_spec a b); try lia
         | |- context [(?a =? ?b)%N] => destruct (N.eqb_spec a b); try lia
         end; reflexivity.
Qed.

Lemma parseInt_numeral n ds r :
  numeral n ds → stopsDigits r → parseInt (ds ++ r) = Num n.
Proof.
  intros Hnum Hr. destruct (numeral_head _ _ Hnum) as (c & ds' & -> & Hc).
  destruct Hnum as (_ & Hall & Hval).
  unfold parseInt. change ((c :: ds') ++ r) with (c :: (ds' ++ r)).
  cbn [trimStart]. rewrite (isDigit_not_space c Hc).
  pose proof (proj1 (isDigit_range c) Hc) as Hrange.
  assert (parseDigits (c :: ds' ++ r) None = Some n) as Hp.
  { change (c :: ds' ++ r) with ((c :: ds') ++ r).
    rewrite parseDigits_run by done. by rewrite <- Hval. }
  destruct c as [|p]; [lia|].
  assert (Npos p ≠ 45%N ∧ Npos p ≠ 43%N) as [H45 H43] by lia.
  destruct (decide (Npos p = 45%N)); [done|].
  destruct (decide (Npos p = 43%N)); [done|].
  assert ((let '(sign, body) :=
             match Npos p :: ds' ++ r with
             | 45%N :: r0 => (-1, r0)
             | 43%N :: r0 => (1, r0)
             | _ => (1, Npos p :: ds' ++ r)
             end in
           match parseDigits body None with
           | Some n0 => Num (sign * n0)
           | None => NaN
           end) = Num n) as Hgoal; [|exact Hgoal].
  assert (match Npos p :: ds' ++ r with
          | 45%N :: r0 => (-1, r0)
          | 43%N :: r0 => (1, r0)
          | _ => (1, Npos p :: ds' ++ r)
          end = (1, Npos p :: ds' ++ r)) as ->.
  { repeat (destruct p as [p|p|]; try reflexivity; try lia). }
  rewrite Hp. f_equal. lia.
Qed.

End Numerals.

(** ** Version: order, parsing and printing *)

Section VersionFacts.

Implicit Types (v w : Version) (A B : jsstring).

Lemma compare_cases v w :
  (Version.compare v w = -1 ∧ Spec.lt v w = true)
  ∨ (Version.compare v w = 0 ∧ v = w)
  ∨ (Version.compare v w = 1 ∧ Spec.lt w v = true).
Proof.
  destruct v as [a b], w as [c d]. unfold Version.compare, Spec.lt. cbn.
  destruct (Z.eqb_spec a c), (Z.eqb_spec b d), (Z.ltb_spec a c),
    (Z.ltb_spec b d), (Z.eqb_spec c a), (Z.ltb_spec c a), (Z.ltb_spec d b);
    cbn; try lia; subst; auto.
Qed.

Lemma lt_irrefl v : Spec.lt v v = false.
Proof.
  unfold Spec.lt. rewrite !Z.ltb_irrefl, orb_false_l. apply andb_false_r.
Qed.

Lemma lt_asym v w : Spec.lt v w = true → Spec.lt w v = false.
Proof.
  unfold Spec.lt.
  destruct (Z.ltb_spec (major v) (major w)), (Z.eqb_spec (major v) (major w)),
    (Z.ltb_spec (minor v) (minor w)), (Z.ltb_spec (major w) (major v)),
    (Z.eqb_spec (major w) (major v)), (Z.ltb_spec (minor w) (minor v));
    cbn; try lia; auto.
Qed.

Lemma compare_ltb v w : (Version.compare v w <? 0) = Spec.lt v w.
Proof.
  destruct (compare_cases v w) as [[-> ->]|[[-> ->]|[-> H]]]; cbn.
  - done.
  - by rewrite lt_irrefl.
  - by rewrite (lt_asym _ _ H).
Qed.

Lemma compare_gtb v w : (Version.compare v w >? 0) = Spec.lt w v.
Proof.
  destruct (compare_cases v w) as [[-> H]|[[-> ->]|[-> ->]]]; cbn.
  - by rewrite (lt_asym _ _ H).
  - by rewrite lt_irrefl.
  - done.
Qed.

Lemma compare_geb v w : (Version.compare v w >=? 0) = Spec.ge v w.
Proof.
  unfold Spec.ge. rewrite <- compare_ltb.
  destruct (Z.geb_spec (Version.compare v w) 0),
    (Z.ltb_spec (Version.compare v w) 0); cbn; try lia; done.
Qed.

Lemma max_vmax v w : Version.max v w = Spec.vmax v w.
Proof. unfold Version.max, Spec.vmax. by rewrite compare_gtb. Qed.

Lemma toInt32_Num z :
  0 <= z <= Version._VERSION_MAX → toInt32 (Num z) = z.
Proof.
  unfold Version._VERSION_MAX, toInt32. intros Hz.
  change (2 ^ 31) with 2147483648. change (2 ^ 32) with 4294967296.
  rewrite Z.mod_small by lia. lia.
Qed.

(** The integer part of a fraction between 0 and [_VERSION_MAX]. *)
Lemma toInt32_Frac q :
  (0 <= q)%Q → (q <= inject_Z Version._VERSION_MAX)%Q →
  toInt32 (Frac q) = Qfloor q ∧ 0 <= Qfloor q <= Version._VERSION_MAX.
Proof.
  destruct q as [n d]. unfold Qle, Version._VERSION_MAX, toInt32, Qfloor.
  cbn [Qnum Qden inject_Z]. intros Hlo Hhi.
  assert (0 <= n) as Hn by lia.
  rewrite Z.quot_div_nonneg by lia.
  assert (0 <= n / Z.pos d) as Hq by (apply Z.div_pos; lia).
  assert (n / Z.pos d <= 999999999) as Hq'
      by (apply Z.div_le_upper_bound; lia).
  change (2 ^ 31) with 2147483648. change (2 ^ 32) with 4294967296.
  rewrite Z.mod_small by lia. lia.
Qed.

(** A number that passes the two tests of [create] has its integer
    part in range. *)
Lemma toInt32_in_range x :
  geb x (Num 0) = true → leb x (Num Version._VERSION_MAX) = true →
  0 <= toInt32 x <= Version._VERSION_MAX.
Proof.
  destruct x as [|z|q|[]]; try done; unfold geb; cbn [leb].
  - intros Hlo%Z.leb_le Hhi%Z.leb_le. by rewrite toInt32_Num.
  - intros Hlo%Qle_bool_iff Hhi%Qle_bool_iff.
    destruct (toInt32_Frac q Hlo Hhi) as [-> ?]. done.
Qed.

Lemma create_Num a b :
  Version.create (Num a) (Num b)
  = if (0 <=? a) && (a <=? Version.MAX_MAJOR)
       && (0 <=? b) && (b <=? Version.MAX_MINOR)
    then Some (mkVersion a b)
    else None.
Proof.
  unfold Version.create, geb, Version.MAX_MAJOR, Version.MAX_MINOR.
  cbn [leb].
  destruct (Z.leb_spec 0 a), (Z.leb_spec a Version._VERSION_MAX),
    (Z.leb_spec 0 b), (Z.leb_spec b Version._VERSION_MAX);
    cbn [andb]; try done.
  by rewrite !toInt32_Num.
Qed.

Lemma create_valid a b v :
  Version.create a b = Some v → validVersion v.
Proof.
  unfold Version.create, validVersion, Version.MAX_MAJOR, Version.MAX_MINOR.
  destruct (geb a (Num 0)) eqn:Ha0; [|done].
  destruct (leb a (Num Version._VERSION_MAX)) eqn:Ha1; [|done].
  destruct (geb b (Num 0)) eqn:Hb0; [|done].
  destruct (leb b (Num Version._VERSION_MAX)) eqn:Hb1; [|done].
  cbn [andb]. intros [= <-]. cbn [major minor].
  split; by apply toInt32_in_range.
Qed.

Lemma create_of_valid v :
  validVersion v → Version.create (Num (major v)) (Num (minor v)) = Some v.
Proof.
  rewrite create_Num.
  unfold validVersion, Version.MAX_MAJOR, Version.MAX_MINOR.
  intros [[? ?] [? ?]].
  destruct (Z.leb_spec 0 (major v)), (Z.leb_spec (major v) Version._VERSION_MAX),
    (Z.leb_spec 0 (minor v)), (Z.leb_spec (minor v) Version._VERSION_MAX);
    try lia.
  cbn. by destruct v.
Qed.

Lemma create_in_range a b :
  0 <= a <= Version._VERSION_MAX → 0 <= b <= Version._VERSION_MAX →
  Version.create (Num a) (Num b) = Some (mkVersion a b).
Proof. intros. by apply (create_of_valid (mkVersion a b)). Qed.

Lemma _fromString_valid str dm v :
  Version._fromString str dm = Some v → validVersion v.
Proof.
  unfold Version._fromString.
  destruct (indexOf str (lit ".") =? -1); apply create_valid.
Qed.

Lemma numeral_notin n A c : numeral n A → isDigit c = false → c ∉ A.
Proof.
  intros (_ & Hall & _) Hc Hin.
  rewrite Forall_forall in Hall. specialize (Hall c Hin). congruence.
Qed.

Lemma _fromString_numeral a A dm :
  numeral a A →
  Version._fromString A dm
  = Version.create (Num a) (Num (if dm then Version.MAX_MINOR else 0)).
Proof.
  intros HA. unfold Version._fromString. change (lit ".") with [46%N].
  rewrite indexOf_absent by (by eapply numeral_notin).
  cbn [Z.eqb Pos.eqb negb]. rewrite <- (app_nil_r A) at 1.
  by rewrite (parseInt_numeral a) by done.
Qed.

Lemma _fromString_dotted a b A B dm :
  numeral a A → numeral b B →
  Version._fromString (A ++ lit "." ++ B) dm = Version.create (Num a) (Num b).
Proof.
  intros HA HB. unfold Version._fromString. change (lit ".") with [46%N].
  cbn [app]. rewrite indexOf_first by (by eapply numeral_notin).
  destruct (Z.eqb_spec (Z.of_nat (length A)) (-1)) as [?|_]; [lia|].
  rewrite substring_prefix.
  replace (A ++ 46%N :: B) with ((A ++ [46%N]) ++ B) by (by rewrite <- app_assoc).
  rewrite (substring_from_suffix (A ++ [46%N]) B)
    by (rewrite length_app; cbn [length]; lia).
  cbn [negb]. rewrite <- (app_nil_r A), <- (app_nil_r B).
  by rewrite (parseInt_numeral a), (parseInt_numeral b).
Qed.

Lemma _fromString_toString v dm :
  validVersion v → Version._fromString (Version.toString v) dm = Some v.
Proof.
  intros Hv. unfold Version.toString.
  rewrite (_fromString_dotted (major v) (minor v))
    by (apply numberToString_numeral; destruct Hv; lia).
  by apply create_of_valid.
Qed.

End VersionFacts.

Section RangeStrings.

Implicit Types (v w : Version) (X Y : jsstring).

Lemma numeral_no_dash n X : numeral n X → 45%N ∉ X.
Proof. intros HX. by eapply numeral_notin. Qed.

Lemma toString_no_dash v : validVersion v → 45%N ∉ Version.toString v.
Proof.
  intros [[? _] [? _]]. unfold Version.toString. change (lit ".") with [46%N].
  rewrite !not_elem_of_app. repeat split.
  - by apply (numeral_no_dash (major v)), numberToString_numeral.
  - by intros ?%list_elem_of_singleton.
  - by apply (numeral_no_dash (minor v)), numberToString_numeral.
Qed.

Lemma digit_head_plain c X :
  isDigit c = true →
  c :: X ≠ lit "*" ∧ startsWith (c :: X) (lit "<=") = false
  ∧ startsWith (c :: X) (lit ">=") = false.
Proof.
  intros Hc%isDigit_range. change (lit "*") with [42%N].
  change (lit "<=") with [60%N; 61%N]. change (lit ">=") with [62%N; 61%N].
  cbn [startsWith]. repeat split.
  - intros [= -> _]. lia.
  - destruct (N.eqb_spec 60 c); [lia|done].
  - destruct (N.eqb_spec 62 c); [lia|done].
Qed.

Lemma check_order v w :
  Version.compare v w <= 0 →
  (if Version.compare v w >? 0 then None else Some (v, w)) = Some (v, w).
Proof. intros. by destruct (Z.gtb_spec (Version.compare v w) 0); [lia|]. Qed.

Lemma rangeFromString_dash X Y v w :
  45%N ∉ X →
  Version._fromString X false = Some v → Version._fromString Y true = Some w →
  Version.compare v w <= 0 →
  Version.rangeFromString (X ++ lit "-" ++ Y) = Some (v, w).
Proof.
  intros HX Hv Hw Hle. unfold Version.rangeFromString.
  change (lit "-") with [45%N]. change (lit "*") with [42%N]. cbn [app].
  rewrite bool_decide_eq_false_2.
  2:{ intros Heq. apply HX. destruct X as [|c [|c' X]]; cbn in Heq; done. }
  rewrite indexOf_first by done.
  destruct (Z.eqb_spec (Z.of_nat (length X)) (-1)) as [?|_]; [lia|].
  cbn [negb]. rewrite substring_prefix, Hv.
  replace (X ++ 45%N :: Y) with ((X ++ [45%N]) ++ Y) by (by rewrite <- app_assoc).
  rewrite (substring_from_suffix (X ++ [45%N]) Y)
    by (rewrite length_app; cbn [length]; lia).
  rewrite Hw. cbn [mbind option_bind fst snd]. by apply check_order.
Qed.

Lemma rangeFromString_upto Y w :
  45%N ∉ Y → Version._fromString Y true = Some w →
  Version.compare Version.minVal w <= 0 →
  Version.rangeFromString (lit "<=" ++ Y) = Some (Version.minVal, w).
Proof.
  intros HY Hw Hle. unfold Version.rangeFromString.
  change (lit "-") with [45%N]. change (lit "*") with [42%N].
  change (lit "<=") with [60%N; 61%N].
  rewrite bool_decide_eq_false_2 by done.
  rewrite indexOf_absent.
  2:{ cbn [app]. rewrite !not_elem_of_cons. repeat split; done. }
  rewrite startsWith_app. cbn [Z.eqb Pos.eqb negb].
  rewrite (substring_from_suffix [60%N; 61%N] Y) by done.
  rewrite Hw. cbn [mbind option_bind fst snd]. by apply check_order.
Qed.

Lemma rangeFromString_from X v :
  45%N ∉ X → Version._fromString X false = Some v →
  Version.compare v Version.maxVal <= 0 →
  Version.rangeFromString (lit ">=" ++ X) = Some (v, Version.maxVal).
Proof.
  intros HX Hv Hle. unfold Version.rangeFromString.
  change (lit "-") with [45%N]. change (lit "*") with [42%N].
  change (lit "<=") with [60%N; 61%N]. change (lit ">=") with [62%N; 61%N].
  rewrite bool_decide_eq_false_2 by done.
  rewrite indexOf_absent.
  2:{ cbn [app]. rewrite !not_elem_of_cons. repeat split; done. }
  rewrite startsWith_app. cbn [Z.eqb Pos.eqb negb].
  replace (startsWith ([62%N; 61%N] ++ X) [60%N; 61%N]) with false
    by reflexivity.
  rewrite (substring_from_suffix [62%N; 61%N] X) by done.
  rewrite Hv. cbn [mbind option_bind fst snd]. by apply check_order.
Qed.

Lemma rangeFromString_major m X :
  numeral m X → 0 <= m <= Version._VERSION_MAX →
  Version.rangeFromString X
  = Some (mkVersion m 0, mkVersion m Version._VERSION_MAX).
Proof.
  intros HX Hm. destruct (numeral_head _ _ HX) as (c & X' & -> & Hc).
  destruct (digit_head_plain c X' Hc) as (Hstar & Hle & Hge).
  unfold Version.rangeFromString.
  rewrite bool_decide_eq_false_2, Hle, Hge by done.
  change (lit "-") with [45%N]. change (lit ".") with [46%N].
  rewrite !indexOf_absent by (by eapply numeral_notin).
  cbn [Z.eqb Pos.eqb negb].
  rewrite <- (app_nil_r (c :: X')), (parseInt_numeral m) by done.
  rewrite (create_in_range m 0)
    by (unfold Version._VERSION_MAX in *; lia).
  cbn [mbind option_bind major]. unfold Version.MAX_MINOR.
  rewrite (create_in_range m Version._VERSION_MAX)
    by (unfold Version._VERSION_MAX in *; lia).
  cbn [mbind option_bind fst snd]. apply check_order.
  unfold Version.compare. cbn. rewrite Z.eqb_refl. cbn.
  destruct (Z.eqb_spec 0 Version._VERSION_MAX); [done|].
  cbn. unfold Version._VERSION_MAX. cbn. lia.
Qed.

Lemma rangeFromString_exact v :
  validVersion v →
  Version.rangeFromString (Version.toString v) = Some (v, v).
Proof.
  intros Hv. pose proof (_fromString_toString v false Hv) as Hparse.
  pose proof (toString_no_dash v Hv) as Hdash.
  assert (numeral (major v) (numberToString (major v))) as Hmaj
      by (apply numberToString_numeral; destruct Hv; lia).
  destruct (numeral_head _ _ Hmaj) as (c & X' & HX & Hc).
  unfold Version.rangeFromString, Version.fromString.
  revert Hparse Hdash. unfold Version.toString. rewrite HX.
  change (lit ".") with [46%N]. cbn [app]. intros Hparse Hdash.
  destruct (digit_head_plain c (X' ++ 46%N :: numberToString (minor v)) Hc)
    as (Hstar & Hle & Hge).
  rewrite bool_decide_eq_false_2, Hle, Hge by done.
  change (lit "-") with [45%N]. rewrite indexOf_absent by done.
  cbn [Z.eqb Pos.eqb negb].
  change (c :: X' ++ 46%N :: numberToString (minor v))
    with ((c :: X') ++ 46%N :: numberToString (minor v)) in *.
  rewrite indexOf_first.
  2:{ rewrite <- HX. by eapply numeral_notin. }
  destruct (Z.eqb_spec (Z.of_nat (length (c :: X'))) (-1)) as [?|_]; [lia|].
  rewrite Hparse. cbn [mbind option_bind fst snd]. apply check_order.
  destruct (compare_cases v v) as [[_ H]|[[-> _]|[_ H]]];
    [by rewrite lt_irrefl in H|lia|by rewrite lt_irrefl in H].
Qed.

End RangeStrings.

Section RangeRoundTrip.

Implicit Types (v w : Version).

Lemma minVal_valid : validVersion Version.minVal.
Proof. unfold validVersion. cbn. unfold Version._VERSION_MAX. lia. Qed.

Lemma maxVal_valid : validVersion Version.maxVal.
Proof. unfold validVersion. cbn. unfold Version._VERSION_MAX. lia. Qed.

(** What a successful parse returns: two versions in range, in order. *)
Lemma rangeFromString_result str v w :
  Version.rangeFromString str = Some (v, w) →
  validVersion v ∧ validVersion w ∧ Version.compare v w <= 0.
Proof.
  unfold Version.rangeFromString. case_bool_decide as Hstar.
  { intros [= <- <-]. split; [apply minVal_valid|].
    split; [apply maxVal_valid|]. by vm_compute. }
  intros Hr. apply bind_Some in Hr as ([v' w'] & Hparse & Hcheck).
  cbn [fst snd] in Hcheck.
  destruct (Z.gtb_spec (Version.compare v' w') 0) as [?|Hle]; [done|].
  injection Hcheck as -> ->.
  repeat match type of Hparse with
         | (if ?c then _ else _) = _ => destruct c
         | _ ≫= _ = Some _ =>
             let x := fresh "x" in
             let Hx := fresh "Hx" in
             apply bind_Some in Hparse as (x & Hx & Hparse)
         end;
    injection Hparse as <- <-; split_and!;
    eauto using _fromString_valid, create_valid, minVal_valid, maxVal_valid.
Qed.

Lemma valid_le_minVal v :
  validVersion v → Version.compare v Version.minVal <= 0 → v = Version.minVal.
Proof.
  intros [[Ha1 Ha2] [Hb1 Hb2]] Hle.
  destruct (compare_cases v Version.minVal) as [[_ Hc]|[[_ Hc]|[Hc _]]];
    [|done|lia].
  rename Hc into H.
  unfold Spec.lt in H. cbn in H.
  destruct (Z.ltb_spec (major v) 0), (Z.eqb_spec (major v) 0),
    (Z.ltb_spec (minor v) 0); cbn in H; try done; lia.
Qed.

Lemma valid_ge_maxVal v :
  validVersion v → Version.compare v Version.maxVal >= 0 → v = Version.maxVal.
Proof.
  intros [[Ha1 Ha2] [Hb1 Hb2]] Hge.
  destruct (compare_cases v Version.maxVal) as [[Hc _]|[[_ Hc]|[_ Hc]]];
    [lia|done|].
  rename Hc into H.
  unfold Spec.lt in H. cbn in H.
  destruct (Z.ltb_spec Version._VERSION_MAX (major v)),
    (Z.eqb_spec Version._VERSION_MAX (major v)),
    (Z.ltb_spec Version._VERSION_MAX (minor v)); cbn in H; try done; lia.
Qed.

Lemma valid_compare_minVal v :
  validVersion v → Version.compare Version.minVal v <= 0.
Proof.
  intros [[Ha1 Ha2] [Hb1 Hb2]].
  destruct (compare_cases Version.minVal v) as [[-> _]|[[-> _]|[_ Hc]]];
    [lia|lia|].
  rename Hc into H.
  unfold Spec.lt in H. cbn in H.
  destruct (Z.ltb_spec (major v) 0), (Z.eqb_spec (major v) 0),
    (Z.ltb_spec (minor v) 0); cbn in H; try done; lia.
Qed.

Lemma valid_compare_maxVal v :
  validVersion v → Version.compare v Version.maxVal <= 0.
Proof.
  intros [[Ha1 Ha2] [Hb1 Hb2]].
  destruct (compare_cases v Version.maxVal) as [[-> _]|[[-> _]|[_ Hc]]];
    [lia|lia|].
  rename Hc into H.
  unfold Spec.lt in H. cbn in H.
  destruct (Z.ltb_spec Version._VERSION_MAX (major v)),
    (Z.eqb_spec Version._VERSION_MAX (major v)),
    (Z.ltb_spec Version._VERSION_MAX (minor v)); cbn in H; try done; lia.
Qed.

Lemma _versionMajorRangeToString_parse a b :
  0 <= a <= Version._VERSION_MAX → 0 <= b <= Version._VERSION_MAX →
  Version.compare (mkVersion a 0) (mkVersion b Version._VERSION_MAX) <= 0 →
  Version.rangeFromString (Version._versionMajorRangeToString a b)
  = Some (mkVersion a 0, mkVersion b Version._VERSION_MAX).
Proof.
  intros Ha Hb Hle. unfold Version._versionMajorRangeToString.
  pose proof (numberToString_numeral a ltac:(lia)) as HA.
  pose proof (numberToString_numeral b ltac:(lia)) as HB.
  destruct (Z.eqb_spec a b) as [->|Hab].
  { by apply rangeFromString_major. }
  destruct (Z.eqb_spec a 0) as [->|Ha0].
  - destruct (Z.eqb_spec b Version.MAX_MAJOR) as [->|Hbm]; [reflexivity|].
    apply (rangeFromString_upto _ (mkVersion b Version._VERSION_MAX));
      [by eapply numeral_no_dash| |done].
    rewrite (_fromString_numeral b) by done. by apply create_in_range.
  - destruct (Z.eqb_spec b Version.MAX_MAJOR) as [->|Hbm].
    + apply (rangeFromString_from _ (mkVersion a 0));
        [by eapply numeral_no_dash| |done].
      rewrite (_fromString_numeral a) by done.
      apply create_in_range; [done|]. unfold Version._VERSION_MAX. lia.
    + apply rangeFromString_dash; [by eapply numeral_no_dash| | |done].
      * rewrite (_fromString_numeral a) by done.
        apply create_in_range; [done|]. unfold Version._VERSION_MAX. lia.
      * rewrite (_fromString_numeral b) by done. by apply create_in_range.
Qed.

(** Printing a range of valid versions and parsing it again. *)
Lemma rangeToString_parse v w :
  validVersion v → validVersion w → Version.compare v w <= 0 →
  Version.rangeFromString (Version.rangeToString v w) = Some (v, w).
Proof.
  intros Hv Hw Hle. unfold Version.rangeToString.
  destruct (Z.eqb_spec (Version.compare v w) 0) as [Heq|Hne].
  { destruct (compare_cases v w) as [[? _]|[[_ <-]|[? _]]]; [lia| |lia].
    by apply rangeFromString_exact. }
  destruct (Z.eqb_spec (minor v) 0) as [Hv0|Hv0];
    [destruct (Z.eqb_spec (minor w) Version.MAX_MINOR) as [Hwm|Hwm]|];
    cbn [andb].
  { destruct v as [a x], w as [b y]. cbn in Hv0, Hwm. subst x y.
    destruct Hv as [? _], Hw as [? _].
    by apply _versionMajorRangeToString_parse. }
  all: destruct (Z.leb_spec (Version.compare v Version.minVal) 0) as [Hmin|Hmin].
  all: try (rewrite (valid_le_minVal v Hv Hmin);
            apply rangeFromString_upto;
              [by apply toString_no_dash
              |by apply _fromString_toString
              |by apply valid_compare_minVal]).
  all: destruct (Z.geb_spec (Version.compare w Version.maxVal) 0) as [Hmax|Hmax].
  all: try (rewrite (valid_ge_maxVal w Hw ltac:(lia));
            apply rangeFromString_from;
              [by apply toString_no_dash
              |by apply _fromString_toString
              |by apply valid_compare_maxVal]).
  all: apply rangeFromString_dash;
    [by apply toString_no_dash|by apply _fromString_toString
    |by apply _fromString_toString|done].
Qed.

End RangeRoundTrip.

(** C8. For every version range string that [rangeFromString] accepts,
    formatting the parsed pair with [rangeToString] and parsing the
    result again gives the same pair of versions. *)
Theorem rangeFromString_rangeToString_roundtrip (str : jsstring) (v w : Version) :
  Version.rangeFromString str = Some (v, w) →
  Version.rangeFromString (Version.rangeToString v w) = Some (v, w).
Proof.
  intros (Hv & Hw & Hle)%rangeFromString_result.
  by apply rangeToString_parse.
Qed.

Lemma rangeFromString_rangeToString_roundtrip_witness :
  Version.rangeFromString (lit "1.0-2")
    = Some (mkVersion 1 0, mkVersion 2 999999999)
  ∧ Version.rangeFromString
      (Version.rangeToString (mkVersion 1 0) (mkVersion 2 999999999))
    = Some (mkVersion 1 0, mkVersion 2 999999999).
Proof.
  split; [vm_compute; reflexivity|].
  apply (rangeFromString_rangeToString_roundtrip (lit "1.0-2")).
  vm_compute. reflexivity.
Defined.

(** ** CompatData: from support statements to issues *)

Section Derivation.

Context `{ClientCompatCheckerFlags}.

Implicit Types (t : ClientInfo) (s : SupportStatement) (k : IssueKind).

Lemma truthy_present v : JSVal.truthy v = true ↔ present v.
Proof. reflexivity. Qed.

Lemma not_present v : JSVal.truthy v = false ↔ ¬ present v.
Proof. unfold present. destruct (JSVal.truthy v); split; congruence. Qed.

Lemma isTrue_spec v : JSVal.isTrue v = true ↔ v = JBool true.
Proof.
  destruct v as [| |[]| | | |]; cbn; split; congruence.
Qed.

Lemma kind_selected s :
  selects s (CompatData._getIssueKindAndPrefixFromSupportStatement s).1.
Proof.
  unfold CompatData._getIssueKindAndPrefixFromSupportStatement.
  destruct (JSVal.truthy (prefix s)) eqn:Hp;
    [by apply selects_prefix|apply not_present in Hp].
  destruct (JSVal.truthy (alternative_name s)) eqn:Ha;
    [by apply selects_alt_name|apply not_present in Ha].
  destruct (JSVal.truthy (flags s)) eqn:Hf;
    [by apply selects_flag|apply not_present in Hf].
  destruct (JSVal.isTrue (partial_implementation s)) eqn:Hi.
  { apply isTrue_spec in Hi. by apply selects_partial. }
  assert (partial_implementation s ≠ JBool true) as Hi'.
  { intros Heq%isTrue_spec. congruence. }
  destruct (JSVal.truthy (notes s)) eqn:Hn;
    [by apply selects_note|apply not_present in Hn].
  by apply selects_nothing.
Qed.

Lemma selects_unique s ok ok' : selects s ok → selects s ok' → ok = ok'.
Proof. intros [] []; congruence. Qed.

Lemma _shouldDiscard_dropsKind (issue : Issue) flagBits :
  CompatData._shouldDiscardIssueBasedOnFlags issue flagBits
  = dropsKind flagBits (kind issue).
Proof.
  unfold CompatData._shouldDiscardIssueBasedOnFlags, dropsKind.
  destruct (negb (Z.land flagBits IGNORE_NOTES =? 0)),
    (negb (Z.land flagBits IGNORE_PARTIAL_IMPL =? 0)),
    (bool_decide (kind issue = NOTE)),
    (bool_decide (kind issue = IS_PARTIAL_IMPL)); reflexivity.
Qed.

Lemma outside_range t s :
  (Version.compare (maxVersion t) (version_added s) <? 0)
  || (Version.compare (minVersion t) (version_removed s) >=? 0)
  = negb (appliesb t s).
Proof.
  rewrite compare_ltb, compare_geb. unfold appliesb, Spec.ge.
  destruct (Spec.lt (maxVersion t) (version_added s)),
    (Spec.lt (minVersion t) (version_removed s)); reflexivity.
Qed.

Lemma _hasCaveat_spec s : CompatData._hasCaveat s = false ↔ caveatFree s.
Proof.
  unfold CompatData._hasCaveat, caveatFree, present.
  rewrite !orb_false_iff, !not_true_iff_false. tauto.
Qed.

Lemma filter_caveatFree (stmts : list SupportStatement) :
  List.filter (λ x, negb (CompatData._hasCaveat x)) stmts
  = filter caveatFree stmts.
Proof.
  induction stmts as [|s stmts IH]; [reflexivity|].
  cbn [List.filter]. rewrite filter_cons, IH.
  destruct (decide (caveatFree s)) as [Hfree|Hcaveat].
  - by rewrite (proj2 (_hasCaveat_spec s) Hfree).
  - destruct (CompatData._hasCaveat s) eqn:Hc; [done|].
    by apply _hasCaveat_spec in Hc.
Qed.

Lemma _makeNotSupportedIssue_spec typeName propName t :
  CompatData._makeNotSupportedIssue typeName propName t
  = notSupportedIssue typeName propName t.
Proof. by destruct propName. Qed.

Lemma appliesb_spec t s : appliesb t s = true ↔ applies t s.
Proof. unfold appliesb, applies. by rewrite andb_true_iff. Qed.

(** The issue made from one statement: none outside the target range,
    otherwise the selected kind unless the flags drop it. *)
Lemma _makeIssue_cases typeName propName url t flagBits s :
  let r := CompatData._makeIssueFromSupportStatement
             typeName propName url t flagBits s in
  if appliesb t s then
    match (CompatData._getIssueKindAndPrefixFromSupportStatement s).1 with
    | None => r = None
    | Some k =>
        if dropsKind flagBits k then r = None
        else ∃ i, r = Some i ∧ kind i = k
                  ∧ startVersion i = version_added s
                  ∧ endVersion i = version_removed s
    end
  else r = None.
Proof.
  cbn zeta. unfold CompatData._makeIssueFromSupportStatement.
  rewrite outside_range. destruct (appliesb t s); cbn [negb]; [|done].
  destruct (CompatData._getIssueKindAndPrefixFromSupportStatement s)
    as [[k|] alt]; cbn [fst]; [|done].
  rewrite _shouldDiscard_dropsKind. cbn [kind].
  destruct (dropsKind flagBits k); [done|]. eauto 10.
Qed.

Lemma _makeIssue_kind typeName propName url t flagBits s i :
  CompatData._makeIssueFromSupportStatement typeName propName url t flagBits s
  = Some i →
  applies t s ∧ selects s (Some (kind i)) ∧ dropsKind flagBits (kind i) = false.
Proof.
  intros Hi. pose proof (_makeIssue_cases typeName propName url t flagBits s) as Hc.
  cbn zeta in Hc. rewrite Hi in Hc. pose proof (kind_selected s) as Hsel.
  destruct (appliesb t s) eqn:Happ; [|done]. apply appliesb_spec in Happ.
  destruct (CompatData._getIssueKindAndPrefixFromSupportStatement s).1 as [k|];
    [|done].
  destruct (dropsKind flagBits k) eqn:Hd; [done|].
  destruct Hc as (i' & [= <-] & <- & _). done.
Qed.

Lemma dropsKind_existence flagBits k :
  Walker._isSuppressibleKind k = true → dropsKind flagBits k = false.
Proof.
  unfold dropsKind. destruct k; cbn; try done;
    by rewrite !andb_false_r.
Qed.

End Derivation.

(** C4. A support statement that applies to the target produces at most
    one issue (the result is an optional issue), and its kind is the one
    selected by strict priority: NEEDS_PREFIX if a prefix is present,
    else NEEDS_ALT_NAME if an alternative name is present, else
    NEEDS_FLAG if flags are present, else IS_PARTIAL_IMPL if marked
    partial, else NOTE if a note exists, else no issue; the only issues
    withheld are those of a kind the suppression flags drop (NOTE,
    IS_PARTIAL_IMPL).  A statement with both a prefix and a note yields
    one issue, of kind NEEDS_PREFIX and not NOTE. *)
Theorem issue_kind_by_priority `{ClientCompatCheckerFlags}
  (typeName : jsstring) (propName url : option jsstring) (t : ClientInfo)
  (flagBits : Z) (s : SupportStatement) (selected : option IssueKind) :
  applies t s → selects s selected →
  let r := CompatData._makeIssueFromSupportStatement
             typeName propName url t flagBits s in
  match selected with
  | None => r = None
  | Some k =>
      if dropsKind flagBits k then r = None
      else ∃ i, r = Some i ∧ kind i = k
  end
  ∧ (present (prefix s) → present (notes s) →
     ∃ i, r = Some i ∧ kind i = NEEDS_PREFIX ∧ kind i ≠ NOTE).
Proof.
  intros Happ%appliesb_spec Hsel r.
  pose proof (_makeIssue_cases typeName propName url t flagBits s) as Hc.
  cbn zeta in Hc. fold r in Hc. rewrite Happ in Hc.
  pose proof (kind_selected s) as Hsel'.
  rewrite (selects_unique _ _ _ Hsel Hsel'). split.
  - destruct (CompatData._getIssueKindAndPrefixFromSupportStatement s).1 as [k|];
      [|done].
    destruct (dropsKind flagBits k); [done|].
    destruct Hc as (i & ? & ? & _). eauto.
  - intros Hp _.
    rewrite <- (selects_unique _ _ _ (selects_prefix s Hp) Hsel') in Hc.
    rewrite (dropsKind_existence flagBits NEEDS_PREFIX) in Hc by done.
    destruct Hc as (i & ? & Hk & _). exists i. by rewrite Hk.
Qed.

Lemma issue_kind_by_priority_witness :
  let t := ClientInfo.new (lit "a") (lit "Browser A")
             (mkVersion 2 0) (mkVersion 5 0) in
  let s := mkSupportStatement (mkVersion 1 0) Version.infinite
             (JString (lit "webkit")) JUndefined JUndefined JUndefined
             (JString (lit "See the docs.")) in
  ∃ i, @CompatData._makeIssueFromSupportStatement exampleFlags
         (lit "Foo") None None t 0 s = Some i
       ∧ kind i = NEEDS_PREFIX ∧ kind i ≠ NOTE.
Proof.
  intros t s.
  refine (proj2 (@issue_kind_by_priority exampleFlags
                   (lit "Foo") None None t 0 s (Some NEEDS_PREFIX) _ _) _ _).
  - split; vm_compute; reflexivity.
  - apply selects_prefix. vm_compute. reflexivity.
  - vm_compute. reflexivity.
  - vm_compute. reflexivity.
Defined.

Section SingleStatement.

Context `{ClientCompatCheckerFlags}.

Lemma _checkIfSupportedVersion_contained t s :
  CompatData._checkIfSupportedVersion t s false
  = negb (Spec.lt (minVersion t) (version_added s))
    && Spec.lt (maxVersion t) (version_removed s).
Proof.
  unfold CompatData._checkIfSupportedVersion.
  rewrite compare_ltb, compare_geb. unfold Spec.ge.
  destruct (Spec.lt (minVersion t) (version_added s)),
    (Spec.lt (maxVersion t) (version_removed s)); reflexivity.
Qed.

End SingleStatement.

(** C1, as the claim states it, fails: with a feature added in version 3
    and never removed, and the target range 2 to 5, neither
    [t.max < addedAt] nor [t.min >= removedAt] holds, yet the derivation
    emits NOT_SUPPORTED (the target starts before the feature exists). *)
Lemma single_statement_overlap_counterexample :
  let t := ClientInfo.new (lit "a") (lit "Browser A")
             (mkVersion 2 0) (mkVersion 5 0) in
  let s := plainStatement (mkVersion 3 0) Version.infinite in
  let out := @CompatData._getIssuesFromSingleSupportStatement exampleFlags
               t (lit "Foo") (Some (lit "A")) None s 0 [] in
  Spec.ge (maxVersion t) (minVersion t) = true
  ∧ ¬ (NOT_SUPPORTED ∈ map kind out
       ↔ Spec.lt (maxVersion t) (version_added s) = true
         ∨ Spec.ge (minVersion t) (version_removed s) = true).
Proof.
  intros t s out. split; [vm_compute; reflexivity|].
  intros [Hcl _].
  assert (NOT_SUPPORTED ∈ map kind out) as Hin.
  { vm_compute. apply list_elem_of_here. }
  destruct (Hcl Hin) as [Hlt|Hge]; [vm_compute in Hlt|vm_compute in Hge];
    discriminate.
Qed.

(** C1, amended. For a single support statement [s] and a target [t]
    with [t.min <= t.max], the derivation appends exactly the
    NOT_SUPPORTED issue when [t.min < s.addedAt] or
    [t.max >= s.removedAt] (the target range is not contained in the
    support interval); in every other case it appends no NOT_SUPPORTED
    issue and at most one issue, of the kind selected for [s]. *)
Theorem single_statement_derivation `{ClientCompatCheckerFlags}
  (t : ClientInfo) (typeName : jsstring) (propName url : option jsstring)
  (s : SupportStatement) (flagBits : Z) (issues : list Issue) :
  Spec.ge (maxVersion t) (minVersion t) = true →
  let out := CompatData._getIssuesFromSingleSupportStatement
               t typeName propName url s flagBits issues in
  let outside := Spec.lt (minVersion t) (version_added s)
                 || Spec.ge (maxVersion t) (version_removed s) in
  (outside = true →
   out = issues ++ [CompatData._makeNotSupportedIssue typeName propName t])
  ∧ (outside = false →
     ∃ new, out = issues ++ new ∧ (length new ≤ 1)%nat
            ∧ ∀ i, i ∈ new →
                kind i ≠ NOT_SUPPORTED ∧ selects s (Some (kind i)))
  ∧ (NOT_SUPPORTED ∈ map kind (drop (length issues) out) ↔ outside = true).
Proof.
  intros Hrange out outside.
  assert (CompatData._checkIfSupportedVersion t s false = negb outside) as Hsup.
  { rewrite _checkIfSupportedVersion_contained. unfold outside, Spec.ge.
    destruct (Spec.lt (minVersion t) (version_added s)),
      (Spec.lt (maxVersion t) (version_removed s)); reflexivity. }
  assert (outside = true →
          out = issues ++ [CompatData._makeNotSupportedIssue typeName propName t])
    as Hout.
  { intros Ho. unfold out, CompatData._getIssuesFromSingleSupportStatement.
    by rewrite Hsup, Ho. }
  assert (outside = false →
          ∃ new, out = issues ++ new ∧ (length new ≤ 1)%nat
                 ∧ ∀ i, i ∈ new →
                     kind i ≠ NOT_SUPPORTED ∧ selects s (Some (kind i)))
    as Hin.
  { intros Ho. unfold out, CompatData._getIssuesFromSingleSupportStatement.
    rewrite Hsup, Ho. cbn [negb].
    destruct (CompatData._makeIssueFromSupportStatement
                typeName propName url t flagBits s) as [i|] eqn:Hi.
    - exists [i]. split_and!; [done|cbn; lia|].
      intros i' ->%list_elem_of_singleton.
      apply _makeIssue_kind in Hi as (_ & Hsel & _). split; [|done].
      intros Hk. rewrite Hk in Hsel. inversion Hsel.
    - exists []. split_and!; [by rewrite app_nil_r|cbn; lia|].
      intros i' Hi'. by apply elem_of_nil in Hi'. }
  split_and!; [done|done|].
  destruct outside.
  - rewrite Hout by done. rewrite drop_app_length. cbn. split; [done|].
    intros _. apply list_elem_of_here.
  - destruct (Hin eq_refl) as (new & -> & _ & Hnew).
    rewrite drop_app_length. split; [|done].
    intros (i & Hk & Hi)%list_elem_of_fmap. symmetry in Hk.
    by destruct (Hnew i Hi).
Qed.

Lemma single_statement_derivation_witness :
  let t := ClientInfo.new (lit "a") (lit "Browser A")
             (mkVersion 2 0) (mkVersion 5 0) in
  let s := plainStatement (mkVersion 3 0) Version.infinite in
  @CompatData._getIssuesFromSingleSupportStatement exampleFlags
    t (lit "Foo") (Some (lit "A")) None s 0 []
  = [CompatData._makeNotSupportedIssue (lit "Foo") (Some (lit "A")) t].
Proof.
  intros t s.
  refine (proj1 (@single_statement_derivation exampleFlags
                   t (lit "Foo") (Some (lit "A")) None s 0 [] _) _).
  - vm_compute. reflexivity.
  - vm_compute. reflexivity.
Defined.

Section Coverage.

Implicit Types (t : ClientInfo) (s : SupportStatement).

Lemma sweep_step_failed tmin tmax rest :
  foldl (Spec.sweep_step tmin tmax) None rest = None.
Proof. induction rest as [|s rest IH]; [reflexivity|exact IH]. Qed.

Lemma _sweep_fold tmin tmax rest : ∀ lastRemoved,
  CompatData._sweep tmin tmax rest lastRemoved
  = match foldl (Spec.sweep_step tmin tmax) (Some lastRemoved) rest with
    | Some lastRemoved' => Spec.lt tmax lastRemoved'
    | None => false
    end.
Proof.
  induction rest as [|s rest IH]; intros lastRemoved.
  - cbn. apply compare_ltb.
  - cbn [CompatData._sweep foldl]. unfold Spec.sweep_step at 2.
    cbn [mbind option_bind].
    rewrite compare_gtb, compare_ltb, compare_geb, max_vmax.
    destruct (Spec.lt lastRemoved (version_added s)
              && Spec.lt tmin (version_added s)
              && Spec.ge tmax lastRemoved).
    + by rewrite sweep_step_failed.
    + apply IH.
Qed.

Lemma _checkVersionRangeIntersection_covers t s0 rest :
  CompatData._checkVersionRangeIntersection t (s0 :: rest)
  = Spec.covers (minVersion t) (maxVersion t) (s0 :: rest).
Proof.
  unfold CompatData._checkVersionRangeIntersection, Spec.covers.
  rewrite compare_ltb. destruct (Spec.lt (minVersion t) (version_added s0));
    [done|apply _sweep_fold].
Qed.

Lemma _checkIfSupportedVersionArray_covers t stmts :
  stmts ≠ [] →
  CompatData._checkIfSupportedVersionArray t stmts false
  = Spec.covers (minVersion t) (maxVersion t) stmts.
Proof.
  intros Hne. unfold CompatData._checkIfSupportedVersionArray.
  destruct stmts as [|s0 [|s1 rest]]; [done| |].
  - rewrite _checkIfSupportedVersion_contained. unfold Spec.covers. cbn.
    by destruct (Spec.lt (minVersion t) (version_added s0)).
  - apply _checkVersionRangeIntersection_covers.
Qed.

End Coverage.

(** C2. On a non-empty list of support statements the coverage test of
    the code is the sweep of the specification: it fails if
    [t.min < stmts[0].addedAt]; otherwise, with [lastRemoved] starting at
    [stmts[0].removedAt], it fails at the first later statement with
    [addedAt > lastRemoved], [t.min < addedAt] and [t.max >= lastRemoved],
    else takes [lastRemoved := max(lastRemoved, removedAt)], and in the
    end succeeds iff [t.max < lastRemoved].  The entries [2,4),[3,6)
    cover the target 2..5; the entries [2,3),[4,6) do not cover 2..5 but
    cover 4..5 (whatever the minor parts of the target bounds). *)
Theorem coverage_is_sweep :
  (∀ (t : ClientInfo) (stmts : list SupportStatement),
     stmts ≠ [] →
     CompatData._checkIfSupportedVersionArray t stmts false
     = Spec.covers (minVersion t) (maxVersion t) stmts)
  ∧ (∀ (n d : jsstring) (a b : Z), 0 <= a → 0 <= b →
       let overlapping := [plainStatement (mkVersion 2 0) (mkVersion 4 0);
                           plainStatement (mkVersion 3 0) (mkVersion 6 0)] in
       let gapped := [plainStatement (mkVersion 2 0) (mkVersion 3 0);
                      plainStatement (mkVersion 4 0) (mkVersion 6 0)] in
       let t25 := ClientInfo.new n d (mkVersion 2 a) (mkVersion 5 b) in
       let t45 := ClientInfo.new n d (mkVersion 4 a) (mkVersion 5 b) in
       CompatData._checkIfSupportedVersionArray t25 overlapping false = true
       ∧ CompatData._checkIfSupportedVersionArray t25 gapped false = false
       ∧ CompatData._checkIfSupportedVersionArray t45 gapped false = true).
Proof.
  split; [exact _checkIfSupportedVersionArray_covers|].
  intros n d a b Ha Hb overlapping gapped t25 t45.
  rewrite !_checkIfSupportedVersionArray_covers by done.
  unfold Spec.covers, Spec.sweep_step, Spec.lt, Spec.ge, Spec.vmax, Spec.lt.
  cbn.
  destruct (Z.ltb_spec a 0); [lia|]. cbn. done.
Qed.

Lemma coverage_is_sweep_witness :
  let t := ClientInfo.new (lit "a") (lit "Browser A")
             (mkVersion 2 0) (mkVersion 5 999999999) in
  let gapped := [plainStatement (mkVersion 2 0) (mkVersion 3 0);
                 plainStatement (mkVersion 4 0) (mkVersion 6 0)] in
  gapped ≠ []
  ∧ CompatData._checkIfSupportedVersionArray t gapped false
    = Spec.covers (minVersion t) (maxVersion t) gapped
  ∧ CompatData._checkIfSupportedVersionArray t gapped false = false.
Proof.
  intros t gapped. split; [done|]. split.
  - apply (proj1 coverage_is_sweep). done.
  - apply (proj2 coverage_is_sweep (lit "a") (lit "Browser A") 0 999999999);
      lia.
Defined.

Section StatementList.

Context `{ClientCompatCheckerFlags}.

Implicit Types (t : ClientInfo) (s : SupportStatement).

Lemma _pushStatementIssues_omap t typeName propName url flagBits notesOnly stmts :
  ∀ issues,
    CompatData._pushStatementIssues
      t typeName propName url flagBits notesOnly stmts issues
    = issues
      ++ omap (contribution t typeName propName url flagBits notesOnly) stmts.
Proof.
  induction stmts as [|s stmts IH]; intros issues.
  - cbn. by rewrite app_nil_r.
  - cbn [CompatData._pushStatementIssues omap list_omap]. rewrite IH.
    unfold contribution at 2.
    destruct (CompatData._makeIssueFromSupportStatement
                typeName propName url t flagBits s) as [i|];
      cbn [mbind option_bind]; [|done].
    destruct (notesOnly && negb (bool_decide (kind i = NOTE))); [done|].
    by rewrite <- app_assoc.
Qed.

Lemma omap_filter_applies t typeName propName url flagBits stmts :
  omap (CompatData._makeIssueFromSupportStatement
          typeName propName url t flagBits) stmts
  = omap (CompatData._makeIssueFromSupportStatement
            typeName propName url t flagBits)
      (List.filter (appliesb t) stmts).
Proof.
  induction stmts as [|s stmts IH]; [reflexivity|].
  cbn [List.filter omap list_omap].
  destruct (appliesb t s) eqn:Happ.
  - cbn [omap list_omap]. by rewrite IH.
  - pose proof (_makeIssue_cases typeName propName url t flagBits s) as Hc.
    cbn zeta in Hc. rewrite Happ in Hc. by rewrite Hc.
Qed.

Lemma contribution_all t typeName propName url flagBits s :
  contribution t typeName propName url flagBits false s
  = CompatData._makeIssueFromSupportStatement
      typeName propName url t flagBits s.
Proof.
  unfold contribution.
  by destruct (CompatData._makeIssueFromSupportStatement
                 typeName propName url t flagBits s).
Qed.

Lemma contribution_notes t typeName propName url flagBits stmts :
  Forall (λ i, kind i = NOTE)
    (omap (contribution t typeName propName url flagBits true) stmts).
Proof.
  induction stmts as [|s stmts IH]; [constructor|].
  cbn [omap list_omap]. unfold contribution at 1.
  destruct (CompatData._makeIssueFromSupportStatement
              typeName propName url t flagBits s) as [i|];
    cbn [mbind option_bind]; [|done].
  cbn [andb]. case_bool_decide; cbn [negb]; [|done].
  by constructor.
Qed.

End StatementList.

(** C3. For a feature whose support for a client is a statement list:
    if the coverage test fails on the raw list, exactly the
    NOT_SUPPORTED issue is appended; if it succeeds and the coverage
    test on the sublist of caveat-free statements (no prefix,
    alternative name, flags or partial marker) succeeds too, every
    appended issue has kind NOTE; if the filtered coverage fails, the
    appended issues are, in order, those of the statements whose
    interval meets the target ([t.max >= addedAt] and
    [t.min < removedAt]), each giving the issue made from it (of the
    kind selected by priority, C4), the statements that give no issue
    being skipped. *)
Theorem statement_list_derivation `{ClientCompatCheckerFlags}
  (t : ClientInfo) (typeName : jsstring) (propName url : option jsstring)
  (stmts : list SupportStatement) (flagBits : Z) (issues : list Issue) :
  let out := CompatData._getIssuesFromArraySupportStatement
               t typeName propName url stmts flagBits issues in
  let raw := CompatData._checkIfSupportedVersionArray t stmts false in
  let clean :=
    CompatData._checkIfSupportedVersionArray t
      (filter caveatFree stmts) false in
  (raw = false → out = issues ++ [notSupportedIssue typeName propName t])
  ∧ (raw = true → clean = true →
     ∃ new, out = issues ++ new ∧ Forall (λ i, kind i = NOTE) new)
  ∧ (raw = true → clean = false →
     out = issues
           ++ omap (CompatData._makeIssueFromSupportStatement
                      typeName propName url t flagBits)
                (List.filter (appliesb t) stmts)
     ∧ (∀ i, i ∈ drop (length issues) out →
          ∃ s, s ∈ stmts ∧ applies t s ∧ selects s (Some (kind i)))
     ∧ (∀ s k, s ∈ stmts → applies t s → selects s (Some k) →
          dropsKind flagBits k = false →
          ∃ i, i ∈ drop (length issues) out ∧ kind i = k
               ∧ startVersion i = version_added s
               ∧ endVersion i = version_removed s)).
Proof.
  intros out raw clean.
  assert (CompatData._checkIfSupportedVersionArray t stmts true = clean)
    as Hclean.
  { unfold clean. rewrite <- filter_caveatFree. reflexivity. }
  unfold out, CompatData._getIssuesFromArraySupportStatement.
  fold raw. rewrite Hclean, _pushStatementIssues_omap. split_and!.
  - intros ->. cbn [negb]. by rewrite _makeNotSupportedIssue_spec.
  - intros -> ->. cbn [negb]. eexists. split; [done|].
    apply contribution_notes.
  - intros -> ->. cbn [negb].
    assert (omap (contribution t typeName propName url flagBits false) stmts
            = omap (CompatData._makeIssueFromSupportStatement
                      typeName propName url t flagBits)
                (List.filter (appliesb t) stmts)) as ->.
    { rewrite <- omap_filter_applies. apply list_omap_ext.
      intros. apply Forall2_same_length_lookup_2; [done|].
      intros ??? Hx Hy. rewrite Hx in Hy. injection Hy as <-.
      apply contribution_all. }
    split; [done|]. rewrite drop_app_length. split.
    + intros i (s & Hs & Hi)%list_elem_of_omap.
      apply list_elem_of_In, filter_In in Hs as [Hs _].
      apply _makeIssue_kind in Hi as (? & ? & _).
      exists s. by rewrite list_elem_of_In.
    + intros s k Hs Happ Hsel Hkeep.
      pose proof (_makeIssue_cases typeName propName url t flagBits s) as Hc.
      cbn zeta in Hc. rewrite (proj2 (appliesb_spec t s) Happ) in Hc.
      rewrite <- (selects_unique _ _ _ Hsel (kind_selected s)), Hkeep in Hc.
      destruct Hc as (i & Hi & Hk & Hstart & Hend). exists i.
      split_and!; try done.
      apply list_elem_of_omap. exists s. split; [|done].
      apply list_elem_of_In, filter_In. split; [by apply list_elem_of_In|].
      by apply appliesb_spec.
Qed.

Lemma statement_list_derivation_witness :
  let target a b := ClientInfo.new (lit "a") (lit "Browser A")
                      (mkVersion a 0) (mkVersion b 0) in
  let derived t stmts :=
    @CompatData._getIssuesFromArraySupportStatement exampleFlags
      t (lit "Foo") None None stmts 0 [] in
  let gapped := [plainStatement (mkVersion 2 0) (mkVersion 3 0);
                 plainStatement (mkVersion 4 0) (mkVersion 6 0)] in
  derived (target 2 5) gapped = [notSupportedIssue (lit "Foo") None (target 2 5)]
  ∧ map kind (derived (target 14 15) testFoo) = [NOTE]
  ∧ map kind (derived (target 6 12) testFoo) = [NEEDS_FLAG; NOTE].
Proof.
  intros target derived gapped. split_and!.
  - refine (proj1 (@statement_list_derivation exampleFlags
                     (target 2 5) (lit "Foo") None None gapped 0 []) _).
    vm_compute. reflexivity.
  - destruct (proj1 (proj2 (@statement_list_derivation exampleFlags
                              (target 14 15) (lit "Foo") None None testFoo 0 []))
                eq_refl eq_refl) as (new & Hout & Hnotes).
    unfold derived. rewrite Hout. cbn [app].
    assert (length new = 1%nat) as Hlen
        by (apply (f_equal length) in Hout; exact (eq_sym Hout)).
    destruct new as [|i [|j new]]; try discriminate Hlen.
    apply Forall_inv in Hnotes. cbn [map]. by rewrite Hnotes.
  - destruct (proj2 (proj2 (@statement_list_derivation exampleFlags
                              (target 6 12) (lit "Foo") None None testFoo 0 []))
                eq_refl eq_refl) as (Hout & _).
    unfold derived. rewrite Hout. vm_compute. reflexivity.
Defined.

(** C10. For the client named [constructor], a name that
    [getDisplayName] accepts because it is [in] every plain object, and a
    feature whose [support] object has an entry for another client only,
    [support[clientInfo.name]] is the inherited member and not
    [undefined]: the derivation ends in a TypeError and appends no
    NOT_SUPPORTED issue for the client. *)
Theorem missing_client_inherited_name_throws :
  let t := ClientInfo.new (lit "constructor") (lit "Object")
             (mkVersion 1 0) Version.maxVal in
  let compatStatement :=
    mkCompatStatement
      {[ lit "a" := SingleSupport (plainStatement Version.minVal Version.infinite) ]}
      JUndefined in
  support compatStatement !! name t = None
  ∧ JSObject.has (support compatStatement) (name t) = true
  ∧ @CompatData._getIssuesFromCompatStatement exampleFlags
      t (lit "Foo") None (Some compatStatement) 0 [] = None.
Proof.
  intros t compatStatement. split_and!; vm_compute; reflexivity.
Qed.

(** ** The issue index *)

Section IssueIndex.

Implicit Types (l : ClientCompatIssueList) (issues : list Issue).

Lemma getIssuesForGlobal_miss l name issues :
  m_global l !! name = None →
  ClientCompatIssueList.getIssuesForGlobal l name issues = issues.
Proof.
  intros Hmiss. unfold ClientCompatIssueList.getIssuesForGlobal.
  by rewrite Hmiss.
Qed.

Lemma getIssuesForPropertyOrEvent_miss l typeName propName isEvent issues :
  storedForMember l typeName propName isEvent = None →
  ClientCompatIssueList.getIssuesForPropertyOrEvent
    l typeName propName isEvent issues = issues.
Proof.
  unfold storedForMember, ClientCompatIssueList.getIssuesForPropertyOrEvent.
  destruct ((if isEvent then m_events l else m_properties l) !! typeName)
    as [typeDict|]; cbn [mbind option_bind]; [|done].
  by intros ->.
Qed.

Lemma _collect_unchanged get (lists : list ClientCompatIssueList) issues :
  Forall (λ l, get l issues = issues) lists →
  ClientCompatChecker._collect get lists issues = issues.
Proof.
  unfold ClientCompatChecker._collect.
  induction 1 as [|l lists Hl _ IH]; [reflexivity|].
  cbn [foldl]. by rewrite Hl.
Qed.

(** Storing an empty array stores nothing. *)
Lemma setIssuesForGlobal_empty l name :
  ClientCompatIssueList.setIssuesForGlobal l name [] = l.
Proof. reflexivity. Qed.

Lemma setIssuesForPropertyOrEvent_empty l typeName propName isEvent :
  ClientCompatIssueList.setIssuesForPropertyOrEvent
    l typeName propName isEvent [] = l.
Proof. reflexivity. Qed.

End IssueIndex.

(** C9. For a feature name, or a (type, member, isEvent) triple, under
    which no issues are stored, the lookups of the issue index return
    the caller's array as it was (the functions are total: nothing is
    thrown), and [checkGlobal] / [checkPropertyOrEvent] of a checker
    none of whose issue lists stores anything under the key return
    [false] and leave the array unchanged. *)
Theorem lookup_miss_is_empty (issues : list Issue) :
  (∀ (l : ClientCompatIssueList) (name : jsstring),
     m_global l !! name = None →
     ClientCompatIssueList.getIssuesForGlobal l name issues = issues)
  ∧ (∀ (l : ClientCompatIssueList) (typeName propName : jsstring)
       (isEvent : bool),
       storedForMember l typeName propName isEvent = None →
       ClientCompatIssueList.getIssuesForPropertyOrEvent
         l typeName propName isEvent issues = issues)
  ∧ (∀ (c : ClientCompatChecker) (name : jsstring),
       Forall (λ l, m_global l !! name = None) (m_clientIssueLists c) →
       ClientCompatChecker.checkGlobal c name issues = (false, issues))
  ∧ (∀ (c : ClientCompatChecker) (typeName propName : jsstring)
       (isEvent : bool),
       Forall (λ l, storedForMember l typeName propName isEvent = None)
         (m_clientIssueLists c) →
       ClientCompatChecker.checkPropertyOrEvent
         c typeName propName isEvent issues = (false, issues)).
Proof.
  split_and!.
  - intros. by apply getIssuesForGlobal_miss.
  - intros. by apply getIssuesForPropertyOrEvent_miss.
  - intros c name Hmiss. unfold ClientCompatChecker.checkGlobal.
    rewrite _collect_unchanged.
    + by rewrite Nat.eqb_refl.
    + eapply Forall_impl; [exact Hmiss|].
      intros l Hl. by apply getIssuesForGlobal_miss.
  - intros c typeName propName isEvent Hmiss.
    unfold ClientCompatChecker.checkPropertyOrEvent.
    rewrite _collect_unchanged.
    + by rewrite Nat.eqb_refl.
    + eapply Forall_impl; [exact Hmiss|].
      intros l Hl. by apply getIssuesForPropertyOrEvent_miss.
Qed.

Lemma lookup_miss_is_empty_witness :
  let t := ClientInfo.new (lit "a") (lit "Browser A")
             Version.minVal Version.maxVal in
  let i := Issue.new3 (lit "Foo") t NOT_SUPPORTED in
  let l := ClientCompatIssueList.setIssuesForGlobal
             ClientCompatIssueList.new (lit "Foo") [i] in
  let c := mkClientCompatChecker [l; ClientCompatIssueList.new] ∅ in
  ClientCompatChecker.checkGlobal c (lit "Bar") [i] = (false, [i])
  ∧ ClientCompatChecker.checkPropertyOrEvent c (lit "Foo") (lit "x") true [i]
    = (false, [i]).
Proof.
  intros t i l c.
  destruct (lookup_miss_is_empty [i]) as (_ & _ & Hglobal & Hmember). split.
  - apply Hglobal. repeat constructor; vm_compute; reflexivity.
  - apply Hmember. repeat constructor; vm_compute; reflexivity.
Defined.

(** ** The guard stack *)

Section GuardStack.

Implicit Types (issues : list Issue) (stack : list Symbol).

Lemma _canIssuesBeSuppressedByGuards_spec issues :
  Walker._canIssuesBeSuppressedByGuards issues = true
  ↔ ∃ i, i ∈ issues ∧ Walker._isSuppressibleKind (kind i) = true.
Proof.
  induction issues as [|i issues IH]; cbn [Walker._canIssuesBeSuppressedByGuards].
  - split; [done|]. intros (i & Hi & _). by apply elem_of_nil in Hi.
  - destruct (Walker._isSuppressibleKind (kind i)) eqn:Hk.
    + split; [|done]. intros _. exists i. split; [apply list_elem_of_here|done].
    + rewrite IH. split.
      * intros (j & Hj & Hkj). exists j. split; [by apply list_elem_of_further|done].
      * intros (j & [->|Hj]%elem_of_cons & Hkj); [congruence|eauto].
Qed.

Lemma _scanGuardStack_spec decl (fromTop : list Symbol) :
  Walker._scanGuardStack decl fromTop = true
  ↔ ∃ entry, entry ∈ fromTop ∧ valueDeclaration entry = decl.
Proof.
  induction fromTop as [|e fromTop IH]; cbn [Walker._scanGuardStack].
  - split; [done|]. intros (e & He & _). by apply elem_of_nil in He.
  - case_bool_decide as Heq.
    + split; [|done]. intros _. exists e. split; [apply list_elem_of_here|done].
    + rewrite IH. split.
      * intros (e' & He' & Hd). exists e'. split; [by apply list_elem_of_further|done].
      * intros (e' & [->|He']%elem_of_cons & Hd); [congruence|eauto].
Qed.

Lemma elem_of_rev_stack (entry : Symbol) stack :
  entry ∈ rev stack ↔ entry ∈ stack.
Proof. by rewrite !list_elem_of_In, <- in_rev. Qed.

Lemma _isSuppressibleKind_spec k :
  Walker._isSuppressibleKind k = true
  ↔ k = NOT_SUPPORTED ∨ k = NEEDS_PREFIX ∨ k = NEEDS_ALT_NAME ∨ k = NEEDS_FLAG.
Proof.
  destruct k; cbn; split; try done; auto 6;
    try (intros [?|[?|[?|?]]]; discriminate).
Qed.

End GuardStack.

(** C7. If no issue of the candidate list has kind NOT_SUPPORTED,
    NEEDS_PREFIX, NEEDS_ALT_NAME or NEEDS_FLAG, the list is not
    suppressed; otherwise it is suppressed exactly when some entry of
    the guard stack (scanned from the most recent entry down) has the same
    [valueDeclaration] as the candidate symbol.  The issues handed on
    for reporting are then none or the whole list, never a part of it. *)
Theorem suppression_by_guard_stack
  (stack : list Symbol) (issues : list Issue) (symbol : Symbol) :
  ((∀ i, i ∈ issues →
      kind i ≠ NOT_SUPPORTED ∧ kind i ≠ NEEDS_PREFIX
      ∧ kind i ≠ NEEDS_ALT_NAME ∧ kind i ≠ NEEDS_FLAG) →
   Walker._checkEnclosingGuards stack issues symbol = false)
  ∧ ((∃ i, i ∈ issues ∧
        (kind i = NOT_SUPPORTED ∨ kind i = NEEDS_PREFIX
         ∨ kind i = NEEDS_ALT_NAME ∨ kind i = NEEDS_FLAG)) →
     (Walker._checkEnclosingGuards stack issues symbol = true
      ↔ ∃ entry, entry ∈ stack
                 ∧ valueDeclaration entry = valueDeclaration symbol))
  ∧ Walker._checkEnclosingGuards stack issues symbol
    = (Walker._canIssuesBeSuppressedByGuards issues
       && Walker._scanGuardStack (valueDeclaration symbol) (rev stack))
  ∧ (Walker._checkPropertyOrEvent_reported stack issues (Some symbol)
     = if Walker._checkEnclosingGuards stack issues symbol then [] else issues).
Proof.
  assert (Walker._checkEnclosingGuards stack issues symbol
          = (Walker._canIssuesBeSuppressedByGuards issues
             && Walker._scanGuardStack (valueDeclaration symbol) (rev stack)))
    as Hdef.
  { unfold Walker._checkEnclosingGuards.
    by destruct (Walker._canIssuesBeSuppressedByGuards issues). }
  split_and!; [| |done|].
  - intros Hnone. rewrite Hdef.
    destruct (Walker._canIssuesBeSuppressedByGuards issues) eqn:Hcan; [|done].
    apply _canIssuesBeSuppressedByGuards_spec in Hcan as (i & Hi & Hk).
    apply _isSuppressibleKind_spec in Hk.
    destruct (Hnone i Hi) as (? & ? & ? & ?). intuition congruence.
  - intros (i & Hi & Hk). rewrite Hdef.
    assert (Walker._canIssuesBeSuppressedByGuards issues = true) as ->.
    { apply _canIssuesBeSuppressedByGuards_spec. exists i.
      by rewrite _isSuppressibleKind_spec. }
    cbn [andb]. rewrite _scanGuardStack_spec.
    by setoid_rewrite elem_of_rev_stack.
  - unfold Walker._checkPropertyOrEvent_reported.
    destruct issues as [|i issues]; [|done]. cbn.
    by destruct (Walker._scanGuardStack _ _).
Qed.

Lemma suppression_by_guard_stack_witness :
  let t := ClientInfo.new (lit "a") (lit "Browser A")
             Version.minVal Version.maxVal in
  let issues := [Issue.new3 (lit "Foo") t NOTE;
                 Issue.new3 (lit "Foo") t NOT_SUPPORTED] in
  let foo := mkSymbol (lit "Foo") (Some (DeclarationNode 7)) in
  let bar := mkSymbol (lit "Bar") (Some (DeclarationNode 9)) in
  Walker._checkEnclosingGuards [foo; bar] issues foo = true
  ∧ Walker._checkEnclosingGuards [foo; bar]
      [Issue.new3 (lit "Foo") t NOTE] foo = false.
Proof.
  intros t issues foo bar. split.
  - destruct (suppression_by_guard_stack [foo; bar] issues foo)
      as (_ & Hsome & _).
    apply Hsome.
    + exists (Issue.new3 (lit "Foo") t NOT_SUPPORTED).
      split; [apply list_elem_of_further, list_elem_of_here|by left].
    + exists foo. split; [apply list_elem_of_here|done].
  - destruct (suppression_by_guard_stack [foo; bar]
                [Issue.new3 (lit "Foo") t NOTE] foo) as (Hnone & _).
    apply Hnone. intros i ->%list_elem_of_singleton. cbn. done.
Defined.

(** ** Guard expressions *)

Section Guards.

Context `{TypeChecker}.

Implicit Types (e l r x : Expression) (st : CheckerState).

Import GuardExprChecker.

(** [evaluate] resets every field before reading any. *)
Lemma evaluate_any_state e required st st' :
  evaluate e required st = evaluate e required st'.
Proof. reflexivity. Qed.

Lemma _unwrapNegations_loop_parity e : ∀ b,
  _unwrapNegations_loop e b
  = ((_unwrapNegations_loop e false).1,
     xorb b (_unwrapNegations_loop e false).2).
Proof.
  induction e as [e IH|o e IH| | | | | | | |]; intros b;
    try (cbn; by rewrite xorb_false_r).
  - cbn [_unwrapNegations_loop]. apply IH.
  - destruct o; [|cbn; by rewrite xorb_false_r].
    cbn [_unwrapNegations_loop]. rewrite (IH (negb b)), (IH (negb false)).
    cbn [fst snd]. f_equal.
    by destruct b, (_unwrapNegations_loop e false).2.
Qed.

Lemma _unwrapNegations_not e :
  _unwrapNegations (PrefixUnaryExpression ExclamationToken e)
  = ((_unwrapNegations e).1, negb (_unwrapNegations e).2).
Proof.
  unfold _unwrapNegations. cbn [_unwrapNegations_loop].
  rewrite _unwrapNegations_loop_parity. cbn [negb xorb]. done.
Qed.

Lemma _unwrapNegations_paren e :
  _unwrapNegations (ParenthesizedExpression e) = _unwrapNegations e.
Proof. reflexivity. Qed.

(** Without a required polarity, one more leading [!] flips the
    polarity of the guard and changes nothing else. *)
Lemma evaluate_not e st :
  (evaluate (PrefixUnaryExpression ExclamationToken e) None st).1
  = let g := (evaluate e None st).1 in
    mkGuardExpression (operand g) (guardedSymbol g) (negb (isNegated g)).
Proof.
  unfold evaluate. rewrite _unwrapNegations_not.
  destruct (_unwrapNegations e) as [inner n]. cbn [fst snd].
  set (stb := if _isBinaryExpression inner
              then _evaluateBinaryExpression
                     (mkCheckerState (Some inner) None None false false)
              else mkCheckerState (Some inner) None None false false).
  destruct stb as [o po pn ty ng].
  destruct n; cbn [negb m_operand m_propertyObj m_propertyName m_isTypeof
                     m_isNegative];
    rewrite !bool_decide_eq_false_2 by done;
    destruct pn, (default inner o); cbn; by rewrite ?negb_involutive.
Qed.

(** A required polarity only decides whether the identity is kept. *)
Lemma evaluate_required e required st :
  let g := (evaluate e (Some required) st).1 in
  let g0 := (evaluate e None st).1 in
  operand g = operand g0 ∧ isNegated g = isNegated g0
  ∧ (required = isNegated g0 → guardedSymbol g = None)
  ∧ (required ≠ isNegated g0 → guardedSymbol g = guardedSymbol g0).
Proof.
  unfold evaluate. destruct (_unwrapNegations e) as [inner n].
  set (stb := if _isBinaryExpression inner
              then _evaluateBinaryExpression
                     (mkCheckerState (Some inner) None None false false)
              else mkCheckerState (Some inner) None None false false).
  set (stn := if n then _ else stb).
  rewrite (bool_decide_eq_false_2 (None = Some (m_isNegative stn))) by done.
  set (stp := match m_propertyName stn with
              | Some _ => stn
              | None => _
              end).
  assert (m_isNegative stp = m_isNegative stn) as Hpol.
  { unfold stp.
    by destruct (m_propertyName stn), (default inner (m_operand stn)). }
  case_bool_decide as Hreq; cbn [fst operand isNegated guardedSymbol];
    rewrite ?Hpol; split_and!; try done; intros; congruence.
Qed.

Lemma _evaluateChainOperands_leaves op e : ∀ guardExprs st,
  (_evaluateChainOperands e op guardExprs st).1
  = guardExprs
    ++ map (λ leaf,
              (evaluate leaf (Some (bool_decide (op = AmpersandAmpersandToken)))
                 st).1)
         (chainLeaves op e).
Proof.
  induction e as [e IH|o e IH|l IHl op' r IHr| | | | | | |];
    intros guardExprs st;
    try (cbn [_evaluateChainOperands chainLeaves map];
         by destruct (evaluate _ _ st)).
  - cbn [_evaluateChainOperands chainLeaves]. apply IH.
  - cbn [_evaluateChainOperands chainLeaves].
    destruct (decide (op' = op)) as [Hop|Hop];
      [rewrite !(bool_decide_eq_true_2 (op' = op)) by done
      |rewrite !(bool_decide_eq_false_2 (op' = op)) by done].
    + specialize (IHl guardExprs st).
      destruct (_evaluateChainOperands l op guardExprs st) as [g1 st1].
      cbn [fst] in IHl. cbv beta iota.
      rewrite IHr, IHl, map_app, <- app_assoc. do 2 f_equal.
    + cbn [map]. by destruct (evaluate _ _ st).
Qed.

Lemma chainLeaves_are_leaves op e : Forall (isLeaf op) (chainLeaves op e).
Proof.
  induction e as [e IH|o e IH|l IHl op' r IHr| | | | | | |];
    try (by repeat constructor).
  cbn [chainLeaves]. case_bool_decide as Hop.
  - by apply Forall_app.
  - by repeat constructor.
Qed.

Lemma _evaluateEqualityExpression_typeof l r x text isNotEquals isStrict st :
  typeofComparison l r x text →
  _evaluateEqualityExpression
    (_unwrapParentheses l) (_unwrapParentheses r) isNotEquals isStrict st
  = _evaluateTypeofCheckExpression x text isNotEquals st.
Proof.
  intros [[-> ->]|[-> ->]]; unfold _evaluateEqualityExpression; cbn;
    by rewrite andb_false_r.
Qed.

Lemma _evaluateBinaryExpression_typeof l op r x text :
  typeofComparison l r x text → isEqualityOperator op →
  _evaluateBinaryExpression
    (mkCheckerState (Some (BinaryExpression l op r)) None None false false)
  = _evaluateTypeofCheckExpression x text (_isNegativeEqualityOperator op)
      (mkCheckerState (Some (BinaryExpression l op r)) None None false false).
Proof.
  intros Hshape Hop. unfold _evaluateBinaryExpression. cbn [m_operand].
  destruct Hop as [-> | [-> | [-> | ->]]]; cbv beta iota;
    match goal with
    | |- (if ?c then _ else _) = _ => change c with true
    end; cbv beta iota; by apply _evaluateEqualityExpression_typeof.
Qed.

(** The guard made from the fields left by a recognised [typeof] test. *)
Lemma evaluate_typeof_fields e l op r x neg ng st :
  _unwrapNegations e = (BinaryExpression l op r, neg) →
  _evaluateBinaryExpression
    (mkCheckerState (Some (BinaryExpression l op r)) None None false false)
  = mkCheckerState (Some (_unwrapParentheses x)) None None true ng →
  (evaluate e None st).1 = guardOn x (xorb neg ng).
Proof.
  intros Hneg Hfields. unfold evaluate. rewrite Hneg.
  cbn [_isBinaryExpression]. rewrite Hfields.
  destruct neg;
    cbn [negb xorb m_operand m_isTypeof m_isNegative m_propertyObj
           m_propertyName default];
    rewrite !bool_decide_eq_false_2 by done;
    unfold guardOn, operandSymbol, _tryResolveSymbol;
    destruct (_unwrapParentheses x); reflexivity.
Qed.

(** The guard made when the binary expression is not recognised. *)
Lemma evaluate_unrecognised e l op r neg st :
  _unwrapNegations e = (BinaryExpression l op r, neg) →
  _evaluateBinaryExpression
    (mkCheckerState (Some (BinaryExpression l op r)) None None false false)
  = mkCheckerState (Some (BinaryExpression l op r)) None None false false →
  (evaluate e None st).1
  = mkGuardExpression (BinaryExpression l op r) None neg.
Proof.
  intros Hneg Hfields. unfold evaluate. rewrite Hneg.
  cbn [_isBinaryExpression]. rewrite Hfields.
  destruct neg;
    cbn [negb m_operand m_isTypeof m_isNegative m_propertyObj
           m_propertyName default];
    rewrite !bool_decide_eq_false_2 by done; reflexivity.
Qed.

End Guards.

(** C5. Let [e] be, under any number of parentheses and leading [!]
    ([neg] telling whether their number is odd), a comparison of
    [typeof x] with a string literal [text], in either order.  With
    [===] or [==] and [text = "undefined"] the result of [evaluate] is
    the negative guard on [x]; with [!==] or [!=] it is the positive
    guard on [x]; with [===] or [==] and another literal it is the
    positive guard on [x]; with [!==] or [!=] and another literal the
    operand is the whole comparison and no identity is resolved.  Each
    polarity is flipped when [neg] holds, and one more leading [!] flips
    the polarity of the result. *)
Theorem typeof_comparison_guards `{TypeChecker}
  (e l r x : Expression) (op : BinaryOperator) (text : jsstring)
  (neg : bool) (st : CheckerState) :
  GuardExprChecker._unwrapNegations e = (BinaryExpression l op r, neg) →
  typeofComparison l r x text →
  let g := (GuardExprChecker.evaluate e None st).1 in
  let equals := op = EqualsEqualsEqualsToken ∨ op = EqualsEqualsToken in
  let differs :=
    op = ExclamationEqualsEqualsToken ∨ op = ExclamationEqualsToken in
  (text = lit "undefined" → equals → g = guardOn x (negb neg))
  ∧ (text = lit "undefined" → differs → g = guardOn x neg)
  ∧ (text ≠ lit "undefined" → equals → g = guardOn x neg)
  ∧ (text ≠ lit "undefined" → differs →
     g = mkGuardExpression (BinaryExpression l op r) None neg)
  ∧ (GuardExprChecker.evaluate
       (PrefixUnaryExpression ExclamationToken e) None st).1
    = mkGuardExpression (operand g) (guardedSymbol g) (negb (isNegated g)).
Proof.
  intros Hneg Hshape g equals differs.
  assert (isEqualityOperator op →
          GuardExprChecker._evaluateBinaryExpression
            (mkCheckerState (Some (BinaryExpression l op r)) None None
               false false)
          = GuardExprChecker._evaluateTypeofCheckExpression x text
              (GuardExprChecker._isNegativeEqualityOperator op)
              (mkCheckerState (Some (BinaryExpression l op r)) None None
                 false false)) as Hbin
      by (by apply _evaluateBinaryExpression_typeof).
  unfold GuardExprChecker._evaluateTypeofCheckExpression in Hbin.
  cbn [m_propertyObj m_propertyName] in Hbin.
  split_and!.
  - intros Hu Hop. rewrite (bool_decide_eq_true_2 _ Hu) in Hbin.
    replace (negb neg) with (xorb neg true) by (by destruct neg).
    apply (evaluate_typeof_fields e l op r); [done|].
    rewrite Hbin by (unfold isEqualityOperator, equals, differs in *; tauto).
    by destruct Hop as [-> | ->].
  - intros Hu Hop. rewrite (bool_decide_eq_true_2 _ Hu) in Hbin.
    replace neg with (xorb neg false) at 1 by (by destruct neg).
    apply (evaluate_typeof_fields e l op r); [done|].
    rewrite Hbin by (unfold isEqualityOperator, equals, differs in *; tauto).
    by destruct Hop as [-> | ->].
  - intros Hu Hop. rewrite (bool_decide_eq_false_2 _ Hu) in Hbin.
    replace neg with (xorb neg false) at 1 by (by destruct neg).
    apply (evaluate_typeof_fields e l op r); [done|].
    rewrite Hbin by (unfold isEqualityOperator, equals, differs in *; tauto).
    by destruct Hop as [-> | ->].
  - intros Hu Hop. rewrite (bool_decide_eq_false_2 _ Hu) in Hbin.
    apply evaluate_unrecognised; [done|].
    rewrite Hbin by (unfold isEqualityOperator, equals, differs in *; tauto).
    by destruct Hop as [-> | ->].
  - apply evaluate_not.
Qed.

Lemma typeof_comparison_guards_witness :
  let checker : TypeChecker :=
    {| TsType := unit;
       getTypeAtLocation := λ _, tt;
       getApparentType := λ ty, ty;
       getPropertyOfType := λ _ _, None;
       getSymbolAtLocation :=
         λ _, Some (mkSymbol (lit "A") (Some (DeclarationNode 1))) |} in
  let a := Identifier (lit "A") in
  let e := PrefixUnaryExpression ExclamationToken
             (ParenthesizedExpression
                (BinaryExpression
                   (TypeOfExpression (ParenthesizedExpression a))
                   EqualsEqualsEqualsToken
                   (StringLiteral (lit "undefined")))) in
  (@GuardExprChecker.evaluate checker e None GuardExprChecker.initial).1
  = mkGuardExpression a
      (Some (mkSymbol (lit "A") (Some (DeclarationNode 1)))) false.
Proof.
  intros checker a e.
  refine (proj1 (@typeof_comparison_guards checker e
                   (TypeOfExpression (ParenthesizedExpression a))
                   (StringLiteral (lit "undefined"))
                   (ParenthesizedExpression a)
                   EqualsEqualsEqualsToken (lit "undefined") true
                   GuardExprChecker.initial _ _) _ _).
  - reflexivity.
  - left. split; reflexivity.
  - reflexivity.
  - by left.
Defined.

(** C6. When [e] is, under parentheses and leading [!], a binary
    expression with [&&] or [||], [evaluateChain] returns the chain of
    the guards of its leaves, where only the contiguous uses of that
    same operator are taken apart: a leaf is never an expression with
    the chain's operator, and a parenthesised expression with the other
    operator is one leaf.  Every leaf of an AND chain is evaluated with
    required polarity positive ([true]), every leaf of an OR chain with
    required polarity negative ([false]).  A required polarity changes
    neither the operand nor the polarity that [evaluate] reports; it
    discards the identity exactly when the resolved polarity does not
    match it. *)
Theorem chain_flattening `{TypeChecker}
  (e l r : Expression) (op : BinaryOperator) (neg : bool) (st : CheckerState) :
  GuardExprChecker._unwrapNegations e = (BinaryExpression l op r, neg) →
  ((op = AmpersandAmpersandToken →
    (GuardExprChecker.evaluateChain e st).1
    = IsGuardExprChain
        (mkGuardExprChain
           (map (λ leaf, (GuardExprChecker.evaluate leaf (Some true) st).1)
              (chainLeaves AmpersandAmpersandToken (BinaryExpression l op r)))
           AmpersandAmpersandToken neg))
   ∧ (op = BarBarToken →
      (GuardExprChecker.evaluateChain e st).1
      = IsGuardExprChain
          (mkGuardExprChain
             (map (λ leaf, (GuardExprChecker.evaluate leaf (Some false) st).1)
                (chainLeaves BarBarToken (BinaryExpression l op r)))
             BarBarToken neg)))
  ∧ (∀ chainOp x, Forall (isLeaf chainOp) (chainLeaves chainOp x))
  ∧ (∀ chainOp otherOp a b,
       otherOp ≠ chainOp →
       chainLeaves chainOp
         (ParenthesizedExpression (BinaryExpression a otherOp b))
       = [BinaryExpression a otherOp b])
  ∧ (∀ x required st',
       let g := (GuardExprChecker.evaluate x (Some required) st').1 in
       let g0 := (GuardExprChecker.evaluate x None st').1 in
       operand g = operand g0 ∧ isNegated g = isNegated g0
       ∧ (required = isNegated g0 → guardedSymbol g = None)
       ∧ (required ≠ isNegated g0 → guardedSymbol g = guardedSymbol g0)).
Proof.
  intros Hneg.
  assert (op = AmpersandAmpersandToken ∨ op = BarBarToken →
          (GuardExprChecker.evaluateChain e st).1
          = IsGuardExprChain
              (mkGuardExprChain
                 (map (λ leaf,
                         (GuardExprChecker.evaluate leaf
                            (Some (bool_decide (op = AmpersandAmpersandToken)))
                            st).1)
                    (chainLeaves op (BinaryExpression l op r)))
                 op neg)) as Hchain.
  { intros Hop. unfold GuardExprChecker.evaluateChain. rewrite Hneg.
    assert (negb (bool_decide (op = AmpersandAmpersandToken))
            && negb (bool_decide (op = BarBarToken)) = false) as ->
        by (by destruct Hop as [-> | ->]).
    pose proof (_evaluateChainOperands_leaves op (BinaryExpression l op r) [] st)
      as Hleaves.
    destruct (GuardExprChecker._evaluateChainOperands
                (BinaryExpression l op r) op [] st) as [guardExprs st'].
    cbn [fst] in Hleaves |- *. by rewrite Hleaves. }
  split_and!.
  - intros ->. by rewrite Hchain by (by left).
  - intros ->. by rewrite Hchain by (by right).
  - intros. apply chainLeaves_are_leaves.
  - intros chainOp otherOp a b Hne. cbn [chainLeaves].
    by rewrite bool_decide_eq_false_2.
  - intros. apply evaluate_required.
Qed.

Lemma chain_flattening_witness :
  let checker : TypeChecker :=
    {| TsType := unit;
       getTypeAtLocation := λ _, tt;
       getApparentType := λ ty, ty;
       getPropertyOfType := λ _ _, None;
       getSymbolAtLocation :=
         λ _, Some (mkSymbol (lit "A") (Some (DeclarationNode 1))) |} in
  let a := Identifier (lit "A") in
  let b := Identifier (lit "B") in
  let c := Identifier (lit "C") in
  let inner := BinaryExpression b BarBarToken c in
  let e := BinaryExpression
             (BinaryExpression a AmpersandAmpersandToken
                (ParenthesizedExpression inner))
             AmpersandAmpersandToken
             (PrefixUnaryExpression ExclamationToken c) in
  (@GuardExprChecker.evaluateChain checker e GuardExprChecker.initial).1
  = IsGuardExprChain
      (mkGuardExprChain
         [mkGuardExpression a None false;
          mkGuardExpression inner None false;
          mkGuardExpression c None true]
         AmpersandAmpersandToken false).
Proof.
  intros checker a b c inner e.
  destruct (@chain_flattening checker e
              (BinaryExpression a AmpersandAmpersandToken
                 (ParenthesizedExpression inner))
              (PrefixUnaryExpression ExclamationToken c)
              AmpersandAmpersandToken false GuardExprChecker.initial)
    as ((Hand & _) & _).
  - reflexivity.
  - rewrite Hand by reflexivity. vm_compute. reflexivity.
Defined.

(* ===================================================================== *)
(** * Further properties of the code *)
(* ===================================================================== *)

(** ** Version: order and construction *)

Ltac order_cases :=
  unfold Version.max, Version.min, Version.compare, Spec.lt, Spec.ge,
    Spec.vmax, Spec.lt in *;
  cbn [major minor] in *;
  repeat match goal with
         | H : context [(?a =? ?b)] |- _ => destruct (Z.eqb_spec a b)
         | H : context [(?a <? ?b)] |- _ => destruct (Z.ltb_spec a b)
         | |- context [(?a =? ?b)] => destruct (Z.eqb_spec a b)
         | |- context [(?a <? ?b)] => destruct (Z.ltb_spec a b)
         end;
  cbn in *; try congruence; try lia.

Lemma version_eq (v w : Version) :
  major v = major w → minor v = minor w → v = w.
Proof. destruct v, w; cbn; congruence. Qed.

(** X1. [Version.compare] is a total order on versions: it returns -1,
    0 or 1, returns 0 exactly on equal versions, changes sign when its
    arguments are swapped, and is transitive. *)
Theorem compare_total_order (u v w : Version) :
  (Version.compare v w = -1 ∨ Version.compare v w = 0
   ∨ Version.compare v w = 1)
  ∧ (Version.compare v w = 0 ↔ v = w)
  ∧ Version.compare v w = - Version.compare w v
  ∧ (Version.compare u v <= 0 → Version.compare v w <= 0 →
     Version.compare u w <= 0)
  ∧ (Version.compare u v < 0 → Version.compare v w <= 0 →
     Version.compare u w < 0).
Proof.
  split_and!.
  - order_cases; auto.
  - split.
    + intros Hc. apply version_eq; order_cases.
    + intros ->. order_cases.
  - order_cases.
  - intros Huv Hvw. order_cases.
  - intros Huv Hvw. order_cases.
Qed.

Lemma compare_total_order_witness :
  Version.compare (mkVersion 1 5) (mkVersion 2 0) <= 0
  ∧ Version.compare (mkVersion 2 0) (mkVersion 2 7) <= 0
  ∧ Version.compare (mkVersion 1 5) (mkVersion 2 7) <= 0.
Proof.
  assert (Version.compare (mkVersion 1 5) (mkVersion 2 0) <= 0) as H1
      by (vm_compute; discriminate).
  assert (Version.compare (mkVersion 2 0) (mkVersion 2 7) <= 0) as H2
      by (vm_compute; discriminate).
  split_and!; [done|done|].
  exact (proj1 (proj2 (proj2 (proj2
           (compare_total_order (mkVersion 1 5) (mkVersion 2 0)
              (mkVersion 2 7))))) H1 H2).
Defined.

(** X2. [Version.min] and [Version.max] return one of their arguments,
    [min] a lower bound and [max] an upper bound of both under
    [compare], and together they return both arguments. *)
Theorem min_max_bounds (v w : Version) :
  (Version.min v w = v ∨ Version.min v w = w)
  ∧ (Version.max v w = v ∨ Version.max v w = w)
  ∧ Version.compare (Version.min v w) v <= 0
  ∧ Version.compare (Version.min v w) w <= 0
  ∧ Version.compare v (Version.max v w) <= 0
  ∧ Version.compare w (Version.max v w) <= 0
  ∧ ((Version.min v w = v ∧ Version.max v w = w)
     ∨ (Version.min v w = w ∧ Version.max v w = v)).
Proof.
  assert (Version.compare v w = 0 → v = w) as Heq
      by (intros Hc; by apply (compare_total_order v v w)).
  unfold Version.min, Version.max.
  destruct (Z.ltb_spec (Version.compare v w) 0) as [Hlt|Hge],
    (Z.gtb_spec (Version.compare v w) 0) as [Hgt|Hle]; try lia.
  - split_and!; auto; order_cases.
  - split_and!; auto; order_cases.
  - assert (v = w) as -> by (apply Heq; lia).
    split_and!; auto; order_cases.
Qed.

(** X3. [Version.create] succeeds exactly when both numbers lie between
    0 and 999999999, whole or not; NaN and the infinities are rejected.
    The version it returns has the integer parts of the two numbers as
    major and minor part (4.3 and 5.7 give 4.5), lies between [minVal]
    and [maxVal], and is below [infinite]. *)
Theorem create_bounds (a b : number) :
  (is_Some (Version.create a b)
   ↔ numberBetween 0 999999999 a ∧ numberBetween 0 999999999 b)
  ∧ (∀ v, Version.create a b = Some v →
       integerPart a (major v) ∧ integerPart b (minor v)
       ∧ Version.compare Version.minVal v <= 0
       ∧ Version.compare v Version.maxVal <= 0
       ∧ Version.compare v Version.infinite = -1).
Proof.
  assert (∀ x, geb x (Num 0) && leb x (Num Version._VERSION_MAX) = true
               ↔ numberBetween 0 999999999 x) as Hbetween.
  { intros x. rewrite andb_true_iff. unfold geb, Version._VERSION_MAX.
    destruct x as [|z|q|[]]; cbn [leb numberBetween]; try (split; [by intros [? ?]|done]).
    - by rewrite !Z.leb_le.
    - by rewrite !Qle_bool_iff. }
  assert (∀ x, numberBetween 0 999999999 x → integerPart x (toInt32 x))
    as Hpart.
  { intros [|z|q|[]]; cbn [numberBetween integerPart]; try done.
    - intros Hz. by rewrite toInt32_Num.
    - intros [Hlo Hhi]. destruct (toInt32_Frac q Hlo Hhi) as [-> _].
      split; [apply Qfloor_le|apply Qlt_floor]. }
  split.
  - rewrite <- !Hbetween. unfold Version.create, Version.MAX_MAJOR,
      Version.MAX_MINOR.
    destruct (geb a (Num 0)), (leb a (Num Version._VERSION_MAX)),
      (geb b (Num 0)), (leb b (Num Version._VERSION_MAX)); cbn [andb];
      split; try (by intros [? ?]); try (by intros [? ?]; eexists); eauto.
  - intros v Hv. pose proof (create_valid _ _ _ Hv) as [[? ?] [? ?]].
    unfold Version.create, Version.MAX_MAJOR, Version.MAX_MINOR in Hv.
    destruct (geb a (Num 0) && leb a (Num Version._VERSION_MAX)) eqn:Ha;
      [|by rewrite ?andb_false_l in Hv].
    rewrite <- andb_assoc in Hv.
    destruct (geb b (Num 0) && leb b (Num Version._VERSION_MAX)) eqn:Hb;
      [|by rewrite ?andb_false_r in Hv].
    cbn [andb] in Hv. injection Hv as <-. cbn [major minor] in *.
    apply Hbetween in Ha, Hb.
    unfold Version._VERSION_MAX in *. split_and!.
    + by apply Hpart.
    + by apply Hpart.
    + unfold Version.minVal. order_cases.
    + unfold Version.maxVal, Version._VERSION_MAX. order_cases.
    + unfold Version.infinite, Version._VERSION_MAX. order_cases.
Qed.

Lemma create_bounds_witness :
  is_Some (Version.create (Frac (43 # 10)) (Frac (57 # 10)))
  ∧ integerPart (Frac (43 # 10)) 4
  ∧ Version.compare (mkVersion 4 5) Version.infinite = -1.
Proof.
  split; [|split].
  - apply (proj1 (create_bounds (Frac (43 # 10)) (Frac (57 # 10)))).
    vm_compute. repeat split; discriminate.
  - apply (proj2 (create_bounds (Frac (43 # 10)) (Frac (57 # 10)))
             (mkVersion 4 5)).
    vm_compute. reflexivity.
  - apply (proj2 (create_bounds (Frac (43 # 10)) (Frac (57 # 10)))
             (mkVersion 4 5)).
    vm_compute. reflexivity.
Defined.

(** ** Version: parsing and printing *)

(** X4. Printing a version built by [create] and parsing it again gives
    the version back, whichever default applies to a missing minor part;
    a bare major number parses to minor 0, or to minor 999999999 when it
    ends a range. *)
Theorem fromString_toString_roundtrip (v : Version) :
  validVersion v →
  Version.fromString (Version.toString v) = Some v
  ∧ Version._fromString (Version.toString v) true = Some v
  ∧ Version.fromString (numberToString (major v)) = Some (mkVersion (major v) 0)
  ∧ Version._fromString (numberToString (major v)) true
    = Some (mkVersion (major v) 999999999).
Proof.
  intros Hv. pose proof Hv as [[? ?] _].
  pose proof (numberToString_numeral (major v) ltac:(done)) as Hnum.
  unfold Version.fromString. split_and!.
  - by apply _fromString_toString.
  - by apply _fromString_toString.
  - rewrite (_fromString_numeral (major v)) by done.
    apply create_in_range; [done|]. unfold Version._VERSION_MAX. lia.
  - rewrite (_fromString_numeral (major v)) by done.
    apply (create_in_range (major v) 999999999); [done|].
    unfold Version._VERSION_MAX. lia.
Qed.

Lemma fromString_toString_roundtrip_witness :
  Version.fromString (Version.toString (mkVersion 12 34))
  = Some (mkVersion 12 34).
Proof.
  apply (fromString_toString_roundtrip (mkVersion 12 34)).
  unfold validVersion, Version._VERSION_MAX. cbn. lia.
Defined.

(** X5. Parsing never returns a version out of range nor an inverted
    range: a version returned by [_fromString] has both parts between 0
    and 999999999 (so it is never [infinite]), and the two versions
    returned by [rangeFromString] are such versions with [min <= max]. *)
Theorem parsed_versions_in_range (str : jsstring) :
  (∀ defaultMinorMax v,
     Version._fromString str defaultMinorMax = Some v →
     0 <= major v <= 999999999 ∧ 0 <= minor v <= 999999999)
  ∧ (∀ v w,
       Version.rangeFromString str = Some (v, w) →
       (0 <= major v <= 999999999 ∧ 0 <= minor v <= 999999999)
       ∧ (0 <= major w <= 999999999 ∧ 0 <= minor w <= 999999999)
       ∧ Version.compare v w <= 0).
Proof.
  split.
  - intros dm v Hv. by apply _fromString_valid in Hv.
  - intros v w Hr. by apply rangeFromString_result in Hr.
Qed.

Lemma parsed_versions_in_range_witness :
  Version.compare (mkVersion 1 0) (mkVersion 2 999999999) <= 0.
Proof.
  apply (proj2 (parsed_versions_in_range (lit "1.0-2"))
           (mkVersion 1 0) (mkVersion 2 999999999)).
  vm_compute. reflexivity.
Defined.

(** X6. For every pair of versions built by [create] with [v <= w],
    [rangeFromString] maps the string made by [rangeToString] back to
    the pair; hence [rangeToString] gives different strings for
    different such ranges. *)
Theorem rangeToString_rangeFromString (v w : Version) :
  validVersion v → validVersion w → Version.compare v w <= 0 →
  Version.rangeFromString (Version.rangeToString v w) = Some (v, w)
  ∧ (∀ v' w',
       validVersion v' → validVersion w' → Version.compare v' w' <= 0 →
       Version.rangeToString v' w' = Version.rangeToString v w →
       v' = v ∧ w' = w).
Proof.
  intros Hv Hw Hle. split; [by apply rangeToString_parse|].
  intros v' w' Hv' Hw' Hle' Heq.
  pose proof (rangeToString_parse v' w' Hv' Hw' Hle') as Hp'.
  rewrite Heq, (rangeToString_parse v w Hv Hw Hle) in Hp'.
  by injection Hp' as -> ->.
Qed.

Lemma rangeToString_rangeFromString_witness :
  Version.rangeFromString
    (Version.rangeToString (mkVersion 0 0) (mkVersion 7 3))
  = Some (mkVersion 0 0, mkVersion 7 3).
Proof.
  apply (rangeToString_rangeFromString (mkVersion 0 0) (mkVersion 7 3)).
  - unfold validVersion, Version._VERSION_MAX. cbn. lia.
  - unfold validVersion, Version._VERSION_MAX. cbn. lia.
  - vm_compute. discriminate.
Defined.

Lemma rangeFromString_split (X Y : jsstring) :
  45%N ∉ X →
  Version.rangeFromString (X ++ lit "-" ++ Y)
  = v ← Version._fromString X false;
    w ← Version._fromString Y true;
    if Version.compare v w >? 0 then None else Some (v, w).
Proof.
  intros HX. unfold Version.rangeFromString.
  change (lit "-") with [45%N]. change (lit "*") with [42%N]. cbn [app].
  rewrite bool_decide_eq_false_2.
  2:{ intros Heq. apply HX. destruct X as [|c [|c' X]]; cbn in Heq; done. }
  rewrite indexOf_first by done.
  destruct (Z.eqb_spec (Z.of_nat (length X)) (-1)) as [?|_]; [lia|].
  cbn [negb]. rewrite substring_prefix.
  replace (X ++ 45%N :: Y) with ((X ++ [45%N]) ++ Y) by (by rewrite <- app_assoc).
  rewrite (substring_from_suffix (X ++ [45%N]) Y)
    by (rewrite length_app; cbn [length]; lia).
  destruct (Version._fromString X false) as [v|]; [|done].
  cbn [mbind option_bind].
  destruct (Version._fromString Y true) as [w|]; done.
Qed.

(** X7. A range string is split at its first '-': the part before it is
    parsed as a lower bound (missing minor 0), the part after it as an
    upper bound (missing minor 999999999), and the range is rejected
    when either part is rejected or the lower bound is above the upper
    one.  In particular a range printed as "w-v" with [v] below [w] is
    rejected. *)
Theorem rangeFromString_dash_range (X Y : jsstring) :
  45%N ∉ X →
  Version.rangeFromString (X ++ lit "-" ++ Y)
  = (v ← Version._fromString X false;
     w ← Version._fromString Y true;
     if Version.compare v w >? 0 then None else Some (v, w))
  ∧ (∀ v w, validVersion v → validVersion w → Version.compare v w < 0 →
       X = Version.toString w → Y = Version.toString v →
       Version.rangeFromString (X ++ lit "-" ++ Y) = None).
Proof.
  intros HX. split; [by apply rangeFromString_split|].
  intros v w Hv Hw Hlt -> ->. rewrite rangeFromString_split by done.
  rewrite !_fromString_toString by done. cbn [mbind option_bind].
  destruct (Z.gtb_spec (Version.compare w v) 0) as [?|Hle]; [done|].
  pose proof (proj1 (proj2 (proj2 (compare_total_order v v w)))) as Hsym. lia.
Qed.

Lemma rangeFromString_dash_range_witness :
  Version.rangeFromString (lit "2.2" ++ lit "-" ++ lit "2.1") = None.
Proof.
  destruct (rangeFromString_dash_range (lit "2.2") (lit "2.1")) as [Hsplit _].
  - vm_compute. intros Hin. by repeat (apply elem_of_cons in Hin as [?|Hin]);
      try by apply elem_of_nil in Hin.
  - rewrite Hsplit. vm_compute. reflexivity.
Defined.

(** ** CompatData: what the coverage test decides *)

Lemma lt_true (a b : Version) :
  Spec.lt a b = true
  ↔ major a < major b ∨ (major a = major b ∧ minor a < minor b).
Proof.
  unfold Spec.lt.
  rewrite orb_true_iff, andb_true_iff, !Z.ltb_lt, Z.eqb_eq. tauto.
Qed.

Lemma lt_false (a b : Version) :
  Spec.lt a b = false
  ↔ ¬ (major a < major b ∨ (major a = major b ∧ minor a < minor b)).
Proof. rewrite <- lt_true. by destruct (Spec.lt a b). Qed.

Lemma ge_true (a b : Version) :
  Spec.ge a b = true
  ↔ ¬ (major a < major b ∨ (major a = major b ∧ minor a < minor b)).
Proof. unfold Spec.ge. rewrite negb_true_iff. apply lt_false. Qed.

Lemma ge_false (a b : Version) :
  Spec.ge a b = false
  ↔ major a < major b ∨ (major a = major b ∧ minor a < minor b).
Proof. unfold Spec.ge. rewrite negb_false_iff. apply lt_true. Qed.

(** Goals about the order of versions, by linear arithmetic on their parts. *)
Ltac version_lia :=
  repeat match goal with
         | H : context [Spec.vmax ?a ?b] |- _ =>
             unfold Spec.vmax in H; destruct (Spec.lt b a) eqn:?
         | |- context [Spec.vmax ?a ?b] =>
             unfold Spec.vmax; destruct (Spec.lt b a) eqn:?
         end;
  rewrite ?lt_true, ?lt_false, ?ge_true, ?ge_false in *;
  lia.

Section CoverageMeaning.

Implicit Types (s : SupportStatement) (v L : Version).

Lemma _sweep_exact tmin tmax :
  Spec.ge tmax tmin = true →
  ∀ rest seen L,
    (∀ v, inRange tmin tmax v → Spec.lt v L = true →
          ∃ s, s ∈ seen ∧ supportedAt v s) →
    (∀ s, s ∈ seen → Spec.ge L (version_removed s) = true) →
    sortedBy addedAscending rest →
    (CompatData._sweep tmin tmax rest L = true
     ↔ ∀ v, inRange tmin tmax v → ∃ s, s ∈ seen ++ rest ∧ supportedAt v s).
Proof.
  intros Hrange. induction rest as [|s rest IH]; intros seen L Hcov Hrem Hsorted.
  - cbn [CompatData._sweep]. rewrite compare_ltb, app_nil_r. split.
    + intros Hlt v Hv. apply Hcov; [done|].
      destruct Hv as [_ Hv]. clear -Hlt Hv. version_lia.
    + intros Hall. destruct (Hall tmax) as (s & Hs & _ & Hlt).
      { split; [done|]. clear. version_lia. }
      specialize (Hrem s Hs). clear -Hlt Hrem. version_lia.
  - cbn [CompatData._sweep]. rewrite compare_gtb, compare_ltb, compare_geb.
    destruct Hsorted as [Hlater Hsorted].
    destruct (Spec.lt L (version_added s) && Spec.lt tmin (version_added s)
              && Spec.ge tmax L) eqn:Hgap.
    + split; [done|]. intros Hall. exfalso.
      apply andb_true_iff in Hgap as [[Hg1 Hg2]%andb_true_iff Hg3].
      destruct (Hall (Spec.vmax tmin L)) as (s' & Hs' & Hge & Hlt).
      { split; clear -Hrange Hg3; version_lia. }
      apply elem_of_app in Hs' as [Hs'|Hs'].
      * specialize (Hrem s' Hs'). clear -Hrem Hlt. version_lia.
      * apply elem_of_cons in Hs' as [->|Hs'].
        -- clear -Hge Hg1 Hg2. version_lia.
        -- rewrite Forall_forall in Hlater. specialize (Hlater s' Hs').
           unfold addedAscending in Hlater. clear -Hlater Hge Hg1 Hg2.
           version_lia.
    + rewrite max_vmax.
      rewrite (IH (seen ++ [s]) (Spec.vmax L (version_removed s))); [|..|done].
      * by rewrite <- app_assoc.
      * intros v Hv Hlt. destruct (Spec.lt v L) eqn:HvL.
        -- destruct (Hcov v Hv HvL) as (s' & Hs' & Hin). exists s'.
           split; [|done]. apply elem_of_app. by left.
        -- exists s. split; [apply elem_of_app; right; apply list_elem_of_here|].
           destruct Hv as [Hv1 Hv2]. split.
           ++ rewrite !andb_false_iff in Hgap.
              clear -Hgap HvL Hv1 Hv2. destruct Hgap as [[Hgap|Hgap]|Hgap];
                version_lia.
           ++ clear -HvL Hlt. version_lia.
      * intros s' Hs'. apply elem_of_app in Hs' as [Hs'|Hs'].
        -- specialize (Hrem s' Hs'). clear -Hrem. version_lia.
        -- apply list_elem_of_singleton in Hs' as ->. clear. version_lia.
Qed.

Lemma _checkVersionRangeIntersection_exact (t : ClientInfo) stmts :
  Spec.ge (maxVersion t) (minVersion t) = true →
  sortedBy addedAscending stmts →
  (CompatData._checkVersionRangeIntersection t stmts = true
   ↔ ∀ v, inRange (minVersion t) (maxVersion t) v →
          ∃ s, s ∈ stmts ∧ supportedAt v s).
Proof.
  intros Hrange Hsorted. unfold CompatData._checkVersionRangeIntersection.
  destruct stmts as [|s0 rest].
  - split; [done|]. intros Hall.
    destruct (Hall (minVersion t)) as (s & Hs & _).
    { split; [clear; version_lia|done]. }
    by apply elem_of_nil in Hs.
  - destruct Hsorted as [Hlater Hsorted]. rewrite compare_ltb.
    destruct (Spec.lt (minVersion t) (version_added s0)) eqn:Hfirst.
    + split; [done|]. intros Hall. exfalso.
      destruct (Hall (minVersion t)) as (s & Hs & Hge & _).
      { split; [clear; version_lia|done]. }
      apply elem_of_cons in Hs as [->|Hs].
      * clear -Hge Hfirst. version_lia.
      * rewrite Forall_forall in Hlater. specialize (Hlater s Hs).
        unfold addedAscending in Hlater. clear -Hlater Hge Hfirst. version_lia.
    + rewrite (_sweep_exact _ _ Hrange rest [s0] (version_removed s0));
        [done|..|done].
      * intros v [Hv1 Hv2] Hlt. exists s0. split; [apply list_elem_of_here|].
        split; [|done]. clear -Hv1 Hfirst. version_lia.
      * intros s ->%list_elem_of_singleton. clear. version_lia.
Qed.

Lemma sortedBy_filter {A} (R : A → A → Prop) (p : A → bool) l :
  sortedBy R l → sortedBy R (List.filter p l).
Proof.
  induction l as [|x l IH]; [done|]. intros [Hx Hl]. cbn [List.filter].
  destruct (p x); [|by apply IH]. split; [|by apply IH].
  rewrite Forall_forall in Hx |- *. intros y Hy.
  apply Hx. apply list_elem_of_In in Hy. apply filter_In in Hy as [Hy _].
  by apply list_elem_of_In.
Qed.

End CoverageMeaning.

(** X8. On a statement list in ascending order of [version_added] and a
    target with [min <= max], the coverage test succeeds exactly when
    every version of the target range lies in the support interval
    [addedAt, removedAt) of some statement of the list; with
    [withNoIssues] set, of some statement without prefix, alternative
    name, flags or partial marker. *)
Theorem coverage_means_containment
  (t : ClientInfo) (stmts : list SupportStatement) :
  Spec.ge (maxVersion t) (minVersion t) = true →
  sortedBy addedAscending stmts →
  (CompatData._checkIfSupportedVersionArray t stmts false = true
   ↔ ∀ v, inRange (minVersion t) (maxVersion t) v →
          ∃ s, s ∈ stmts ∧ supportedAt v s)
  ∧ (CompatData._checkIfSupportedVersionArray t stmts true = true
     ↔ ∀ v, inRange (minVersion t) (maxVersion t) v →
            ∃ s, s ∈ stmts ∧ caveatFree s ∧ supportedAt v s).
Proof.
  intros Hrange Hsorted.
  assert (∀ l, sortedBy addedAscending l →
               (CompatData._checkIfSupportedVersionArray t l false = true
                ↔ ∀ v, inRange (minVersion t) (maxVersion t) v →
                       ∃ s, s ∈ l ∧ supportedAt v s)) as Hraw.
  { intros l Hl. rewrite <- (_checkVersionRangeIntersection_exact t l Hrange Hl).
    unfold CompatData._checkIfSupportedVersionArray.
    destruct l as [|s0 [|s1 rest]]; [done| |done].
    unfold CompatData._checkIfSupportedVersion,
      CompatData._checkVersionRangeIntersection. cbn [CompatData._sweep].
    rewrite !compare_ltb, compare_geb. unfold Spec.ge.
    by destruct (Spec.lt (minVersion t) (version_added s0)),
      (Spec.lt (maxVersion t) (version_removed s0)). }
  split; [by apply Hraw|].
  change (CompatData._checkIfSupportedVersionArray t stmts true)
    with (CompatData._checkIfSupportedVersionArray t
            (List.filter (λ x, negb (CompatData._hasCaveat x)) stmts) false).
  rewrite Hraw by (by apply sortedBy_filter).
  split; intros Hall v Hv; destruct (Hall v Hv) as (s & Hs); exists s.
  - destruct Hs as [Hs Hin].
    apply list_elem_of_In, filter_In in Hs as [Hs Hc].
    apply negb_true_iff, _hasCaveat_spec in Hc. by rewrite list_elem_of_In.
  - destruct Hs as (Hs & Hc & Hin). split; [|done].
    apply list_elem_of_In, filter_In. rewrite <- list_elem_of_In.
    split; [done|]. by rewrite (proj2 (_hasCaveat_spec s) Hc).
Qed.

Lemma coverage_means_containment_witness :
  let target a b := ClientInfo.new (lit "a") (lit "Browser A")
                      (mkVersion a 0) (mkVersion b 0) in
  (∃ s, s ∈ testFoo ∧ supportedAt (mkVersion 3 7) s)
  ∧ (∃ s, s ∈ testFoo ∧ caveatFree s ∧ supportedAt (mkVersion 14 2) s)
  ∧ CompatData._checkIfSupportedVersionArray (target 6 12) testFoo true = false.
Proof.
  intros target.
  assert (sortedBy addedAscending testFoo) as Hsorted
      by (cbn; repeat split; repeat constructor; vm_compute; reflexivity).
  split_and!.
  - destruct (coverage_means_containment (target 2 5) testFoo)
      as [[Hcov _] _]; [vm_compute; reflexivity|exact Hsorted|].
    apply Hcov; [vm_compute; reflexivity|].
    split; vm_compute; reflexivity.
  - destruct (coverage_means_containment (target 14 15) testFoo)
      as [_ [Hclean _]]; [vm_compute; reflexivity|exact Hsorted|].
    apply Hclean; [vm_compute; reflexivity|].
    split; vm_compute; reflexivity.
  - destruct (coverage_means_containment (target 6 12) testFoo)
      as [_ [Hclean _]]; [vm_compute; reflexivity|exact Hsorted|].
    destruct (CompatData._checkIfSupportedVersionArray (target 6 12) testFoo true)
      eqn:Hcode; [|reflexivity].
    destruct (Hclean eq_refl (mkVersion 7 0)) as (s & Hs & Hfree & Hat);
      [split; vm_compute; reflexivity|].
    exfalso. revert Hfree Hat. unfold caveatFree, present, supportedAt.
    repeat (apply elem_of_cons in Hs as [->|Hs]);
      [..|by apply elem_of_nil in Hs]; vm_compute; intuition congruence.
Defined.

(** ** CompatData: normalisation and canonical order *)

Section CanonicalOrder.

Implicit Types (a b c : SupportStatement).

Lemma compare_le_parts (v w : Version) :
  Version.compare v w <= 0
  ↔ ¬ (major w < major v ∨ (major w = major v ∧ minor w < minor v)).
Proof.
  destruct (compare_cases v w) as [[-> Hc]|[[-> ->]|[-> Hc]]].
  - apply lt_true in Hc. lia.
  - lia.
  - apply lt_true in Hc. lia.
Qed.

Lemma compare_zero_parts (v w : Version) :
  Version.compare v w = 0 ↔ major v = major w ∧ minor v = minor w.
Proof.
  destruct (compare_cases v w) as [[Hc Hlt]|[[Hc ->]|[Hc Hlt]]];
    rewrite Hc; [apply lt_true in Hlt|done|apply lt_true in Hlt]; lia.
Qed.

(** The canonical order: ascending [version_added], ties by descending
    [version_removed]. *)
Lemma canonicalOrder_parts a b :
  canonicalOrder a b
  ↔ (major (version_added a) < major (version_added b)
     ∨ (major (version_added a) = major (version_added b)
        ∧ minor (version_added a) < minor (version_added b)))
    ∨ ((major (version_added a) = major (version_added b)
        ∧ minor (version_added a) = minor (version_added b))
       ∧ ¬ (major (version_removed a) < major (version_removed b)
            ∨ (major (version_removed a) = major (version_removed b)
               ∧ minor (version_removed a) < minor (version_removed b)))).
Proof.
  unfold canonicalOrder, CompatData._compareSupportStatementsForSort.
  pose proof (compare_zero_parts (version_added a) (version_added b)) as Hz.
  pose proof (compare_le_parts (version_added a) (version_added b)) as Hle.
  pose proof (compare_le_parts (version_removed b) (version_removed a)) as Hr.
  destruct (Z.eqb_spec (Version.compare (version_added a) (version_added b)) 0)
    as [Heq|Hne]; cbn [negb]; lia.
Qed.

Lemma canonicalOrder_total a b : canonicalOrder a b ∨ canonicalOrder b a.
Proof. rewrite !canonicalOrder_parts. lia. Qed.

Lemma canonicalOrder_trans a b c :
  canonicalOrder a b → canonicalOrder b c → canonicalOrder a c.
Proof. rewrite !canonicalOrder_parts. lia. Qed.

Lemma canonicalOrder_added a b : canonicalOrder a b → addedAscending a b.
Proof.
  unfold addedAscending. rewrite canonicalOrder_parts, ge_true. lia.
Qed.

Lemma _insert_perm x l :
  Preprocess._insert CompatData._compareSupportStatementsForSort x l ≡ₚ x :: l.
Proof.
  induction l as [|y l IH]; [done|]. cbn [Preprocess._insert].
  destruct (_ <=? 0); [done|]. rewrite IH. apply Permutation_swap.
Qed.

Lemma sort_perm l :
  Preprocess.sort CompatData._compareSupportStatementsForSort l ≡ₚ l.
Proof.
  induction l as [|x l IH]; [done|].
  cbn [Preprocess.sort foldr]. fold (Preprocess.sort
    CompatData._compareSupportStatementsForSort l).
  by rewrite _insert_perm, IH.
Qed.

Lemma _insert_sorted x l :
  sortedBy canonicalOrder l →
  sortedBy canonicalOrder
    (Preprocess._insert CompatData._compareSupportStatementsForSort x l).
Proof.
  induction l as [|y l IH]; intros Hl; [by repeat split|].
  destruct Hl as [Hy Hl]. cbn [Preprocess._insert].
  destruct (Z.leb_spec (CompatData._compareSupportStatementsForSort x y) 0)
    as [Hxy|Hyx].
  - split; [|by split]. constructor; [done|].
    eapply Forall_impl; [exact Hy|].
    intros z Hz. by eapply canonicalOrder_trans.
  - split; [|by apply IH]. rewrite _insert_perm. constructor; [|done].
    destruct (canonicalOrder_total x y) as [Hc|Hc]; [|done].
    unfold canonicalOrder in Hc. lia.
Qed.

Lemma sort_sorted l :
  sortedBy canonicalOrder
    (Preprocess.sort CompatData._compareSupportStatementsForSort l).
Proof.
  induction l as [|x l IH]; [done|]. by apply _insert_sorted.
Qed.

Lemma sortedBy_impl {A} (R R' : A → A → Prop) (l : list A) :
  (∀ x y, R x y → R' x y) → sortedBy R l → sortedBy R' l.
Proof.
  intros HR. induction l as [|x l IH]; [done|]. intros [Hx Hl].
  split; [|by apply IH]. eapply Forall_impl; [exact Hx|]. by intros; apply HR.
Qed.

End CanonicalOrder.

(** X9. [_compareSupportStatementsForSort] orders by ascending
    [version_added] and, among equal ones, by descending
    [version_removed]; it is total and transitive.  When the
    preprocessing of a statement array succeeds, the stored array is a
    permutation of the normalised statements in this canonical order, in
    particular in ascending order of [version_added]. *)
Theorem preprocessed_array_is_sorted
  (raw : list RawSupportStatement) (stored : list SupportStatement) :
  Preprocess._preprocessSupportEntry (RawArraySupport raw)
    = Some (ArraySupport stored) →
  (∃ normalised,
     mapM Preprocess._preprocessMDNCompatDataSupportStatement raw
       = Some normalised
     ∧ stored ≡ₚ normalised)
  ∧ sortedBy canonicalOrder stored
  ∧ sortedBy addedAscending stored
  ∧ (∀ a b c : SupportStatement,
       (canonicalOrder a b ∨ canonicalOrder b a)
       ∧ (canonicalOrder a b → canonicalOrder b c → canonicalOrder a c)
       ∧ (canonicalOrder a b
          ↔ Spec.lt (version_added a) (version_added b) = true
            ∨ (version_added a = version_added b
               ∧ Spec.ge (version_removed a) (version_removed b) = true))).
Proof.
  unfold Preprocess._preprocessSupportEntry. intros Hpre.
  destruct (mapM Preprocess._preprocessMDNCompatDataSupportStatement raw)
    as [normalised|]; [|done].
  cbn [mbind option_bind] in Hpre. injection Hpre as <-. split_and!.
  - exists normalised. split; [done|]. apply sort_perm.
  - apply sort_sorted.
  - eapply sortedBy_impl; [|apply sort_sorted]. apply canonicalOrder_added.
  - intros a b c. split_and!.
    + apply canonicalOrder_total.
    + apply canonicalOrder_trans.
    + rewrite canonicalOrder_parts, lt_true, ge_true. split.
      * intros [?|[[? ?] ?]]; [by left|right].
        split; [by apply version_eq|done].
      * intros [?|[-> ?]]; [by left|right]. by repeat split.
Qed.

Lemma preprocessed_array_is_sorted_witness :
  let raw v r := mkRawSupportStatement v r
                   JUndefined JUndefined JUndefined JUndefined JUndefined in
  Preprocess._preprocessSupportEntry
    (RawArraySupport
       [raw (JString (lit "4")) (JString (lit "6"));
        raw (JBool true) (JString (lit "3"));
        raw (JString (lit "4")) JUndefined])
  = Some (ArraySupport
            [plainStatement Version.minVal (mkVersion 3 0);
             plainStatement (mkVersion 4 0) Version.infinite;
             plainStatement (mkVersion 4 0) (mkVersion 6 0)])
  ∧ sortedBy addedAscending
      [plainStatement Version.minVal (mkVersion 3 0);
       plainStatement (mkVersion 4 0) Version.infinite;
       plainStatement (mkVersion 4 0) (mkVersion 6 0)].
Proof.
  intros raw.
  assert (Preprocess._preprocessSupportEntry
            (RawArraySupport
               [raw (JString (lit "4")) (JString (lit "6"));
                raw (JBool true) (JString (lit "3"));
                raw (JString (lit "4")) JUndefined])
          = Some (ArraySupport
                    [plainStatement Version.minVal (mkVersion 3 0);
                     plainStatement (mkVersion 4 0) Version.infinite;
                     plainStatement (mkVersion 4 0) (mkVersion 6 0)])) as Hpre
      by (vm_compute; reflexivity).
  split; [exact Hpre|].
  exact (proj1 (proj2 (proj2 (preprocessed_array_is_sorted _ _ Hpre)))).
Defined.

(** ** CompatData: the issues derived for one feature and client *)

Section PlainObjects.

Context {A : Type}.

Implicit Types (own : gmap jsstring A) (key : jsstring).

Lemma get_Own own key value :
  JSObject.get own key = JSObject.Own value ↔ own !! key = Some value.
Proof.
  unfold JSObject.get. destruct (own !! key) as [v|].
  - split; by intros [= ->].
  - by destruct (bool_decide _).
Qed.

Lemma get_Inherited own key :
  JSObject.get own key = JSObject.Inherited
  ↔ own !! key = None ∧ key ∈ JSObject.prototypeNames.
Proof.
  unfold JSObject.get. destruct (own !! key) as [v|].
  - split; [done|by intros [? _]].
  - destruct (decide (key ∈ JSObject.prototypeNames)) as [Hin|Hout].
    + by rewrite (bool_decide_eq_true_2 _ Hin).
    + rewrite (bool_decide_eq_false_2 _ Hout). split; [done|].
      intros [_ Hin]. by destruct Hout.
Qed.

Lemma get_Missing own key :
  JSObject.get own key = JSObject.Missing
  ↔ own !! key = None ∧ key ∉ JSObject.prototypeNames.
Proof.
  unfold JSObject.get. destruct (own !! key) as [v|].
  - split; [done|by intros [? _]].
  - destruct (decide (key ∈ JSObject.prototypeNames)) as [Hin|Hout].
    + rewrite (bool_decide_eq_true_2 _ Hin). split; [done|].
      intros [_ Hout]. by destruct Hout.
    + by rewrite (bool_decide_eq_false_2 _ Hout).
Qed.

Lemma has_spec own key :
  JSObject.has own key = true
  ↔ is_Some (own !! key) ∨ key ∈ JSObject.prototypeNames.
Proof.
  unfold JSObject.has, JSObject.get. destruct (own !! key) as [v|].
  - split; [by left; eexists|done].
  - destruct (decide (key ∈ JSObject.prototypeNames)) as [Hin|Hout].
    + rewrite (bool_decide_eq_true_2 _ Hin). split; [by right|done].
    + rewrite (bool_decide_eq_false_2 _ Hout). split; [done|].
      intros [[? [=]]|Hin]. by destruct Hout.
Qed.

End PlainObjects.

Section DerivedIssues.

Context `{ClientCompatCheckerFlags}.

Implicit Types (t : ClientInfo) (s : SupportStatement) (i : Issue).

Lemma _makeIssue_fields typeName propName u t flagBits s i :
  CompatData._makeIssueFromSupportStatement typeName propName u t flagBits s
  = Some i →
  clientInfo i = t ∧ featureName i = qualifiedName typeName propName
  ∧ url i = u
  ∧ startVersion i = version_added s ∧ endVersion i = version_removed s.
Proof.
  unfold CompatData._makeIssueFromSupportStatement.
  destruct (_ || _); [done|].
  destruct (CompatData._getIssueKindAndPrefixFromSupportStatement s)
    as [[k|] alt]; [|done].
  destruct (CompatData._shouldDiscardIssueBasedOnFlags _ flagBits); [done|].
  intros [= <-]. by destruct propName.
Qed.

Lemma dropsKind_zero k : dropsKind 0 k = false.
Proof. unfold dropsKind. by rewrite !Z.land_0_l. Qed.

(** With flags, the issue of a statement is the one made without flags
    unless its kind is dropped. *)
Lemma _makeIssue_flags typeName propName url t flagBits s :
  CompatData._makeIssueFromSupportStatement typeName propName url t flagBits s
  = i ← CompatData._makeIssueFromSupportStatement typeName propName url t 0 s;
    if dropsKind flagBits (kind i) then None else Some i.
Proof.
  unfold CompatData._makeIssueFromSupportStatement.
  destruct (_ || _); [done|].
  destruct (CompatData._getIssueKindAndPrefixFromSupportStatement s)
    as [[k|] alt]; [|done].
  rewrite !_shouldDiscard_dropsKind. cbn [kind]. rewrite dropsKind_zero.
  cbn [mbind option_bind kind]. done.
Qed.

Lemma contribution_flags_one t typeName propName u flagBits notesOnly s :
  contribution t typeName propName u flagBits notesOnly s
  = i ← contribution t typeName propName u 0 notesOnly s;
    if negb (dropsKind flagBits (kind i)) then Some i else None.
Proof.
  unfold contribution. rewrite (_makeIssue_flags _ _ _ _ flagBits).
  destruct (CompatData._makeIssueFromSupportStatement
              typeName propName u t 0 s) as [i|];
    cbn [mbind option_bind]; [|done].
  destruct (dropsKind flagBits (kind i)) eqn:Hd; cbn [mbind option_bind];
    destruct (notesOnly && negb (bool_decide (kind i = NOTE)));
    cbn [mbind option_bind negb]; by rewrite ?Hd.
Qed.

Lemma omap_then_filter {A B} (f g : A → option B) (p : B → bool) (l : list A) :
  (∀ x, g x = y ← f x; if p y then Some y else None) →
  omap g l = List.filter p (omap f l).
Proof.
  intros Hg. induction l as [|x l IH]; [done|].
  cbn [omap list_omap]. rewrite Hg, IH.
  destruct (f x) as [y|]; cbn [mbind option_bind]; [|done].
  cbn [List.filter]. by destruct (p y).
Qed.

Lemma contribution_flags t typeName propName u flagBits notesOnly stmts :
  omap (contribution t typeName propName u flagBits notesOnly) stmts
  = List.filter (λ i, negb (dropsKind flagBits (kind i)))
      (omap (contribution t typeName propName u 0 notesOnly) stmts).
Proof.
  apply omap_then_filter. intros s. apply contribution_flags_one.
Qed.

(** The derivation appends to the array it is given. *)
Lemma _getIssuesFromCompatStatement_appends t typeName propName cs flagBits issues :
  CompatData._getIssuesFromCompatStatement t typeName propName cs flagBits issues
  = app issues
    <$> CompatData._getIssuesFromCompatStatement
          t typeName propName cs flagBits [].
Proof.
  unfold CompatData._getIssuesFromCompatStatement.
  destruct cs as [cs|]; [|cbn; by rewrite app_nil_r].
  destruct (JSObject.get (support cs) (name t)) as [[s|l]| |]; [| |done|done].
  - unfold CompatData._getIssuesFromSingleSupportStatement. cbn.
    destruct (if CompatData._checkIfSupportedVersion t s false then _ else _);
      [done|by rewrite app_nil_r].
  - unfold CompatData._getIssuesFromArraySupportStatement. cbn.
    destruct (negb _); [done|]. by rewrite !_pushStatementIssues_omap.
Qed.

Lemma contribution_source t typeName propName u flagBits notesOnly
  (stmts : list SupportStatement) i :
  i ∈ omap (contribution t typeName propName u flagBits notesOnly) stmts →
  ∃ s, s ∈ stmts
       ∧ CompatData._makeIssueFromSupportStatement
           typeName propName u t flagBits s = Some i.
Proof.
  intros (s & Hs & Hi)%list_elem_of_omap. exists s. split; [done|].
  unfold contribution in Hi.
  destruct (CompatData._makeIssueFromSupportStatement
              typeName propName u t flagBits s) as [i'|]; [|done].
  cbn [mbind option_bind] in Hi.
  by destruct (notesOnly && negb (bool_decide (kind i' = NOTE))).
Qed.

(** What is derived is the NOT_SUPPORTED issue alone, or issues made from
    statements of the client's entry. *)
Lemma _getIssuesFromCompatStatement_shape t typeName propName cs flagBits new :
  CompatData._getIssuesFromCompatStatement t typeName propName cs flagBits []
  = Some new →
  new = [CompatData._makeNotSupportedIssue typeName propName t]
  ∨ ∀ i, i ∈ new →
      ∃ c s, cs = Some c ∧ s ∈ entryStatements (support c !! name t)
             ∧ CompatData._makeIssueFromSupportStatement
                 typeName propName (issueUrl c) t flagBits s = Some i.
Proof.
  unfold CompatData._getIssuesFromCompatStatement.
  destruct cs as [c|]; [|intros [= <-]; right; by intros i ?%elem_of_nil].
  destruct (JSObject.get (support c) (name t)) as [[s|l]| |] eqn:Hentry;
    [| |done|intros [= <-]; by left].
  - apply get_Own in Hentry.
    unfold CompatData._getIssuesFromSingleSupportStatement. intros [= <-].
    destruct (CompatData._checkIfSupportedVersion t s false); [|by left].
    right. fold (issueUrl c).
    destruct (CompatData._makeIssueFromSupportStatement
                typeName propName (issueUrl c) t flagBits s) as [i'|] eqn:Hi;
      [|by intros i ?%elem_of_nil].
    intros i ->%list_elem_of_singleton. exists c, s.
    rewrite Hentry. split_and!; [done|apply list_elem_of_here|done].
  - apply get_Own in Hentry.
    unfold CompatData._getIssuesFromArraySupportStatement. intros [= <-].
    destruct (negb _); [by left|]. right. fold (issueUrl c).
    rewrite _pushStatementIssues_omap. cbn [app].
    intros i (s & Hs & Hi)%contribution_source. exists c, s.
    by rewrite Hentry.
Qed.

(** The derivation throws exactly when there is a compat statement in
    whose [support] object the client's name is an inherited member. *)
Lemma _getIssuesFromCompatStatement_throws t typeName propName cs flagBits issues :
  CompatData._getIssuesFromCompatStatement t typeName propName cs flagBits issues
  = None
  ↔ ∃ c, cs = Some c ∧ support c !! name t = None
         ∧ name t ∈ JSObject.prototypeNames.
Proof.
  unfold CompatData._getIssuesFromCompatStatement.
  destruct cs as [c|]; [|split; [done|by intros (? & ? & _)]].
  destruct (JSObject.get (support c) (name t)) as [[s|l]| |] eqn:Hentry.
  - apply get_Own in Hentry. split; [done|].
    intros (? & [= <-] & Hnone & _). by rewrite Hnone in Hentry.
  - apply get_Own in Hentry. split; [done|].
    intros (? & [= <-] & Hnone & _). by rewrite Hnone in Hentry.
  - apply get_Inherited in Hentry. split; [|done]. intros _. by exists c.
  - apply get_Missing in Hentry as [_ Hout]. split; [done|].
    intros (? & [= <-] & _ & Hin). by destruct Hout.
Qed.

End DerivedIssues.

(** X10. The suppression flags act as a final filter: the issues derived
    with flags are those derived without flags (flag value 0) from which
    the issues of a dropped kind (NOTE and/or IS_PARTIAL_IMPL) are
    removed, in the same order and appended to the array given; the
    derivation with flags throws exactly when the one without does.  The
    flags change no issue of an existence kind. *)
Theorem flags_are_a_final_filter `{ClientCompatCheckerFlags}
  (t : ClientInfo) (typeName : jsstring) (propName : option jsstring)
  (cs : option CompatStatement) (flagBits : Z) (issues : list Issue) :
  let derived fl := CompatData._getIssuesFromCompatStatement
                      t typeName propName cs fl [] in
  CompatData._getIssuesFromCompatStatement t typeName propName cs flagBits issues
  = (λ unflagged,
       issues
       ++ List.filter (λ i, negb (dropsKind flagBits (kind i))) unflagged)
    <$> derived 0
  ∧ List.filter (λ i, Walker._isSuppressibleKind (kind i)) <$> derived flagBits
    = List.filter (λ i, Walker._isSuppressibleKind (kind i)) <$> derived 0.
Proof.
  intros derived.
  assert (derived flagBits
          = List.filter (λ i, negb (dropsKind flagBits (kind i))) <$> derived 0)
    as Hfilter.
  { assert (List.filter (λ i, negb (dropsKind flagBits (kind i)))
              [CompatData._makeNotSupportedIssue typeName propName t]
            = [CompatData._makeNotSupportedIssue typeName propName t]) as Hns.
    { cbn [List.filter]. by rewrite dropsKind_existence. }
    unfold derived, CompatData._getIssuesFromCompatStatement.
    destruct cs as [c|]; [|done].
    destruct (JSObject.get (support c) (name t)) as [[s|l]| |];
      [| |done|cbn; by rewrite dropsKind_existence].
    - unfold CompatData._getIssuesFromSingleSupportStatement.
      cbn [fmap option_fmap option_map]. f_equal.
      destruct (CompatData._checkIfSupportedVersion t s false);
        [|cbn [app]; by rewrite Hns].
      rewrite (_makeIssue_flags _ _ _ _ flagBits).
      destruct (CompatData._makeIssueFromSupportStatement _ _ _ t 0 s) as [i|];
        cbn [mbind option_bind]; [|done].
      cbn [app List.filter]. by destruct (dropsKind flagBits (kind i)).
    - unfold CompatData._getIssuesFromArraySupportStatement.
      cbn [fmap option_fmap option_map]. f_equal.
      destruct (negb _); [cbn [app]; by rewrite Hns|].
      rewrite !_pushStatementIssues_omap.
      cbn [app]. apply contribution_flags. }
  split.
  - rewrite _getIssuesFromCompatStatement_appends.
    change (CompatData._getIssuesFromCompatStatement
              t typeName propName cs flagBits [])
      with (derived flagBits).
    rewrite Hfilter. by destruct (derived 0).
  - rewrite Hfilter. clear Hfilter.
    destruct (derived 0) as [unflagged|]; [|done].
    cbn [fmap option_fmap option_map]. f_equal.
    induction unflagged as [|i l IH]; [done|]. cbn [List.filter].
    destruct (Walker._isSuppressibleKind (kind i)) eqn:Hk.
    + rewrite (dropsKind_existence flagBits _ Hk). cbn [negb List.filter].
      by rewrite Hk, IH.
    + destruct (dropsKind flagBits (kind i)); cbn [negb List.filter];
        by rewrite ?Hk, IH.
Qed.

(** X11. Every issue derived for a feature and a client carries that
    client and the feature's qualified name.  A NOT_SUPPORTED issue is
    the only issue derived, with the default window; any other issue is
    made from a statement of the client's entry that applies to the
    target: its kind is the one selected for that statement, its window
    the statement's, its url the compat statement's. *)
Theorem derived_issue_invariants `{ClientCompatCheckerFlags}
  (t : ClientInfo) (typeName : jsstring) (propName : option jsstring)
  (cs : option CompatStatement) (flagBits : Z) (new : list Issue) (i : Issue) :
  CompatData._getIssuesFromCompatStatement t typeName propName cs flagBits []
  = Some new →
  i ∈ new →
  clientInfo i = t ∧ featureName i = qualifiedName typeName propName
  ∧ (kind i = NOT_SUPPORTED →
     new = [i] ∧ startVersion i = Version.minVal
     ∧ endVersion i = Version.infinite ∧ url i = None)
  ∧ (kind i ≠ NOT_SUPPORTED →
     ∃ c s, cs = Some c ∧ s ∈ entryStatements (support c !! name t)
            ∧ applies t s ∧ selects s (Some (kind i))
            ∧ startVersion i = version_added s
            ∧ endVersion i = version_removed s
            ∧ url i = issueUrl c).
Proof.
  intros Hnew Hi.
  destruct (_getIssuesFromCompatStatement_shape
              t typeName propName cs flagBits new Hnew) as [Hns|Hmade].
  - rewrite Hns in Hi |- *. apply list_elem_of_singleton in Hi as ->.
    split_and!; try done; by destruct propName.
  - destruct (Hmade i Hi) as (c & s & -> & Hs & Hmake).
    pose proof (_makeIssue_fields _ _ _ _ _ _ _ Hmake) as (? & ? & ? & ? & ?).
    pose proof (_makeIssue_kind _ _ _ _ _ _ _ Hmake) as (? & Hsel & _).
    split_and!; try done.
    + intros Hk. rewrite Hk in Hsel. inversion Hsel.
    + intros _. by exists c, s.
Qed.

Lemma derived_issue_invariants_witness :
  let t := ClientInfo.new (lit "a") (lit "Browser A")
             (mkVersion 2 0) (mkVersion 5 0) in
  let c := mkCompatStatement
             {[ lit "a" := ArraySupport testFoo ]}
             (JString (lit "https://example.org/Foo")) in
  match @CompatData._getIssuesFromCompatStatement exampleFlags
          t (lit "Foo") (Some (lit "bar")) (Some c) 0 [] with
  | Some (i :: _) => clientInfo i = t ∧ featureName i = lit "Foo.bar"
  | _ => False
  end.
Proof.
  intros t c.
  destruct (@CompatData._getIssuesFromCompatStatement exampleFlags
              t (lit "Foo") (Some (lit "bar")) (Some c) 0 [])
    as [[|i rest]|] eqn:Hissues;
    [vm_compute in Hissues; discriminate| |vm_compute in Hissues; discriminate].
  destruct (@derived_issue_invariants exampleFlags
              t (lit "Foo") (Some (lit "bar")) (Some c) 0 (i :: rest) i Hissues)
    as (Hc & Hn & _).
  - left.
  - split; [exact Hc|exact Hn].
Defined.

(** X30. When the [support] object of a compat statement has no entry of
    its own for the client, and the client's name is no member that the
    object inherits, exactly one issue is appended: the NOT_SUPPORTED
    issue named for the feature, for that client, with the default
    window and neither url nor note.  When the name is an inherited
    member the derivation throws.  A feature node without compat
    statement appends nothing, for any client. *)
Theorem missing_client_is_not_supported `{ClientCompatCheckerFlags}
  (typeName : jsstring) (propName : option jsstring)
  (flagBits : Z) (issues : list Issue) :
  (∀ (t : ClientInfo) (compatStatement : CompatStatement),
     support compatStatement !! name t = None →
     (name t ∉ JSObject.prototypeNames →
      CompatData._getIssuesFromCompatStatement
        t typeName propName (Some compatStatement) flagBits issues
      = Some (issues ++ [notSupportedIssue typeName propName t]))
     ∧ (name t ∈ JSObject.prototypeNames →
        CompatData._getIssuesFromCompatStatement
          t typeName propName (Some compatStatement) flagBits issues
        = None))
  ∧ (∀ t : ClientInfo,
       CompatData._getIssuesFromCompatStatement
         t typeName propName None flagBits issues = Some issues).
Proof.
  split; [|done].
  intros t compatStatement Hnone. split.
  - intros Hout. unfold CompatData._getIssuesFromCompatStatement.
    rewrite (proj2 (get_Missing _ _) (conj Hnone Hout)).
    by rewrite _makeNotSupportedIssue_spec.
  - intros Hin. apply _getIssuesFromCompatStatement_throws.
    by exists compatStatement.
Qed.

Lemma missing_client_is_not_supported_witness :
  let client n := ClientInfo.new n (lit "Browser B")
                    (mkVersion 2 0) (mkVersion 5 0) in
  let compatStatement :=
    mkCompatStatement
      {[ lit "a" := SingleSupport (plainStatement Version.minVal Version.infinite) ]}
      JUndefined in
  let derived t :=
    @CompatData._getIssuesFromCompatStatement exampleFlags
      t (lit "Foo") (Some (lit "bar")) (Some compatStatement) 0 [] in
  derived (client (lit "b"))
  = Some [mkIssue (lit "Foo.bar") (client (lit "b")) NOT_SUPPORTED None None None
            Version.minVal Version.infinite]
  ∧ derived (client (lit "valueOf")) = None.
Proof.
  intros client compatStatement derived.
  pose proof (λ t, proj1 (@missing_client_is_not_supported exampleFlags
                            (lit "Foo") (Some (lit "bar")) 0 [])
                     t compatStatement) as Hmissing.
  split.
  - destruct (Hmissing (client (lit "b"))) as [Hout _]; [vm_compute; reflexivity|].
    unfold derived. rewrite Hout; [reflexivity|].
    vm_compute. intros Hin.
    repeat (apply elem_of_cons in Hin as [[=]|Hin]).
    by apply elem_of_nil in Hin.
  - destruct (Hmissing (client (lit "valueOf"))) as [_ Hthrow];
      [vm_compute; reflexivity|].
    apply Hthrow. vm_compute. do 9 right. left.
Defined.

(** ** CompatData: normalised extremes *)

Section Normalisation.

Context `{ClientCompatCheckerFlags}.

Lemma valid_below_infinite (v : Version) :
  validVersion v → Spec.lt v Version.infinite = true.
Proof.
  intros [[? ?] [? ?]]. apply lt_true. unfold Version.infinite.
  cbn [major minor]. lia.
Qed.

Lemma valid_not_below_minVal (v : Version) :
  validVersion v → Spec.lt v Version.minVal = false.
Proof.
  intros [[? ?] [? ?]]. apply lt_false. unfold Version.minVal.
  cbn [major minor]. lia.
Qed.

End Normalisation.

(** X12. Normalisation of the raw version fields, seen from a target
    whose bounds are versions built by [create].  A statement whose
    [version_removed] is no string and whose [version_added] is [true],
    [null] or any other value that is neither a string nor [false], and
    that has no caveat and no note, is normalised to the window of all
    versions and gives no issue at all.  A statement whose
    [version_added] is [false] is normalised whenever its
    [version_removed] is no string, is added at [infinite] whenever it
    is normalised, and then gives exactly the NOT_SUPPORTED issue of the
    feature for the client, whatever its other fields. *)
Theorem normalised_extremes `{ClientCompatCheckerFlags}
  (ss : RawSupportStatement) (t : ClientInfo) (typeName : jsstring)
  (propName u : option jsstring) (flagBits : Z) (issues : list Issue) :
  validVersion (minVersion t) → validVersion (maxVersion t) →
  ((∀ str, raw_version_removed ss ≠ JString str) →
   (∀ str, raw_version_added ss ≠ JString str) →
   raw_version_added ss ≠ JBool false →
   ¬ present (raw_prefix ss) → ¬ present (raw_alternative_name ss) →
   ¬ present (raw_flags ss) →
   raw_partial_implementation ss ≠ JBool true →
   ¬ present (raw_notes ss) →
   ∃ s, Preprocess._preprocessMDNCompatDataSupportStatement ss = Some s
        ∧ version_added s = Version.minVal
        ∧ version_removed s = Version.infinite
        ∧ CompatData._getIssuesFromSingleSupportStatement
            t typeName propName u s flagBits issues = issues)
  ∧ (raw_version_added ss = JBool false →
     ((∀ str, raw_version_removed ss ≠ JString str) →
      is_Some (Preprocess._preprocessMDNCompatDataSupportStatement ss))
     ∧ ∀ s, Preprocess._preprocessMDNCompatDataSupportStatement ss = Some s →
            version_added s = Version.infinite
            ∧ CompatData._getIssuesFromSingleSupportStatement
                t typeName propName u s flagBits issues
              = issues ++ [notSupportedIssue typeName propName t]).
Proof.
  intros Hmin Hmax.
  assert ((∀ str, raw_version_removed ss ≠ JString str) →
          Preprocess._supportStatementVersionRemovedToObject
            (raw_version_removed ss) = Some Version.infinite) as Hremoved.
  { intros Hrem.
    destruct (raw_version_removed ss) eqn:Hr; try done. by destruct (Hrem s). }
  split.
  - intros Hrem Hadd Hfalse Hp%not_present Ha%not_present Hf%not_present
      Hpi Hn%not_present.
    assert (Preprocess._supportStatementVersionAddedToObject
              (raw_version_added ss) = Some Version.minVal) as Hadded.
    { destruct (raw_version_added ss) as [| |[]| | | |] eqn:Hr; try done.
      by destruct (Hadd s). }
    unfold Preprocess._preprocessMDNCompatDataSupportStatement.
    rewrite Hadded, (Hremoved Hrem). cbn [mbind option_bind]. eexists.
    split_and!; [done..|].
    unfold CompatData._getIssuesFromSingleSupportStatement.
    rewrite _checkIfSupportedVersion_contained.
    cbn [version_added version_removed].
    rewrite (valid_not_below_minVal _ Hmin), (valid_below_infinite _ Hmax).
    cbn [negb andb].
    unfold CompatData._makeIssueFromSupportStatement.
    destruct (_ || _); [done|].
    unfold CompatData._getIssueKindAndPrefixFromSupportStatement.
    cbn [prefix alternative_name flags partial_implementation notes].
    rewrite Hp, Ha, Hf, Hn.
    destruct (JSVal.isTrue (raw_partial_implementation ss)) eqn:Hi; [|done].
    by apply isTrue_spec in Hi.
  - intros Hadd. split.
    + intros Hrem.
      unfold Preprocess._preprocessMDNCompatDataSupportStatement.
      rewrite Hadd, (Hremoved Hrem). by eexists.
    + intros s.
      unfold Preprocess._preprocessMDNCompatDataSupportStatement.
      rewrite Hadd.
      cbn [mbind option_bind Preprocess._supportStatementVersionAddedToObject].
      destruct (Preprocess._supportStatementVersionRemovedToObject _)
        as [removed|]; [|done].
      cbn [mbind option_bind]. intros [= <-]. split; [done|].
      unfold CompatData._getIssuesFromSingleSupportStatement.
      rewrite _checkIfSupportedVersion_contained.
      cbn [version_added version_removed].
      rewrite (valid_below_infinite _ Hmin). cbn [negb andb].
      by rewrite _makeNotSupportedIssue_spec.
Qed.

Lemma normalised_extremes_witness :
  let t := ClientInfo.new (lit "a") (lit "Browser A")
             (mkVersion 3 0) Version.maxVal in
  let never := mkRawSupportStatement (JBool false) (JString (lit "5"))
                 (JString (lit "moz")) JUndefined JUndefined JUndefined
                 JUndefined in
  let always := mkRawSupportStatement JNull JUndefined
                  JUndefined JUndefined JUndefined JUndefined JUndefined in
  (∃ s, Preprocess._preprocessMDNCompatDataSupportStatement never = Some s
        ∧ @CompatData._getIssuesFromSingleSupportStatement exampleFlags
            t (lit "Foo") (Some (lit "J")) None s 0 []
          = [notSupportedIssue (lit "Foo") (Some (lit "J")) t])
  ∧ (∃ s, Preprocess._preprocessMDNCompatDataSupportStatement always = Some s
          ∧ @CompatData._getIssuesFromSingleSupportStatement exampleFlags
              t (lit "Foo") (Some (lit "J")) None s 0 []
            = []).
Proof.
  intros t never always.
  assert (validVersion (minVersion t) ∧ validVersion (maxVersion t))
    as [Hmin Hmax]
      by (unfold validVersion; cbn; unfold Version._VERSION_MAX; lia).
  split.
  - destruct (Preprocess._preprocessMDNCompatDataSupportStatement never)
      as [s|] eqn:Hs; [|vm_compute in Hs; discriminate].
    exists s. split; [reflexivity|].
    apply (proj2 (@normalised_extremes exampleFlags never t (lit "Foo")
                    (Some (lit "J")) None 0 [] Hmin Hmax) eq_refl).
    exact Hs.
  - destruct (proj1 (@normalised_extremes exampleFlags always t (lit "Foo")
                       (Some (lit "J")) None 0 [] Hmin Hmax))
      as (s & Hs & _ & _ & Hnone); try done.
    by exists s.
Defined.

(** ** CompatData: the first version of a client *)

Section FirstVersion.

Lemma _reduceMin_fold (v : Version) (rest : list Version) :
  let m := foldl (λ a x, if Version.compare a x <? 0 then a else x) v rest in
  m ∈ v :: rest ∧ ∀ x, x ∈ v :: rest → Version.compare m x <= 0.
Proof.
  revert v. induction rest as [|y rest IH]; intros v; cbn [foldl].
  - split; [apply list_elem_of_here|].
    intros x ->%list_elem_of_singleton.
    destruct (compare_cases v v) as [[-> _]|[[-> _]|[_ Hc]]]; [lia|lia|].
    by rewrite lt_irrefl in Hc.
  - destruct (IH (if Version.compare v y <? 0 then v else y)) as [Hin Hle].
    cbn zeta in Hin, Hle. split.
    + apply elem_of_cons in Hin as [Hin|Hin].
      * rewrite Hin. destruct (_ <? 0); [apply list_elem_of_here|].
        apply list_elem_of_further, list_elem_of_here.
      * by do 2 apply list_elem_of_further.
    + intros x Hx.
      assert (Version.compare
                (foldl (λ a x0, if Version.compare a x0 <? 0 then a else x0)
                   (if Version.compare v y <? 0 then v else y) rest)
                (if Version.compare v y <? 0 then v else y) <= 0) as Hm
          by (apply Hle, list_elem_of_here).
      set (m := foldl _ _ rest) in *.
      apply elem_of_cons in Hx as [->|Hx];
        [|apply elem_of_cons in Hx as [->|Hx]].
      * rewrite compare_le_parts in Hm |- *.
        destruct (Z.ltb_spec (Version.compare v y) 0) as [Hlt|Hge]; [done|].
        pose proof (proj1 (compare_le_parts y v)) as Hyv.
        destruct (compare_cases v y) as [[Hc _]|[[_ ->]|[_ Hc]]];
          [lia|done|]. apply lt_true in Hc. lia.
      * rewrite compare_le_parts in Hm |- *.
        destruct (Z.ltb_spec (Version.compare v y) 0) as [Hlt|Hge]; [|done].
        destruct (compare_cases v y) as [[_ Hc]|[[Hc _]|[Hc _]]];
          [|lia|lia]. apply lt_true in Hc. lia.
      * by apply Hle, list_elem_of_further.
Qed.

End FirstVersion.

(** X13. [getFirstVersion] throws for a name that is neither a key of
    the [browsers] object nor a member that the object inherits.  For an
    inherited name that is no key it returns [undefined], provided that
    the first version of every browser of the table can be computed.
    When it returns a version, the client is a key of the table, and the
    version is the parse of one of the client's release keys and is not
    above the parse of any of them. *)
Theorem getFirstVersion_is_minimum
  (browsers : gmap jsstring Browser) (clientName : jsstring) :
  (browsers !! clientName = None →
   (clientName ∉ JSObject.prototypeNames →
    Loader.getFirstVersion browsers clientName = None)
   ∧ (clientName ∈ JSObject.prototypeNames →
      (∀ name b, browsers !! name = Some b → is_Some (Loader._minVersion b)) →
      Loader.getFirstVersion browsers clientName = Some None))
  ∧ (∀ first,
       Loader.getFirstVersion browsers clientName = Some (Some first) →
       ∃ b versions,
         browsers !! clientName = Some b
         ∧ mapM Version.fromString (releases b) = Some versions
         ∧ first ∈ versions
         ∧ ∀ v, v ∈ versions → Version.compare first v <= 0).
Proof.
  unfold Loader.getFirstVersion. split.
  - intros Hnone. split.
    + intros Hout.
      destruct (JSObject.has browsers clientName) eqn:Hhas; [|done].
      apply has_spec in Hhas as [[b Hb]|Hin]; [congruence|by destruct Hout].
    + intros Hin Hall.
      rewrite (proj2 (has_spec browsers clientName) (or_intror Hin)).
      cbn [negb]. unfold Loader._createClientMinVersionMap.
      rewrite bool_decide_eq_true_2 by exact Hall.
      cbn [mbind option_bind]. by rewrite lookup_omap, Hnone.
  - intros first. destruct (negb _); [done|].
    unfold Loader._createClientMinVersionMap. case_bool_decide; [|done].
    cbn [mbind option_bind]. rewrite lookup_omap.
    destruct (browsers !! clientName) as [b|] eqn:Hb; [|done].
    cbn [mbind option_bind].
    unfold Loader._minVersion.
    destruct (mapM Version.fromString (releases b)) as [versions|]
      eqn:Hversions; [|done].
    cbn [mbind option_bind]. destruct versions as [|v rest]; [done|].
    cbn [Loader._reduceMin]. intros [= <-]. exists b, (v :: rest).
    split_and!; [done|done|..]; apply _reduceMin_fold.
Qed.

Lemma getFirstVersion_is_minimum_witness :
  let browsers : gmap jsstring Browser :=
    {[ lit "a" := mkBrowser (lit "Browser A")
                    [lit "1"; lit "3"; lit "1.2"; lit "1.5"; lit "2"] ]} in
  Loader.getFirstVersion browsers (lit "a") = Some (Some (mkVersion 1 0))
  ∧ Loader.getFirstVersion browsers (lit "d") = None
  ∧ Loader.getFirstVersion browsers (lit "constructor") = Some None.
Proof.
  intros browsers. split; [vm_compute; reflexivity|]. split.
  - apply (proj1 (getFirstVersion_is_minimum browsers (lit "d")));
      [vm_compute; reflexivity|].
    apply (bool_decide_unpack _). vm_compute. exact I.
  - apply (proj1 (getFirstVersion_is_minimum browsers (lit "constructor")));
      [vm_compute; reflexivity| |].
    + apply (bool_decide_unpack _). vm_compute. exact I.
    + intros name b Hb. apply lookup_singleton_Some in Hb as [_ <-].
      vm_compute. by eexists.
Defined.

(** ** The issue index: storing and finding *)

Section IndexRoundTrip.

Implicit Types (l : ClientCompatIssueList) (issues out : list Issue).

Lemma _append_stored issues out :
  issues ≠ [] →
  ClientCompatIssueList._append out (ClientCompatIssueList._stored issues)
  = out ++ issues.
Proof. by destruct issues as [|i [|j issues]]. Qed.

Lemma _append_storedIssues out (x : StoredIssues) :
  ClientCompatIssueList._append out x = out ++ storedIssues (Some x).
Proof. by destruct x. Qed.

Lemma _stored_wf issues :
  issues ≠ [] → storedWellFormed (ClientCompatIssueList._stored issues).
Proof. destruct issues as [|i [|j issues]]; cbn; [done|done|lia]. Qed.

Lemma length_zero issues : (length issues =? 0)%nat = true ↔ issues = [].
Proof. destruct issues; cbn; split; done. Qed.

Lemma getIssuesForGlobal_stored l name out :
  ClientCompatIssueList.getIssuesForGlobal l name out
  = out ++ storedIssues (m_global l !! name).
Proof.
  unfold ClientCompatIssueList.getIssuesForGlobal.
  destruct (m_global l !! name) as [x|]; [apply _append_storedIssues|].
  by rewrite app_nil_r.
Qed.

Lemma getIssuesForPropertyOrEvent_stored l typeName propName isEvent out :
  ClientCompatIssueList.getIssuesForPropertyOrEvent
    l typeName propName isEvent out
  = out ++ storedIssues (storedForMember l typeName propName isEvent).
Proof.
  unfold ClientCompatIssueList.getIssuesForPropertyOrEvent, storedForMember.
  destruct ((if isEvent then m_events l else m_properties l) !! typeName)
    as [d|]; cbn [mbind option_bind]; [|by rewrite app_nil_r].
  destruct (d !! propName) as [x|]; [apply _append_storedIssues|].
  by rewrite app_nil_r.
Qed.

Lemma storedForMember_set l typeName propName isEvent issues T p ev :
  issues ≠ [] →
  storedForMember
    (ClientCompatIssueList.setIssuesForPropertyOrEvent
       l typeName propName isEvent issues) T p ev
  = if bool_decide (T = typeName ∧ p = propName ∧ ev = isEvent)
    then Some (ClientCompatIssueList._stored issues)
    else storedForMember l T p ev.
Proof.
  intros Hne. unfold ClientCompatIssueList.setIssuesForPropertyOrEvent.
  destruct (length issues =? 0)%nat eqn:Hlen; [by apply length_zero in Hlen|].
  unfold storedForMember.
  destruct isEvent, ev; cbn [m_events m_properties];
    try (rewrite bool_decide_eq_false_2 by (by intros (_ & _ & ?)); done).
  all: destruct (decide (T = typeName)) as [->|HT];
    [rewrite lookup_insert_eq; cbn [mbind option_bind];
     destruct (decide (p = propName)) as [->|Hp];
     [rewrite lookup_insert_eq; by rewrite bool_decide_eq_true_2
     |rewrite lookup_insert_ne by done;
      rewrite bool_decide_eq_false_2 by (by intros (_ & ? & _));
      by destruct (_ !! typeName)]
    |rewrite lookup_insert_ne by done;
     by rewrite bool_decide_eq_false_2 by (by intros (? & _))].
Qed.

End IndexRoundTrip.

(** X14. Storing and finding the issues of a global: after
    [setIssuesForGlobal] with a non-empty array the lookup of that name
    appends exactly the stored issues; storing an empty array changes
    nothing (an earlier entry stays); the lookup of any other name, and
    every lookup of a property or event, is as before. *)
Theorem global_issues_roundtrip
  (l : ClientCompatIssueList) (name : jsstring) (issues out : list Issue) :
  let l' := ClientCompatIssueList.setIssuesForGlobal l name issues in
  (issues ≠ [] →
   ClientCompatIssueList.getIssuesForGlobal l' name out = out ++ issues)
  ∧ (issues = [] → l' = l)
  ∧ (∀ other, other ≠ name →
       ClientCompatIssueList.getIssuesForGlobal l' other out
       = ClientCompatIssueList.getIssuesForGlobal l other out)
  ∧ (∀ typeName propName isEvent,
       ClientCompatIssueList.getIssuesForPropertyOrEvent
         l' typeName propName isEvent out
       = ClientCompatIssueList.getIssuesForPropertyOrEvent
           l typeName propName isEvent out).
Proof.
  intros l'. unfold l', ClientCompatIssueList.setIssuesForGlobal.
  destruct (length issues =? 0)%nat eqn:Hlen.
  { apply length_zero in Hlen as ->. by split_and!. }
  assert (issues ≠ []) as Hne by (intros ->; done).
  split_and!; try done.
  - intros _. unfold ClientCompatIssueList.getIssuesForGlobal.
    cbn [m_global]. rewrite lookup_insert_eq. by apply _append_stored.
  - intros other Hother. unfold ClientCompatIssueList.getIssuesForGlobal.
    cbn [m_global]. by rewrite lookup_insert_ne.
Qed.

Lemma global_issues_roundtrip_witness :
  let t := ClientInfo.new (lit "a") (lit "Browser A")
             Version.minVal Version.maxVal in
  let i := Issue.new3 (lit "Foo") t NOT_SUPPORTED in
  let j := Issue.new3 (lit "Foo") t NOTE in
  ClientCompatIssueList.getIssuesForGlobal
    (ClientCompatIssueList.setIssuesForGlobal
       ClientCompatIssueList.new (lit "Foo") [i; j]) (lit "Foo") [j]
  = [j; i; j].
Proof.
  intros t i j.
  apply (proj1 (global_issues_roundtrip
                  ClientCompatIssueList.new (lit "Foo") [i; j] [j])).
  done.
Defined.

(** X15. Storing and finding the issues of a member: after
    [setIssuesForPropertyOrEvent] with a non-empty array the lookup of
    the same type, name and kind (property or event) appends exactly the
    stored issues; the lookup of any other triple — in particular of the
    same name as the other kind — and every lookup of a global is as
    before. *)
Theorem member_issues_roundtrip
  (l : ClientCompatIssueList) (typeName propName : jsstring) (isEvent : bool)
  (issues out : list Issue) :
  issues ≠ [] →
  let l' := ClientCompatIssueList.setIssuesForPropertyOrEvent
              l typeName propName isEvent issues in
  ClientCompatIssueList.getIssuesForPropertyOrEvent
    l' typeName propName isEvent out = out ++ issues
  ∧ (∀ T p ev,
       ¬ (T = typeName ∧ p = propName ∧ ev = isEvent) →
       ClientCompatIssueList.getIssuesForPropertyOrEvent l' T p ev out
       = ClientCompatIssueList.getIssuesForPropertyOrEvent l T p ev out)
  ∧ (∀ name,
       ClientCompatIssueList.getIssuesForGlobal l' name out
       = ClientCompatIssueList.getIssuesForGlobal l name out).
Proof.
  intros Hne l'. split_and!.
  - rewrite getIssuesForPropertyOrEvent_stored. unfold l'.
    rewrite storedForMember_set, bool_decide_eq_true_2 by done.
    by destruct issues as [|i [|j issues]].
  - intros T p ev Hother. rewrite !getIssuesForPropertyOrEvent_stored.
    unfold l'. by rewrite storedForMember_set, bool_decide_eq_false_2 by done.
  - intros name. unfold l', ClientCompatIssueList.setIssuesForPropertyOrEvent.
    destruct (length issues =? 0)%nat; [done|]. by destruct isEvent.
Qed.

Lemma member_issues_roundtrip_witness :
  let t := ClientInfo.new (lit "a") (lit "Browser A")
             Version.minVal Version.maxVal in
  let i := Issue.new3 (lit "Foo.x") t NOT_SUPPORTED in
  let l := ClientCompatIssueList.setIssuesForPropertyOrEvent
             ClientCompatIssueList.new (lit "Foo") (lit "x") false [i] in
  ClientCompatIssueList.getIssuesForPropertyOrEvent l (lit "Foo") (lit "x") false []
  = [i]
  ∧ ClientCompatIssueList.getIssuesForPropertyOrEvent l (lit "Foo") (lit "x") true []
    = [].
Proof.
  intros t i l.
  destruct (member_issues_roundtrip ClientCompatIssueList.new
              (lit "Foo") (lit "x") false [i] []) as (Hsame & Hother & _);
    [done|].
  split; [exact Hsame|]. subst l.
  rewrite (Hother (lit "Foo") (lit "x") true) by (by intros (_ & _ & ?)).
  reflexivity.
Defined.

Section CheckerResults.

Implicit Types (l : ClientCompatIssueList) (issues : list Issue).

Lemma storedIssues_nonempty (x : StoredIssues) :
  storedWellFormed x → storedIssues (Some x) ≠ [].
Proof. destruct x as [i|[|i more]]; cbn; [done|lia|done]. Qed.

Lemma _collect_concat (get : ClientCompatIssueList → list Issue → list Issue)
  (found : ClientCompatIssueList → list Issue) lists issues :
  (∀ l out, get l out = out ++ found l) →
  ClientCompatChecker._collect get lists issues
  = issues ++ concat (found <$> lists).
Proof.
  intros Hget. unfold ClientCompatChecker._collect.
  revert issues. induction lists as [|l lists IH]; intros issues.
  - cbn. by rewrite app_nil_r.
  - cbn [foldl fmap list_fmap concat]. rewrite IH, Hget.
    by rewrite <- app_assoc.
Qed.

Lemma grown issues (new : list Issue) :
  negb (length (issues ++ new) =? length issues)%nat
  = negb (bool_decide (new = [])).
Proof.
  rewrite length_app. destruct new as [|i new]; cbn [length].
  - rewrite Nat.add_0_r, Nat.eqb_refl. done.
  - destruct (Nat.eqb_spec (length issues + S (length new)) (length issues));
      [lia|done].
Qed.

Lemma concat_nil_iff {A} (ls : list (list A)) :
  concat ls = [] ↔ Forall (λ x, x = []) ls.
Proof.
  induction ls as [|x ls IH]; [by split|]. cbn [concat]. split.
  - intros [-> H]%app_eq_nil. constructor; [done|by apply IH].
  - intros [-> H]%Forall_cons. by apply IH.
Qed.

Lemma concat_found_nonempty
  (found : ClientCompatIssueList → option StoredIssues)
  (lists : list ClientCompatIssueList) :
  Forall (λ l, ∀ x, found l = Some x → storedWellFormed x) lists →
  (concat ((λ l, storedIssues (found l)) <$> lists) ≠ []
   ↔ Exists (λ l, is_Some (found l)) lists).
Proof.
  induction 1 as [|l lists Hl _ IH]; cbn [fmap list_fmap concat].
  - split; [done|]. by intros ?%Exists_nil.
  - rewrite Exists_cons. destruct (found l) as [x|] eqn:Hx.
    + split; [by left; eauto|]. intros _ Heq.
      apply app_eq_nil in Heq as [Heq _].
      by apply (storedIssues_nonempty x (Hl x eq_refl)).
    + cbn [storedIssues app]. rewrite IH. split; [by right|].
      intros [[? ?]|?]; done.
Qed.

End CheckerResults.

(** X16. The issue lists built from the empty list with the two [set]
    methods store no empty array.  On such lists [checkGlobal] and
    [checkPropertyOrEvent] append, after the issues already in the
    array, the stored issues of each client in the order of the clients,
    and return [true] exactly when some client's list has an entry for
    the key. *)
Theorem checker_collects_per_client
  (c : ClientCompatChecker) (issues : list Issue) :
  (issueListWellFormed ClientCompatIssueList.new
   ∧ (∀ l name stored, issueListWellFormed l →
        issueListWellFormed (ClientCompatIssueList.setIssuesForGlobal l name stored))
   ∧ (∀ l T p ev stored, issueListWellFormed l →
        issueListWellFormed
          (ClientCompatIssueList.setIssuesForPropertyOrEvent l T p ev stored)))
  ∧ (Forall issueListWellFormed (m_clientIssueLists c) →
     (∀ name,
        let r := ClientCompatChecker.checkGlobal c name issues in
        r.2 = issues
              ++ concat ((λ l, storedIssues (m_global l !! name))
                           <$> m_clientIssueLists c)
        ∧ (r.1 = true
           ↔ Exists (λ l, is_Some (m_global l !! name)) (m_clientIssueLists c)))
     ∧ (∀ T p ev,
          let r := ClientCompatChecker.checkPropertyOrEvent c T p ev issues in
          r.2 = issues
                ++ concat ((λ l, storedIssues (storedForMember l T p ev))
                             <$> m_clientIssueLists c)
          ∧ (r.1 = true
             ↔ Exists (λ l, is_Some (storedForMember l T p ev))
                 (m_clientIssueLists c)))).
Proof.
  split.
  - split_and!.
    + by repeat split.
    + intros l name stored (Hg & Hp & He).
      unfold ClientCompatIssueList.setIssuesForGlobal.
      destruct (length stored =? 0)%nat eqn:Hlen; [done|].
      split_and!; try done. cbn [m_global].
      apply map_Forall_insert_2; [|done]. apply _stored_wf. by intros ->.
    + intros l T p ev stored (Hg & Hp & He).
      unfold ClientCompatIssueList.setIssuesForPropertyOrEvent.
      destruct (length stored =? 0)%nat eqn:Hlen; [done|].
      assert (storedWellFormed (ClientCompatIssueList._stored stored)) as Hwf
          by (apply _stored_wf; by intros ->).
      destruct ev; (split_and!; try done);
        cbn [m_events m_properties];
        (apply map_Forall_insert_2; [|done]);
        (apply map_Forall_insert_2; [done|]).
      * destruct (m_events l !! T) as [d|] eqn:Hd; cbn [default];
          [by apply (He T d)|apply map_Forall_empty].
      * destruct (m_properties l !! T) as [d|] eqn:Hd; cbn [default];
          [by apply (Hp T d)|apply map_Forall_empty].
  - intros Hwf.
    assert (∀ (found : ClientCompatIssueList → option StoredIssues),
              Forall (λ l, ∀ x, found l = Some x → storedWellFormed x)
                (m_clientIssueLists c) →
              (negb (bool_decide
                       (concat ((λ l, storedIssues (found l))
                                  <$> m_clientIssueLists c) = [])) = true
               ↔ Exists (λ l, is_Some (found l)) (m_clientIssueLists c)))
      as Hany.
    { intros found Hfound. rewrite negb_true_iff, bool_decide_eq_false.
      by apply concat_found_nonempty. }
    split.
    + intros name r. unfold r, ClientCompatChecker.checkGlobal. cbn [fst snd].
      rewrite (_collect_concat _ (λ l, storedIssues (m_global l !! name)))
        by (intros; apply getIssuesForGlobal_stored).
      split; [done|]. rewrite grown. apply Hany.
      eapply Forall_impl; [exact Hwf|]. intros l (Hg & _) x Hx.
      by apply (Hg name x).
    + intros T p ev r. unfold r, ClientCompatChecker.checkPropertyOrEvent.
      cbn [fst snd].
      rewrite (_collect_concat _ (λ l, storedIssues (storedForMember l T p ev)))
        by (intros; apply getIssuesForPropertyOrEvent_stored).
      split; [done|]. rewrite grown. apply Hany.
      eapply Forall_impl; [exact Hwf|]. intros l (_ & Hp & He) x.
      unfold storedForMember.
      destruct ev.
      * destruct (m_events l !! T) as [d|] eqn:Hd; cbn [mbind option_bind];
          [|done]. intros Hx. by apply (He T d Hd p x).
      * destruct (m_properties l !! T) as [d|] eqn:Hd; cbn [mbind option_bind];
          [|done]. intros Hx. by apply (Hp T d Hd p x).
Qed.

Lemma checker_collects_per_client_witness :
  let t := ClientInfo.new (lit "a") (lit "Browser A")
             Version.minVal Version.maxVal in
  let i := Issue.new3 (lit "Foo") t NOT_SUPPORTED in
  let l := ClientCompatIssueList.setIssuesForGlobal
             ClientCompatIssueList.new (lit "Foo") [i] in
  let c := mkClientCompatChecker [ClientCompatIssueList.new; l] ∅ in
  (ClientCompatChecker.checkGlobal c (lit "Foo") []).1 = true.
Proof.
  intros t i l c.
  destruct (checker_collects_per_client c []) as ((Hnew & Hset & _) & Hcheck).
  destruct Hcheck as [Hglobal _].
  - constructor; [exact Hnew|].
    constructor; [exact (Hset _ _ _ Hnew)|constructor].
  - apply (Hglobal (lit "Foo")). apply Exists_cons_tl, Exists_cons_hd.
    vm_compute. eauto.
Defined.

(** ** The whitelist *)

Section WhitelistFacts.

Implicit Types (w : Whitelist) (m : gmap jsstring (gset jsstring)).
Implicit Types (T p e r str name : jsstring).

Lemma listed_insert m T p T' p' :
  listed (<[T := {[p]} ∪ default ∅ (m !! T)]> m) T' p'
  ↔ (T' = T ∧ p' = p) ∨ listed m T' p'.
Proof.
  unfold listed. destruct (decide (T' = T)) as [->|Hne].
  - rewrite lookup_insert_eq. split.
    + intros (s & [= <-] & Hin). apply elem_of_union in Hin as [Hin|Hin].
      * left. split; [done|]. by apply elem_of_singleton in Hin.
      * right. destruct (m !! T) as [s|]; [by exists s|].
        cbn in Hin. by apply not_elem_of_empty in Hin.
    + intros [[_ ->]|(s & Hs & Hin)]; eexists; (split; [done|]).
      * apply elem_of_union_l. by apply elem_of_singleton.
      * apply elem_of_union_r. by rewrite Hs.
  - rewrite lookup_insert_ne by done. split; [by right|].
    by intros [[? _]|?].
Qed.

Lemma isPropertyOrEventWhitelisted_spec w T p ev :
  Whitelist.isPropertyOrEventWhitelisted w T p ev = true
  ↔ let m := if ev then wl_events w else wl_properties w in
    listed m T p ∨ listed m T (lit "*").
Proof.
  unfold Whitelist.isPropertyOrEventWhitelisted, listed. cbn zeta.
  destruct ((if ev then wl_events w else wl_properties w) !! T) as [s|].
  - rewrite orb_true_iff, !bool_decide_eq_true. split.
    + intros [?|?]; [left|right]; by exists s.
    + intros [(s' & [= <-] & ?)|(s' & [= <-] & ?)]; [by left|by right].
  - split; [done|]. by intros [(s & ? & _)|(s & ? & _)].
Qed.

Lemma split_at_first c (A A' B B' : jsstring) :
  c ∉ A → c ∉ A' → A ++ c :: B = A' ++ c :: B' → A = A' ∧ B = B'.
Proof.
  revert A'. induction A as [|a A IH]; intros [|a' A'] HA HA' Heq.
  - by injection Heq as ->.
  - injection Heq as <- _. by apply not_elem_of_cons in HA' as [? _].
  - injection Heq as -> _. by apply not_elem_of_cons in HA as [? _].
  - injection Heq as -> Heq.
    apply not_elem_of_cons in HA as [_ HA].
    apply not_elem_of_cons in HA' as [_ HA'].
    destruct (IH A' HA HA' Heq) as [-> ->]. done.
Qed.

Lemma substring_from_after c (A B : jsstring) :
  substring_from (A ++ c :: B) (Z.of_nat (length A) + 1) = B.
Proof.
  rewrite cons_middle, app_assoc. apply substring_from_suffix.
  rewrite length_app. cbn [length]. lia.
Qed.

Lemma _addEntry_cases w str :
  ((46%N ∉ str) ∧ Whitelist._addEntry w str = Whitelist.addGlobal w str)
  ∨ (∃ T e, str = T ++ lit ".@" ++ e ∧ (46%N ∉ T)
            ∧ Whitelist._addEntry w str = Whitelist.addEvent w T e)
  ∨ (∃ T r, str = T ++ lit "." ++ r ∧ (46%N ∉ T)
            ∧ startsWith r (lit "@") = false
            ∧ Whitelist._addEntry w str = Whitelist.addProperty w T r).
Proof.
  unfold Whitelist._addEntry.
  destruct (decide (46%N ∈ str)) as [Hin|Hnin].
  - right. apply list_elem_of_split_l in Hin as (T & r & -> & HT).
    change (lit ".") with [46%N].
    rewrite indexOf_first by done.
    destruct (Z.eqb_spec (Z.of_nat (length T)) (-1)) as [?|_]; [lia|].
    rewrite substring_prefix, substring_from_after.
    destruct r as [|c r].
    + right. exists T, []. split_and!; try done.
      rewrite length_app. cbn [length].
      destruct (Z.eqb_spec (Z.of_nat (length T))
                  (Z.of_nat (length T + 1) - 1)) as [_|?]; [|lia].
      reflexivity.
    + assert (JSString.charCodeAt (T ++ 46%N :: c :: r)
                (Z.of_nat (length T) + 1) = Some c) as ->.
      { unfold JSString.charCodeAt, jsstring.
        replace (Z.to_nat (Z.of_nat (length T) + 1)) with (length T + 1)%nat
          by lia.
        rewrite lookup_app_r by lia.
        by replace (length T + 1 - length T)%nat with 1%nat by lia. }
      rewrite length_app. cbn [length].
      destruct (Z.eqb_spec (Z.of_nat (length T))
                  (Z.of_nat (length T + S (S (length r))) - 1)) as [?|_]; [lia|].
      cbn [negb andb].
      case_bool_decide as Hc.
      * injection Hc as ->. left. exists T, r. split_and!; try done.
        f_equal.
        replace (Z.of_nat (length T) + 2)
          with (Z.of_nat (length (T ++ [46%N])) + 1)
          by (rewrite length_app; cbn [length]; lia).
        rewrite (cons_middle 46%N), app_assoc.
        apply substring_from_after.
      * right. exists T, (c :: r). split_and!; try done.
        change (lit "@") with [64%N]. rewrite startsWith_cons_single.
        destruct (N.eqb_spec 64 c) as [<-|_]; [done|reflexivity].
  - left. split; [done|].
    change (lit ".") with [46%N]. by rewrite indexOf_absent.
Qed.

Lemma dotted_has_dot T r : 46%N ∈ T ++ lit "." ++ r.
Proof. apply elem_of_app. right. by left. Qed.

Lemma foldl_addEntry strings : ∀ w,
  let w' := foldl Whitelist._addEntry w strings in
  (∀ name, name ∈ wl_global w'
           ↔ name ∈ wl_global w ∨ (name ∈ strings ∧ (46%N ∉ name)))
  ∧ (∀ T p, listed (wl_properties w') T p
            ↔ listed (wl_properties w) T p
              ∨ ((46%N ∉ T) ∧ startsWith p (lit "@") = false
                 ∧ T ++ lit "." ++ p ∈ strings))
  ∧ (∀ T e, listed (wl_events w') T e
            ↔ listed (wl_events w) T e
              ∨ ((46%N ∉ T) ∧ T ++ lit ".@" ++ e ∈ strings)).
Proof.
  induction strings as [|str strings IH]; intros w.
  - cbn. split_and!; intros; (split; [by left|]); intros [?|Hin]; try done.
    + destruct Hin as [Hin _]. by apply elem_of_nil in Hin.
    + destruct Hin as (_ & _ & Hin). by apply elem_of_nil in Hin.
    + destruct Hin as (_ & Hin). by apply elem_of_nil in Hin.
  - cbn [foldl]. destruct (IH (Whitelist._addEntry w str)) as (Hg & Hp & He).
    cbn zeta in *. clear IH.
    destruct (_addEntry_cases w str)
      as [[Hnodot Hadd]|[(T0 & e0 & -> & HT0 & Hadd)
                         |(T0 & r0 & -> & HT0 & Hr0 & Hadd)]];
      rewrite Hadd in Hg, Hp, He |- *; clear Hadd.
    + split_and!.
      * intros name. rewrite Hg. cbn [Whitelist.addGlobal wl_global].
        rewrite elem_of_union, elem_of_singleton, elem_of_cons. intuition (subst; try done; auto).
      * intros T p. rewrite Hp. cbn [Whitelist.addGlobal wl_properties].
        rewrite elem_of_cons.
        pose proof (dotted_has_dot T p). intuition (subst; try done; auto).
      * intros T e. rewrite He. cbn [Whitelist.addGlobal wl_events].
        rewrite elem_of_cons.
        pose proof (dotted_has_dot T (lit "@" ++ e)). intuition (subst; try done; auto).
    + split_and!.
      * intros name. rewrite Hg. cbn [Whitelist.addEvent wl_global].
        rewrite elem_of_cons.
        pose proof (dotted_has_dot T0 (lit "@" ++ e0)). intuition (subst; try done; auto).
      * intros T p. rewrite Hp. cbn [Whitelist.addEvent wl_properties].
        rewrite elem_of_cons. split; [intuition (subst; try done; auto)|].
        intros [?|(HT & Hat & [Heq|?])]; [by left| |by right].
        apply (split_at_first 46%N T T0 p (lit "@" ++ e0)) in Heq
          as [-> ->]; try done.
      * intros T e. rewrite He. cbn [Whitelist.addEvent wl_events].
        rewrite listed_insert, elem_of_cons. split.
        -- intros [[[-> ->]|?]|?]; [right|by left|intuition (subst; try done; auto)].
           split; [done|]. by left.
        -- intros [?|(HT & [Heq|?])]; [left; by right| |by right].
           apply (split_at_first 46%N T T0 (lit "@" ++ e) (lit "@" ++ e0)) in Heq
             as [-> [= ->]]; try done. left. by left.
    + split_and!.
      * intros name. rewrite Hg. cbn [Whitelist.addProperty wl_global].
        rewrite elem_of_cons.
        pose proof (dotted_has_dot T0 r0). intuition (subst; try done; auto).
      * intros T p. rewrite Hp. cbn [Whitelist.addProperty wl_properties].
        rewrite listed_insert, elem_of_cons. split.
        -- intros [[[-> ->]|?]|?]; [right|by left|intuition (subst; try done; auto)].
           split_and!; try done. by left.
        -- intros [?|(HT & Hat & [Heq|?])]; [left; by right| |by right].
           apply (split_at_first 46%N T T0 p r0) in Heq
             as [-> ->]; try done. left. by left.
      * intros T e. rewrite He. cbn [Whitelist.addProperty wl_events].
        rewrite elem_of_cons. split; [intuition (subst; try done; auto)|].
        intros [?|(HT & [Heq|?])]; [by left| |by right].
        apply (split_at_first 46%N T T0 (lit "@" ++ e) r0) in Heq
          as [-> <-]; try done.
Qed.

End WhitelistFacts.

Section WhitelistParsing.

Lemma _ensureWhitelistArgumentValid_spec (items : list jsval)
  (strings : list jsstring) :
  Whitelist._ensureWhitelistArgumentValid (JArray items) = Some strings
  ↔ items = JString <$> strings.
Proof.
  unfold Whitelist._ensureWhitelistArgumentValid. rewrite mapM_Some.
  split.
  - induction 1 as [|x s items strings Hx _ IH]; [done|].
    destruct x; try done. injection Hx as ->. cbn. by rewrite IH.
  - intros ->. induction strings as [|s strings IH]; by constructor.
Qed.

End WhitelistParsing.

(** X17. Adding to a whitelist and asking it.  After [addProperty T p]
    a property lookup succeeds exactly when it succeeded before, or is
    on the type [T] and either asks for [p] or [p] is the wildcard
    ["*"]; event lookups and global lookups are unchanged.  The same
    holds for [addEvent] with the roles of properties and events
    exchanged.  [addGlobal] adds exactly that one name, for which ["*"]
    is no wildcard, and leaves the member lookups unchanged.  The new
    whitelist lists nothing. *)
Theorem whitelist_add_lookup
  (w : Whitelist) (T p T' p' name name' : jsstring) (ev : bool) :
  let wildcard := bool_decide (p' = p) || bool_decide (p = lit "*") in
  Whitelist.isPropertyOrEventWhitelisted (Whitelist.addProperty w T p) T' p' ev
  = Whitelist.isPropertyOrEventWhitelisted w T' p' ev
    || (negb ev && bool_decide (T' = T) && wildcard)
  ∧ Whitelist.isPropertyOrEventWhitelisted (Whitelist.addEvent w T p) T' p' ev
    = Whitelist.isPropertyOrEventWhitelisted w T' p' ev
      || (ev && bool_decide (T' = T) && wildcard)
  ∧ Whitelist.isPropertyOrEventWhitelisted (Whitelist.addGlobal w name) T' p' ev
    = Whitelist.isPropertyOrEventWhitelisted w T' p' ev
  ∧ Whitelist.isGlobalWhitelisted (Whitelist.addGlobal w name) name'
    = Whitelist.isGlobalWhitelisted w name' || bool_decide (name' = name)
  ∧ Whitelist.isGlobalWhitelisted (Whitelist.addProperty w T p) name'
    = Whitelist.isGlobalWhitelisted w name'
  ∧ Whitelist.isGlobalWhitelisted (Whitelist.addEvent w T p) name'
    = Whitelist.isGlobalWhitelisted w name'
  ∧ Whitelist.isGlobalWhitelisted Whitelist.new name' = false
  ∧ Whitelist.isPropertyOrEventWhitelisted Whitelist.new T' p' ev = false.
Proof.
  intros wildcard.
  assert (∀ m : gmap jsstring (gset jsstring),
            (listed (<[T := {[p]} ∪ default ∅ (m !! T)]> m) T' p'
             ∨ listed (<[T := {[p]} ∪ default ∅ (m !! T)]> m) T' (lit "*"))
            ↔ ((listed m T' p' ∨ listed m T' (lit "*"))
               ∨ (T' = T ∧ (p' = p ∨ p = lit "*")))) as Hadd.
  { intros m. rewrite !listed_insert.
    intuition (subst; try done; auto). }
  split_and!.
  - apply eq_iff_eq_true.
    rewrite orb_true_iff, !andb_true_iff, negb_true_iff.
    unfold wildcard. rewrite orb_true_iff, !bool_decide_eq_true.
    rewrite !isPropertyOrEventWhitelisted_spec. cbn zeta.
    destruct ev; cbn [Whitelist.addProperty wl_properties wl_events].
    + intuition (try done; auto).
    + rewrite Hadd. intuition (try done; auto).
  - apply eq_iff_eq_true.
    rewrite orb_true_iff, !andb_true_iff.
    unfold wildcard. rewrite orb_true_iff, !bool_decide_eq_true.
    rewrite !isPropertyOrEventWhitelisted_spec. cbn zeta.
    destruct ev; cbn [Whitelist.addEvent wl_properties wl_events].
    + rewrite Hadd. intuition (try done; auto).
    + intuition (try done; auto).
  - by destruct ev.
  - unfold Whitelist.isGlobalWhitelisted. apply eq_iff_eq_true.
    rewrite orb_true_iff, !bool_decide_eq_true.
    cbn [Whitelist.addGlobal wl_global].
    rewrite elem_of_union, elem_of_singleton. tauto.
  - reflexivity.
  - reflexivity.
  - reflexivity.
  - by destruct ev.
Qed.

(** X18. What [parseWhitelist] makes of an array of strings.  Every
    string is split at its first ["."]: a global is whitelisted exactly
    when its name is in the array and has no dot; a property [p] of [T]
    exactly when [T] has no dot and the array holds ["T.*"], or holds
    ["T.p"] where [p] does not start with ["@"]; an event [e] of [T]
    exactly when [T] has no dot and the array holds ["T.@e"] or
    ["T.@*"]. *)
Theorem parseWhitelist_entries (strings : list jsstring) :
  ∃ w, Whitelist.parseWhitelist (JArray (JString <$> strings)) = Some w
  ∧ (∀ name,
       Whitelist.isGlobalWhitelisted w name = true
       ↔ name ∈ strings ∧ (46%N ∉ name))
  ∧ (∀ T p,
       Whitelist.isPropertyOrEventWhitelisted w T p false = true
       ↔ (46%N ∉ T)
         ∧ ((startsWith p (lit "@") = false ∧ T ++ lit "." ++ p ∈ strings)
            ∨ T ++ lit ".*" ∈ strings))
  ∧ (∀ T e,
       Whitelist.isPropertyOrEventWhitelisted w T e true = true
       ↔ (46%N ∉ T)
         ∧ (T ++ lit ".@" ++ e ∈ strings ∨ T ++ lit ".@*" ∈ strings)).
Proof.
  exists (foldl Whitelist._addEntry Whitelist.new strings).
  destruct (foldl_addEntry strings Whitelist.new) as (Hg & Hp & He).
  cbn zeta in *.
  assert (∀ T p, ¬ listed (∅ : gmap jsstring (gset jsstring)) T p) as Hempty
      by (by intros T p (s & Hs & _)).
  split_and!.
  - unfold Whitelist.parseWhitelist.
    by rewrite (proj2 (_ensureWhitelistArgumentValid_spec _ strings) eq_refl).
  - intros name. unfold Whitelist.isGlobalWhitelisted.
    rewrite bool_decide_eq_true, Hg. cbn [Whitelist.new wl_global].
    rewrite elem_of_empty. tauto.
  - intros T p. rewrite isPropertyOrEventWhitelisted_spec. cbn zeta.
    rewrite !Hp. cbn [Whitelist.new wl_properties].
    change (T ++ lit "." ++ lit "*") with (T ++ lit ".*").
    change (startsWith (lit "*") (lit "@")) with false.
    pose proof (Hempty T p). pose proof (Hempty T (lit "*")). tauto.
  - intros T e. rewrite isPropertyOrEventWhitelisted_spec. cbn zeta.
    rewrite !He. cbn [Whitelist.new wl_events].
    change (T ++ lit ".@" ++ lit "*") with (T ++ lit ".@*").
    pose proof (Hempty T e). pose proof (Hempty T (lit "*")). tauto.
Qed.

Lemma parseWhitelist_entries_witness :
  ∃ w,
    Whitelist.parseWhitelist
      (JArray [JString (lit "fetch"); JString (lit "Element.*");
               JString (lit "Window.@load")])
    = Some w
    ∧ Whitelist.isGlobalWhitelisted w (lit "fetch") = true
    ∧ Whitelist.isPropertyOrEventWhitelisted
        w (lit "Element") (lit "animate") false = true
    ∧ Whitelist.isPropertyOrEventWhitelisted
        w (lit "Window") (lit "load") true = true.
Proof.
  destruct (parseWhitelist_entries
              [lit "fetch"; lit "Element.*"; lit "Window.@load"])
    as (w & Hw & Hglobal & Hproperty & Hevent).
  exists w. split; [exact Hw|]. split_and!.
  - apply Hglobal. split; apply (bool_decide_unpack _); vm_compute; exact I.
  - apply Hproperty. split; [apply (bool_decide_unpack _); vm_compute; exact I|].
    right. apply (bool_decide_unpack _). vm_compute. exact I.
  - apply Hevent. split; [apply (bool_decide_unpack _); vm_compute; exact I|].
    left. apply (bool_decide_unpack _). vm_compute. exact I.
Defined.

(** X19. The argument of [parseWhitelist]: [undefined] gives the new,
    empty whitelist; any other argument is accepted exactly when it is
    an array of strings, and is a TypeError otherwise. *)
Theorem parseWhitelist_argument (whitelistArg : jsval) :
  Whitelist.parseWhitelist JUndefined = Some Whitelist.new
  ∧ (is_Some (Whitelist.parseWhitelist whitelistArg)
     ↔ whitelistArg = JUndefined
       ∨ ∃ strings : list jsstring, whitelistArg = JArray (JString <$> strings)).
Proof.
  split; [reflexivity|]. split.
  - intros [w Hw]. destruct whitelistArg as [| | | | |items|];
      try done; [by left|].
    right. unfold Whitelist.parseWhitelist in Hw.
    destruct (Whitelist._ensureWhitelistArgumentValid (JArray items))
      as [strings|] eqn:Hvalid; [|done].
    exists strings. f_equal. by apply _ensureWhitelistArgumentValid_spec.
  - intros [->|[strings ->]]; [by eexists|].
    unfold Whitelist.parseWhitelist.
    rewrite (proj2 (_ensureWhitelistArgumentValid_spec _ strings) eq_refl).
    by eexists.
Qed.

Lemma parseWhitelist_argument_witness :
  is_Some (Whitelist.parseWhitelist (JArray [JString (lit "fetch")]))
  ∧ Whitelist.parseWhitelist (JArray [JNumber 1]) = None.
Proof.
  split.
  - apply (parseWhitelist_argument (JArray [JString (lit "fetch")])).
    right. by exists [lit "fetch"].
  - destruct (Whitelist.parseWhitelist (JArray [JNumber 1])) as [w|] eqn:Hw;
      [|reflexivity].
    destruct (proj1 (proj2 (parseWhitelist_argument (JArray [JNumber 1]))))
      as [Hundef|[strings Hstrings]].
    + rewrite Hw. by eexists.
    + discriminate Hundef.
    + by destruct strings as [|s strings].
Defined.

(** ** Loading the members of a type *)

Section Loading.

Context `{ClientCompatCheckerFlags}.

Implicit Types (l : ClientCompatIssueList) (n p m typeName : jsstring).

Lemma startsWith_inv (s pat : jsstring) :
  startsWith s pat = true → ∃ r, s = pat ++ r.
Proof.
  revert s. induction pat as [|c pat IH]; intros s Hs; [by exists s|].
  destruct s as [|c' s]; [done|]. cbn [startsWith] in Hs.
  apply andb_true_iff in Hs as [Hc Hs]. apply N.eqb_eq in Hc as ->.
  destruct (IH s Hs) as [r ->]. by exists r.
Qed.

Lemma endsWith_app (s pat : jsstring) :
  JSString.endsWith (s ++ pat) pat = true.
Proof.
  unfold JSString.endsWith. rewrite length_app.
  apply andb_true_iff. split; [apply Nat.leb_le; lia|].
  replace (length s + length pat - length pat)%nat with (length s) by lia.
  rewrite drop_app_length. rewrite <- (app_nil_r pat) at 1.
  apply startsWith_app.
Qed.

Lemma endsWith_inv (s pat : jsstring) :
  JSString.endsWith s pat = true →
  s = take (length s - length pat) s ++ pat.
Proof.
  unfold JSString.endsWith. intros [Hlen Hs]%andb_true_iff.
  apply Nat.leb_le in Hlen. apply startsWith_inv in Hs as [r Hr].
  assert (r = []) as ->.
  { apply (f_equal length) in Hr. rewrite length_drop, length_app in Hr.
    destruct r; [done|]. cbn [length] in Hr. lia. }
  rewrite app_nil_r in Hr.
  transitivity (take (length s - length pat) s ++ drop (length s - length pat) s);
    [by rewrite take_drop|by rewrite Hr].
Qed.

Lemma indexOf_present c (s : jsstring) :
  (indexOf s [c] =? -1) = false ↔ c ∈ s.
Proof.
  split.
  - intros Hidx. destruct (decide (c ∈ s)) as [|Hnin]; [done|].
    rewrite indexOf_absent in Hidx by done. done.
  - intros (A & B & -> & HA)%list_elem_of_split_l.
    rewrite indexOf_first by done. apply Z.eqb_neq. lia.
Qed.

Lemma endsWith_memberKey p :
  JSString.endsWith (memberKey p true) (lit "_event") = true.
Proof. apply endsWith_app. Qed.

Lemma memberKey_event_underscore p : 95%N ∈ memberKey p true.
Proof. apply elem_of_app. right. by left. Qed.

(** A key stands for at most one member that the loader reads. *)
Lemma memberKey_inj typeName p ev m isEvent :
  (ev = false → propertyMember typeName p) →
  (isEvent = false → propertyMember typeName m) →
  memberKey p ev = memberKey m isEvent → p = m ∧ ev = isEvent.
Proof.
  intros Hp Hm Hkey. destruct ev, isEvent; cbn [memberKey] in Hkey.
  - by apply app_inv_tail in Hkey.
  - destruct (Hm eq_refl) as (Hno & _). rewrite <- Hkey in Hno.
    by destruct Hno; apply (memberKey_event_underscore p).
  - destruct (Hp eq_refl) as (Hno & _). rewrite Hkey in Hno.
    by destruct Hno; apply (memberKey_event_underscore m).
  - done.
Qed.

(** What the loop does with the member name [n]: it is loaded as the
    member that it is the key of, or it is skipped, and then it is the
    key of no member that the loader reads. *)
Lemma _loadAllMemberIssuesForClient_cons (t : ClientInfo) typeName n
  (rest : list jsstring) (sourceData : gmap jsstring FeatureNode)
  (flagBits : Z) l :
  (∃ m isEvent,
     memberKey m isEvent = n
     ∧ (isEvent = false → propertyMember typeName m)
     ∧ Loader._loadAllMemberIssuesForClient
         t typeName (n :: rest) sourceData flagBits l
       = (node ← Loader._memberNode sourceData n;
          l1 ← Loader._loadMemberIssuesForClient
                 t typeName m isEvent
                 (bool_decide (typeName ∈ Loader._windowInterfaces))
                 node flagBits l;
          Loader._loadAllMemberIssuesForClient
            t typeName rest sourceData flagBits l1))
  ∨ ((∀ p ev, memberKey p ev = n → ev = false ∧ ¬ propertyMember typeName p)
     ∧ Loader._loadAllMemberIssuesForClient
         t typeName (n :: rest) sourceData flagBits l
       = Loader._loadAllMemberIssuesForClient
           t typeName rest sourceData flagBits l).
Proof.
  cbn [Loader._loadAllMemberIssuesForClient].
  destruct (JSString.endsWith n (lit "_event")) eqn:Hevent.
  - left. apply endsWith_inv in Hevent.
    set (m := take (length n - length (lit "_event")) n) in *.
    assert (substring n 0 (Z.of_nat (length n) - 6) = m) as ->.
    { rewrite Hevent. rewrite length_app.
      change (length (lit "_event")) with 6%nat.
      replace (Z.of_nat (length m + 6) - 6) with (Z.of_nat (length m)) by lia.
      apply substring_prefix. }
    exists m, true. split_and!; done.
  - cbn [negb andb].
    destruct (indexOf n (lit "_") =? -1) eqn:Hunder; cbn [negb orb].
    + destruct (startsWith n (lit "@@")) eqn:Hat; cbn [orb].
      * right. split; [|done]. intros p [|] <-.
        -- by rewrite endsWith_memberKey in Hevent.
        -- split; [done|]. intros (_ & Hno & _). cbn [memberKey] in Hat.
           congruence.
      * case_bool_decide as Htype.
        -- right. split; [|done]. intros p [|] <-.
           ++ by rewrite endsWith_memberKey in Hevent.
           ++ split; [done|]. by intros (_ & _ & Hne).
        -- left. exists n, false. split_and!; [done| |done].
           intros _. split_and!; [|done|done].
           intros Hin. apply (indexOf_present 95%N) in Hin.
           change (lit "_") with [95%N] in Hunder. congruence.
    + right. split; [|done]. intros p [|] <-.
      * by rewrite endsWith_memberKey in Hevent.
      * split; [done|]. intros (Hno & _). destruct Hno.
        by apply (indexOf_present 95%N).
Qed.

End Loading.

Section LoadingResult.

Context `{ClientCompatCheckerFlags}.

Variables (t : ClientInfo) (typeName : jsstring).
Variables (sourceData : gmap jsstring FeatureNode) (flagBits : Z).

Implicit Types (l : ClientCompatIssueList) (n p m T : jsstring).
Implicit Types (names rest : list jsstring).

Lemma storedIssues_stored (issues : list Issue) :
  storedIssues (Some (ClientCompatIssueList._stored issues)) = issues.
Proof. by destruct issues as [|i [|j issues]]. Qed.

Lemma storedForMember_setGlobal l name issues T p ev :
  storedForMember (ClientCompatIssueList.setIssuesForGlobal l name issues) T p ev
  = storedForMember l T p ev.
Proof.
  unfold ClientCompatIssueList.setIssuesForGlobal.
  by destruct (length issues =? 0)%nat.
Qed.

Lemma m_global_setMember l T' p' ev' issues :
  m_global (ClientCompatIssueList.setIssuesForPropertyOrEvent l T' p' ev' issues)
  = m_global l.
Proof.
  unfold ClientCompatIssueList.setIssuesForPropertyOrEvent.
  destruct (length issues =? 0)%nat; [done|]. by destruct ev'.
Qed.

(** What loading one member stores, when its derivation returns. *)
Lemma _loadMemberIssuesForClient_Some m isEvent isWindowGlobal node l l1 :
  Loader._loadMemberIssuesForClient
    t typeName m isEvent isWindowGlobal node flagBits l = Some l1 →
  ∃ issues,
    CompatData._getIssuesFromCompatStatement
      t typeName (Some m) (__compat node) flagBits [] = Some issues
    ∧ (∀ T p ev,
         storedForMember l1 T p ev
         = if bool_decide (T = typeName ∧ p = m ∧ ev = isEvent)
              && negb (bool_decide (issues = []))
           then Some (ClientCompatIssueList._stored issues)
           else storedForMember l T p ev)
    ∧ (∀ name,
         m_global l1 !! name
         = if isWindowGlobal && negb isEvent && bool_decide (name = m)
              && negb (bool_decide (issues = []))
           then Some (ClientCompatIssueList._stored issues)
           else m_global l !! name).
Proof.
  unfold Loader._loadMemberIssuesForClient.
  destruct (CompatData._getIssuesFromCompatStatement _ _ _ _ _ _)
    as [issues|]; [|done].
  cbn [mbind option_bind]. intros [= <-]. exists issues.
  split; [done|]. split.
  - intros T p ev.
    assert (storedForMember
              (ClientCompatIssueList.setIssuesForPropertyOrEvent
                 l typeName m isEvent issues) T p ev
            = if bool_decide (T = typeName ∧ p = m ∧ ev = isEvent)
                 && negb (bool_decide (issues = []))
              then Some (ClientCompatIssueList._stored issues)
              else storedForMember l T p ev) as Hset.
    { destruct (decide (issues = [])) as [Hnil|Hne].
      - rewrite Hnil, setIssuesForPropertyOrEvent_empty.
        by rewrite andb_false_r.
      - rewrite (bool_decide_eq_false_2 _ Hne), andb_true_r.
        by apply storedForMember_set. }
    destruct (isWindowGlobal && negb isEvent); [|done].
    by rewrite storedForMember_setGlobal.
  - intros name.
    destruct (isWindowGlobal && negb isEvent); cbn [andb];
      [|by rewrite m_global_setMember].
    unfold ClientCompatIssueList.setIssuesForGlobal.
    destruct (length issues =? 0)%nat eqn:Hlen.
    + apply length_zero in Hlen. rewrite Hlen, m_global_setMember.
      by rewrite andb_false_r.
    + assert (issues ≠ []) as Hne by (intros Hnil; by rewrite Hnil in Hlen).
      rewrite (bool_decide_eq_false_2 _ Hne), andb_true_r.
      cbn [m_global]. rewrite m_global_setMember.
      case_bool_decide as Hname.
      * subst name. by rewrite lookup_insert_eq.
      * by rewrite lookup_insert_ne.
Qed.

Lemma loadedMember_cons n rest p ev :
  loadedMember typeName (n :: rest) p ev
  ↔ (memberKey p ev = n ∧ (ev = false → propertyMember typeName p))
    ∨ loadedMember typeName rest p ev.
Proof. unfold loadedMember. rewrite elem_of_cons. tauto. Qed.

Lemma memberIssues_node p ev node :
  sourceData !! memberKey p ev = Some node →
  CompatData._getIssuesFromCompatStatement
    t typeName (Some p) (__compat node) flagBits []
  = memberIssues t typeName sourceData flagBits p ev.
Proof. intros Hnode. unfold memberIssues. by rewrite Hnode. Qed.

Lemma _memberNode_own n node :
  sourceData !! n = Some node → Loader._memberNode sourceData n = Some node.
Proof.
  intros Hnode. unfold Loader._memberNode.
  by rewrite (proj2 (get_Own _ _ _) Hnode).
Qed.

(** The loop returns when the derivation of every member it reads
    does. *)
Lemma _loadAllMemberIssuesForClient_returns names :
  (∀ n, n ∈ names → is_Some (sourceData !! n)) →
  (∀ p ev,
     loadedMember typeName names p ev →
     is_Some (memberIssues t typeName sourceData flagBits p ev)) →
  ∀ l, is_Some (Loader._loadAllMemberIssuesForClient
                  t typeName names sourceData flagBits l).
Proof.
  induction names as [|n rest IH]; intros Hnodes Hfound l; [by eexists|].
  assert (∀ n', n' ∈ rest → is_Some (sourceData !! n')) as Hrest
      by (intros n' Hn'; apply Hnodes; by right).
  assert (∀ p ev,
            loadedMember typeName rest p ev →
            is_Some (memberIssues t typeName sourceData flagBits p ev))
    as Hfound' by (intros p ev Hin; apply Hfound, loadedMember_cons; by right).
  destruct (_loadAllMemberIssuesForClient_cons
              t typeName n rest sourceData flagBits l)
    as [(m & isEvent & Hkey & Hread & ->)|[_ ->]]; [|by apply IH].
  destruct (Hnodes n) as [node Hnode]; [by left|].
  rewrite (_memberNode_own _ _ Hnode). cbn [mbind option_bind].
  destruct (Hfound m isEvent) as [issues Hissues];
    [apply loadedMember_cons; by left|].
  rewrite <- (memberIssues_node m isEvent node) in Hissues
    by (by rewrite Hkey).
  unfold Loader._loadMemberIssuesForClient at 1. rewrite Hissues.
  cbn [mbind option_bind]. by apply IH.
Qed.

Lemma _loadAllMemberIssuesForClient_result names :
  NoDup names →
  (∀ n, n ∈ names → is_Some (sourceData !! n)) →
  ∀ l l',
    Loader._loadAllMemberIssuesForClient
      t typeName names sourceData flagBits l = Some l' →
    (∀ p ev,
       loadedMember typeName names p ev →
       is_Some (memberIssues t typeName sourceData flagBits p ev))
    ∧ (∀ p ev issues,
         loadedMember typeName names p ev →
         memberIssues t typeName sourceData flagBits p ev = Some issues →
         issues ≠ [] →
         storedForMember l' typeName p ev
         = Some (ClientCompatIssueList._stored issues))
    ∧ (∀ T p ev,
         ¬ (T = typeName ∧ loadedMember typeName names p ev
            ∧ ∃ issues,
                memberIssues t typeName sourceData flagBits p ev = Some issues
                ∧ issues ≠ []) →
         storedForMember l' T p ev = storedForMember l T p ev)
    ∧ (∀ p issues,
         typeName ∈ Loader._windowInterfaces →
         loadedMember typeName names p false →
         memberIssues t typeName sourceData flagBits p false = Some issues →
         issues ≠ [] →
         m_global l' !! p = Some (ClientCompatIssueList._stored issues))
    ∧ (∀ p,
         ¬ (typeName ∈ Loader._windowInterfaces
            ∧ loadedMember typeName names p false
            ∧ ∃ issues,
                memberIssues t typeName sourceData flagBits p false
                = Some issues
                ∧ issues ≠ []) →
         m_global l' !! p = m_global l !! p).
Proof.
  induction names as [|n rest IH]; intros Hnodup Hnodes l l' Hload.
  - injection Hload as <-. split_and!.
    + intros p ev [Hin _]. by apply elem_of_nil in Hin.
    + intros p ev issues [Hin _]. by apply elem_of_nil in Hin.
    + intros; reflexivity.
    + intros p issues _ [Hin _]. by apply elem_of_nil in Hin.
    + intros; reflexivity.
  - apply NoDup_cons in Hnodup as [Hfresh Hnodup].
    assert (∀ n', n' ∈ rest → is_Some (sourceData !! n')) as Hrest
        by (intros n' Hn'; apply Hnodes; by right).
    destruct (_loadAllMemberIssuesForClient_cons
                t typeName n rest sourceData flagBits l)
      as [(m & isEvent & Hkey & Hread & Heq)|[Hskip Heq]];
      rewrite Heq in Hload; clear Heq.
    + destruct (Hnodes n) as [node Hnode]; [by left|].
      rewrite (_memberNode_own _ _ Hnode) in Hload.
      cbn [mbind option_bind] in Hload.
      destruct (Loader._loadMemberIssuesForClient
                  t typeName m isEvent _ node flagBits l)
        as [l1|] eqn:Hl1; [|discriminate Hload].
      cbn [mbind option_bind] in Hload.
      destruct (_loadMemberIssuesForClient_Some _ _ _ _ _ _ Hl1)
        as (found & Hfound & Hstored & Hglobal).
      clear Hl1.
      destruct (IH Hnodup Hrest l1 l' Hload) as (HE & HA & HB & HC & HD).
      rewrite (memberIssues_node m isEvent node) in Hfound
        by (by rewrite Hkey).
      assert (¬ loadedMember typeName rest m isEvent) as Hnotrest
          by (intros [Hin _]; by rewrite Hkey in Hin).
      split_and!.
      * intros p ev [[Hp Hprop]|Hin]%loadedMember_cons; [|by apply HE].
        destruct (memberKey_inj typeName p ev m isEvent) as [-> ->];
          [done|done|congruence|].
        by exists found.
      * intros p ev issues [[Hp Hprop]|Hin]%loadedMember_cons Hissues Hne;
          [|by eapply HA].
        destruct (memberKey_inj typeName p ev m isEvent) as [-> ->];
          [done|done|congruence|].
        rewrite Hfound in Hissues. injection Hissues as ->.
        rewrite HB by tauto. rewrite Hstored.
        rewrite (bool_decide_eq_true_2 _ (conj eq_refl (conj eq_refl eq_refl))).
        by rewrite (bool_decide_eq_false_2 _ Hne).
      * intros T p ev Hnot. rewrite HB
          by (rewrite loadedMember_cons in Hnot; tauto).
        rewrite Hstored.
        destruct (decide (T = typeName ∧ p = m ∧ ev = isEvent))
          as [(-> & -> & ->)|Hdiff];
          [|by rewrite (bool_decide_eq_false_2 _ Hdiff)].
        destruct (decide (found = [])) as [Hnil|Hne];
          [by rewrite (bool_decide_eq_true_2 _ Hnil), andb_false_r|].
        destruct Hnot. split; [reflexivity|].
        split; [apply loadedMember_cons; left; split; [exact Hkey|exact Hread]|].
        exists found. split; [exact Hfound|exact Hne].
      * intros p issues Hwin [[Hp Hprop]|Hin]%loadedMember_cons Hissues Hne;
          [|exact (HC p issues Hwin Hin Hissues Hne)].
        destruct (memberKey_inj typeName p false m isEvent) as [-> <-];
          [exact Hprop|exact Hread|congruence|].
        rewrite Hfound in Hissues. injection Hissues as ->.
        rewrite HD by tauto. rewrite Hglobal.
        rewrite (bool_decide_eq_true_2 _ Hwin).
        rewrite (bool_decide_eq_true_2 (m = m) eq_refl).
        by rewrite (bool_decide_eq_false_2 _ Hne).
      * intros p Hnot. rewrite HD
          by (rewrite loadedMember_cons in Hnot; tauto).
        rewrite Hglobal.
        destruct (decide (typeName ∈ Loader._windowInterfaces)) as [Hwin|Hno];
          [rewrite (bool_decide_eq_true_2 _ Hwin)
          |by rewrite (bool_decide_eq_false_2 _ Hno)].
        destruct isEvent; [reflexivity|]. cbn [negb andb].
        destruct (decide (p = m)) as [->|Hp];
          [rewrite (bool_decide_eq_true_2 _ eq_refl)
          |by rewrite (bool_decide_eq_false_2 _ Hp)].
        destruct (decide (found = [])) as [Hnil|Hne];
          [by rewrite (bool_decide_eq_true_2 _ Hnil)|].
        destruct Hnot. split; [exact Hwin|].
        split; [apply loadedMember_cons; left; split; [exact Hkey|exact Hread]|].
        exists found. split; [exact Hfound|exact Hne].
    + destruct (IH Hnodup Hrest l l' Hload) as (HE & HA & HB & HC & HD).
      assert (∀ p ev, loadedMember typeName (n :: rest) p ev
                      → loadedMember typeName rest p ev) as Hsame.
      { intros p ev [[Hp Hprop]|Hin]%loadedMember_cons; [|done].
        destruct (Hskip p ev Hp) as [-> Hno]. tauto. }
      split_and!.
      * intros p ev Hin. apply HE. by apply Hsame.
      * intros p ev issues Hin. apply HA. by apply Hsame.
      * intros T p ev Hnot. apply HB.
        rewrite loadedMember_cons in Hnot. tauto.
      * intros p issues Hwin Hin. apply (HC p issues Hwin). by apply Hsame.
      * intros p Hnot. apply HD.
        rewrite loadedMember_cons in Hnot. tauto.
Qed.

(** A derivation that throws does so on the name of the client. *)
Lemma memberIssues_returns p ev :
  name t ∉ JSObject.prototypeNames →
  is_Some (memberIssues t typeName sourceData flagBits p ev).
Proof.
  intros Hout. unfold memberIssues.
  destruct (CompatData._getIssuesFromCompatStatement _ _ _ _ _ _)
    as [issues|] eqn:Hissues; [by eexists|].
  apply _getIssuesFromCompatStatement_throws in Hissues
    as (c & _ & _ & Hin). by destruct Hout.
Qed.

End LoadingResult.

(** X20. Which members [_loadAllMemberIssuesForClient] stores.  The
    member names are distinct keys of [sourceData].  A name ending in
    ["_event"] is read as the event named by what precedes that suffix;
    any other name is read as a property unless it holds ["_"], starts
    with ["@@"] or is the name of the type, in which case it is skipped
    ([__compat] is such a name).  The loader returns exactly when the
    derivation of every member that is read returns, which it does for
    every client whose name is no member inherited by a plain object.
    For a member that is read and whose node gives at least one issue,
    the lookup on the type afterwards appends exactly those issues;
    every other lookup of a property or event, on this or any other
    type, is as before.  When the type is one of the window interfaces,
    the properties that are read are stored as globals too, under the
    member name alone; no other global changes, and for any other type
    none does. *)
Theorem loaded_members `{ClientCompatCheckerFlags}
  (t : ClientInfo) (typeName : jsstring) (memberNames : list jsstring)
  (sourceData : gmap jsstring FeatureNode) (flagBits : Z)
  (l : ClientCompatIssueList) (out : list Issue) :
  NoDup memberNames →
  (∀ n, n ∈ memberNames → is_Some (sourceData !! n)) →
  let found := memberIssues t typeName sourceData flagBits in
  let read := loadedMember typeName memberNames in
  let loaded := Loader._loadAllMemberIssuesForClient
                  t typeName memberNames sourceData flagBits l in
  (is_Some loaded ↔ ∀ p ev, read p ev → is_Some (found p ev))
  ∧ (name t ∉ JSObject.prototypeNames → is_Some loaded)
  ∧ ∀ l',
      loaded = Some l' →
      (∀ p ev issues,
         read p ev → found p ev = Some issues → issues ≠ [] →
         ClientCompatIssueList.getIssuesForPropertyOrEvent l' typeName p ev out
         = out ++ issues)
      ∧ (∀ T p ev,
           ¬ (T = typeName ∧ read p ev
              ∧ ∃ issues, found p ev = Some issues ∧ issues ≠ []) →
           ClientCompatIssueList.getIssuesForPropertyOrEvent l' T p ev out
           = ClientCompatIssueList.getIssuesForPropertyOrEvent l T p ev out)
      ∧ (∀ p issues,
           typeName ∈ Loader._windowInterfaces →
           read p false → found p false = Some issues → issues ≠ [] →
           ClientCompatIssueList.getIssuesForGlobal l' p out
           = out ++ issues)
      ∧ (∀ p,
           ¬ (typeName ∈ Loader._windowInterfaces
              ∧ read p false
              ∧ ∃ issues, found p false = Some issues ∧ issues ≠ []) →
           ClientCompatIssueList.getIssuesForGlobal l' p out
           = ClientCompatIssueList.getIssuesForGlobal l p out).
Proof.
  intros Hnodup Hnodes found read loaded.
  pose proof (_loadAllMemberIssuesForClient_result
                t typeName sourceData flagBits memberNames Hnodup Hnodes l)
    as Hresult.
  split_and!.
  - split.
    + intros [l' Hload]. exact (proj1 (Hresult l' Hload)).
    + intros Hfound. by apply _loadAllMemberIssuesForClient_returns.
  - intros Hout. apply _loadAllMemberIssuesForClient_returns; [done|].
    intros p ev _. by apply memberIssues_returns.
  - intros l' Hload.
    destruct (Hresult l' Hload) as (_ & HA & HB & HC & HD). split_and!.
    + intros p ev issues Hread Hissues Hne.
      rewrite getIssuesForPropertyOrEvent_stored.
      by rewrite (HA p ev issues Hread Hissues Hne), storedIssues_stored.
    + intros T p ev Hnot. rewrite !getIssuesForPropertyOrEvent_stored.
      by rewrite HB.
    + intros p issues Hwin Hread Hissues Hne.
      rewrite getIssuesForGlobal_stored.
      by rewrite (HC p issues Hwin Hread Hissues Hne), storedIssues_stored.
    + intros p Hnot. rewrite !getIssuesForGlobal_stored. by rewrite HD.
Qed.

Lemma loaded_members_witness :
  let t := ClientInfo.new (lit "a") (lit "Browser A")
             Version.minVal Version.maxVal in
  let node := mkFeatureNode (Some (mkCompatStatement ∅ JUndefined)) in
  let sourceData : gmap jsstring FeatureNode :=
    {[ lit "__compat" := node; lit "alert" := node;
       lit "load_event" := node ]} in
  let memberNames := [lit "__compat"; lit "alert"; lit "load_event"] in
  ∃ l',
    @Loader._loadAllMemberIssuesForClient exampleFlags
      t (lit "Window") memberNames sourceData 0 ClientCompatIssueList.new
    = Some l'
    ∧ ClientCompatIssueList.getIssuesForPropertyOrEvent
        l' (lit "Window") (lit "load") true []
      = [Issue.new3 (lit "Window.load") t NOT_SUPPORTED]
    ∧ ClientCompatIssueList.getIssuesForGlobal l' (lit "alert") []
      = [Issue.new3 (lit "Window.alert") t NOT_SUPPORTED]
    ∧ ClientCompatIssueList.getIssuesForPropertyOrEvent
        l' (lit "Window") (lit "__compat") false []
      = [].
Proof.
  intros t node sourceData memberNames.
  destruct (@loaded_members exampleFlags t (lit "Window") memberNames
              sourceData 0 ClientCompatIssueList.new [])
    as (_ & Hreturns & Hloaded).
  - apply (bool_decide_unpack _). vm_compute. exact I.
  - intros n Hn.
    repeat (apply elem_of_cons in Hn as [->|Hn]; [vm_compute; eauto|]).
    by apply elem_of_nil in Hn.
  - destruct Hreturns as [l' Hload];
      [apply (bool_decide_unpack _); vm_compute; exact I|].
    destruct (Hloaded l' Hload) as (HA & HB & HC & _).
    exists l'. split; [exact Hload|]. split_and!.
    + apply (HA (lit "load") true).
      * split; [|done]. apply (bool_decide_unpack _). vm_compute. exact I.
      * vm_compute. reflexivity.
      * done.
    + apply (HC (lit "alert")).
      * apply (bool_decide_unpack _). vm_compute. exact I.
      * split; [apply (bool_decide_unpack _); vm_compute; exact I|].
        intros _. split_and!; [|reflexivity|done].
        apply (bool_decide_unpack _). vm_compute. exact I.
      * vm_compute. reflexivity.
      * done.
    + rewrite (HB (lit "Window") (lit "__compat") false).
      * reflexivity.
      * intros (_ & [_ Hprop] & _). destruct (Hprop eq_refl) as [Hno _].
        apply Hno. apply (bool_decide_unpack _). vm_compute. exact I.
Defined.

(** X21. The entry of a global is its own.  Loading the global and its
    members for a client returns for every client whose name is no
    member inherited by a plain object.  After it, the lookup of the
    global appends the issues derived from the [__compat] of the global
    itself, when there are any, and is as before otherwise: no member
    overwrites the entry, also when the global is a window interface,
    because a member with the name of its type is skipped.  When the
    global is no window interface, no other global changes. *)
Theorem global_entry_is_own `{ClientCompatCheckerFlags}
  (t : ClientInfo) (globalName : jsstring) (members : list jsstring)
  (dataForGlobal : FeatureNode) (memberData : gmap jsstring FeatureNode)
  (flagBits : Z) (l : ClientCompatIssueList) (out : list Issue) :
  NoDup members →
  (∀ n, n ∈ members → is_Some (memberData !! n)) →
  let loaded := Loader._loadCompatDataForGlobal
                  t globalName members dataForGlobal memberData flagBits l in
  (name t ∉ JSObject.prototypeNames → is_Some loaded)
  ∧ ∀ l',
      loaded = Some l' →
      ∃ own,
        CompatData._getIssuesFromCompatStatement
          t globalName None (__compat dataForGlobal) flagBits [] = Some own
        ∧ (own ≠ [] →
           ClientCompatIssueList.getIssuesForGlobal l' globalName out
           = out ++ own)
        ∧ (own = [] →
           ClientCompatIssueList.getIssuesForGlobal l' globalName out
           = ClientCompatIssueList.getIssuesForGlobal l globalName out)
        ∧ (globalName ∉ Loader._windowInterfaces →
           ∀ name, name ≠ globalName →
             ClientCompatIssueList.getIssuesForGlobal l' name out
             = ClientCompatIssueList.getIssuesForGlobal l name out).
Proof.
  intros Hnodup Hnodes loaded. subst loaded.
  unfold Loader._loadCompatDataForGlobal, Loader._loadGlobalIssuesForClient.
  split.
  - intros Hout.
    destruct (CompatData._getIssuesFromCompatStatement
                t globalName None (__compat dataForGlobal) flagBits [])
      as [own|] eqn:Hown.
    + cbn [mbind option_bind].
      apply _loadAllMemberIssuesForClient_returns; [done|].
      intros p ev _. by apply memberIssues_returns.
    + apply _getIssuesFromCompatStatement_throws in Hown
        as (c & _ & _ & Hin). by destruct Hout.
  - intros l' Hload.
    destruct (CompatData._getIssuesFromCompatStatement
                t globalName None (__compat dataForGlobal) flagBits [])
      as [own|]; [|discriminate Hload].
    cbn [mbind option_bind] in Hload. exists own. split; [done|].
    destruct (_loadAllMemberIssuesForClient_result
                t globalName memberData flagBits members Hnodup Hnodes
                _ l' Hload)
      as (_ & _ & _ & _ & HD).
    assert (∀ name,
              name = globalName ∨ globalName ∉ Loader._windowInterfaces →
              m_global l' !! name
              = m_global (ClientCompatIssueList.setIssuesForGlobal
                            l globalName own) !! name) as Hsame.
    { intros name Hname. apply HD. intros (Hwin & [_ Hprop] & _).
      destruct Hname as [->|Hno]; [|exact (Hno Hwin)].
      destruct (Hprop eq_refl) as (_ & _ & Hne). exact (Hne eq_refl). }
    split_and!.
    + intros Hne. rewrite getIssuesForGlobal_stored, Hsame by (by left).
      unfold ClientCompatIssueList.setIssuesForGlobal.
      destruct (length own =? 0)%nat eqn:Hlen; [by apply length_zero in Hlen|].
      cbn [m_global]. by rewrite lookup_insert_eq, storedIssues_stored.
    + intros Hnil. rewrite !getIssuesForGlobal_stored, Hsame by (by left).
      by rewrite Hnil.
    + intros Hno name Hname.
      rewrite !getIssuesForGlobal_stored, Hsame by (by right).
      unfold ClientCompatIssueList.setIssuesForGlobal.
      destruct (length own =? 0)%nat; [done|].
      cbn [m_global]. by rewrite lookup_insert_ne.
Qed.

Lemma global_entry_is_own_witness :
  let t := ClientInfo.new (lit "a") (lit "Browser A")
             Version.minVal Version.maxVal in
  let node := mkFeatureNode (Some (mkCompatStatement ∅ JUndefined)) in
  let memberData : gmap jsstring FeatureNode :=
    {[ lit "__compat" := node; lit "Window" := node; lit "alert" := node ]} in
  let members := [lit "__compat"; lit "Window"; lit "alert"] in
  ∃ l',
    @Loader._loadCompatDataForGlobal exampleFlags
      t (lit "Window") members node memberData 0 ClientCompatIssueList.new
    = Some l'
    ∧ ClientCompatIssueList.getIssuesForGlobal l' (lit "Window") []
      = [Issue.new3 (lit "Window") t NOT_SUPPORTED].
Proof.
  intros t node memberData members.
  destruct (@global_entry_is_own exampleFlags t (lit "Window") members
              node memberData 0 ClientCompatIssueList.new [])
    as (Hreturns & Hloaded).
  - apply (bool_decide_unpack _). vm_compute. exact I.
  - intros n Hn.
    repeat (apply elem_of_cons in Hn as [->|Hn]; [vm_compute; eauto|]).
    by apply elem_of_nil in Hn.
  - destruct Hreturns as [l' Hload];
      [apply (bool_decide_unpack _); vm_compute; exact I|].
    destruct (Hloaded l' Hload) as (own & Hown & Hsome & _).
    exists l'. split; [exact Hload|].
    vm_compute in Hown. injection Hown as <-.
    apply Hsome. done.
Defined.

(** ** Guards: comparisons with [undefined], [in], plain operands *)

Section GuardForms.

Context `{TypeChecker}.

Implicit Types (e l r x : Expression) (st : CheckerState).

Import GuardExprChecker.

Lemma _unwrapParentheses_idem e :
  _unwrapParentheses (_unwrapParentheses e) = _unwrapParentheses e.
Proof. induction e; try reflexivity. cbn [_unwrapParentheses]. done. Qed.

(** The guard made from the fields that a recognised test leaves, when
    it is not a [typeof] test and sets no property name. *)
Lemma evaluate_plain_fields e inner x neg ng st :
  _unwrapNegations e = (inner, neg) →
  (if _isBinaryExpression inner
   then _evaluateBinaryExpression
          (mkCheckerState (Some inner) None None false false)
   else mkCheckerState (Some inner) None None false false)
  = mkCheckerState (Some x) None None false ng →
  (evaluate e None st).1
  = mkGuardExpression x (propertySymbol x) (xorb neg ng).
Proof.
  intros Hneg Hfields. unfold evaluate. rewrite Hneg, Hfields.
  destruct neg;
    cbn [negb xorb m_operand m_isTypeof m_isNegative m_propertyObj
           m_propertyName default];
    rewrite !bool_decide_eq_false_2 by done;
    unfold propertySymbol, _tryResolveSymbol;
    destruct x; cbn; by rewrite ?negb_involutive.
Qed.

Lemma _isUndefinedExpression_spec y :
  _isUndefinedExpression y = true ↔ denotesUndefined y.
Proof.
  unfold denotesUndefined. destruct y; cbn; try (split; [done|by intros [?|?]]).
  - rewrite bool_decide_eq_true. split; [intros ->; by right|].
    by intros [?|[= ->]].
  - split; [by left|done].
Qed.

Lemma _isStringLiteralOrNullOrUndefined_spec x :
  _isStringLiteralOrNullOrUndefined x = true ↔ isConstantOperand x.
Proof.
  unfold isConstantOperand.
  destruct x; cbn;
    try (split; [done|by intros [[? ?]|[?|[?|[?|?]]]]]).
  - split; [intros _; left; by eexists|done].
  - rewrite orb_true_iff, !bool_decide_eq_true. split.
    + intros [->| ->]; tauto.
    + intros [[? ?]|[?|[?|[[= ->]|[= ->]]]]]; try done; tauto.
  - split; [tauto|done].
  - split; [tauto|done].
Qed.

(** What the comparison takes for the absence of a value, as the code
    tests it. *)
Lemma denotesNoValue_spec op y :
  isEqualityOperator op →
  (_isUndefinedExpression y || (negb (_isStrictEqualityOperator op)
                                && _isNullKeyword y) = true
   ↔ denotesNoValue op y).
Proof.
  intros Hop. unfold denotesNoValue.
  rewrite orb_true_iff, andb_true_iff, negb_true_iff,
    _isUndefinedExpression_spec.
  assert (_isStrictEqualityOperator op = false
          ↔ op = EqualsEqualsToken ∨ op = ExclamationEqualsToken) as ->.
  { destruct Hop as [-> | [-> | [-> | ->]]]; cbn;
      split; try done; try tauto; by intros [?|?]. }
  assert (_isNullKeyword y = true ↔ y = NullKeyword) as ->
      by (destruct y; cbn; split; done).
  tauto.
Qed.

(** The fields after a comparison that is recognised as a test for the
    absence of a value of [x]. *)
Lemma _evaluateEqualityExpression_recognised op left_ right_ st :
  isEqualityOperator op →
  let swap := _isStringLiteralOrNullOrUndefined left_ in
  denotesNoValue op (if swap then left_ else right_) →
  _evaluateEqualityExpression left_ right_
    (_isNegativeEqualityOperator op) (_isStrictEqualityOperator op) st
  = mkCheckerState
      (Some (_unwrapParentheses (if swap then right_ else left_)))
      (m_propertyObj st) (m_propertyName st)
      (m_isTypeof st) (negb (_isNegativeEqualityOperator op)).
Proof.
  intros Hop swap Hy. apply (denotesNoValue_spec op _ Hop) in Hy.
  unfold _evaluateEqualityExpression. fold swap.
  destruct swap; by rewrite Hy.
Qed.

(** The fields are left as they are when the comparison tests neither
    the absence of a value nor a [typeof]. *)
Lemma _evaluateEqualityExpression_unrecognised op left_ right_ st :
  isEqualityOperator op →
  let swap := _isStringLiteralOrNullOrUndefined left_ in
  ¬ denotesNoValue op (if swap then left_ else right_) →
  (∀ x text, ¬ ((if swap then right_ else left_) = TypeOfExpression x
                ∧ (if swap then left_ else right_) = StringLiteral text)) →
  _evaluateEqualityExpression left_ right_
    (_isNegativeEqualityOperator op) (_isStrictEqualityOperator op) st
  = st.
Proof.
  intros Hop swap Hy Htypeof.
  rewrite <- (denotesNoValue_spec op _ Hop), not_true_iff_false in Hy.
  unfold _evaluateEqualityExpression. fold swap.
  destruct swap; rewrite Hy.
  - destruct right_; try done. destruct left_; try done.
    by destruct (Htypeof right_ text).
  - destruct left_; try done. destruct right_; try done.
    by destruct (Htypeof left_ text).
Qed.

Lemma _evaluateBinaryExpression_equality l op r :
  isEqualityOperator op →
  _evaluateBinaryExpression
    (mkCheckerState (Some (BinaryExpression l op r)) None None false false)
  = _evaluateEqualityExpression (_unwrapParentheses l) (_unwrapParentheses r)
      (_isNegativeEqualityOperator op) (_isStrictEqualityOperator op)
      (mkCheckerState (Some (BinaryExpression l op r)) None None false false).
Proof.
  intros Hop. unfold _evaluateBinaryExpression. cbn [m_operand].
  by destruct Hop as [-> | [-> | [-> | ->]]].
Qed.

End GuardForms.

(** X22. Comparisons with [undefined].  Let [e] be, under parentheses
    and leading [!] ([neg] telling whether their number is odd), a
    comparison [l op r] with one of [==], [===], [!=], [!==], and let
    "no value" stand for [undefined], as keyword or identifier, and for
    the keyword [null] under [==] and [!=].  When [l] is no value, the
    guard is on [r], whatever [r] is; when [r] is no value and [l] is
    not a constant (a string literal, [null] or [undefined]), the guard
    is on [l].  The guard is negative for [==] and [===] and positive
    for [!=] and [!==], each flipped when [neg] holds; its identity is
    the property that the guarded operand accesses, and none when that
    operand is not a property access (a bare identifier, for one).  The
    order matters: when [l] is a constant other than no value and [r]
    is no [typeof] expression, nothing is recognised (so for
    ["a" == undefined]), and so it is when [l] is no constant and [r]
    is neither no value nor a string literal compared with a [typeof]
    (so for [x === null]): the operand is then the whole comparison,
    positive unless [neg], without identity. *)
Theorem undefined_comparison_guards `{TypeChecker}
  (e l r : Expression) (op : BinaryOperator) (neg : bool) (st : CheckerState) :
  GuardExprChecker._unwrapNegations e = (BinaryExpression l op r, neg) →
  isEqualityOperator op →
  let g := (GuardExprChecker.evaluate e None st).1 in
  let l' := GuardExprChecker._unwrapParentheses l in
  let r' := GuardExprChecker._unwrapParentheses r in
  let negative :=
    bool_decide (op = EqualsEqualsToken ∨ op = EqualsEqualsEqualsToken) in
  let unrecognised := mkGuardExpression (BinaryExpression l op r) None neg in
  (denotesNoValue op l' →
   g = mkGuardExpression r' (propertySymbol r') (xorb neg negative))
  ∧ (denotesNoValue op r' → ¬ isConstantOperand l' →
     g = mkGuardExpression l' (propertySymbol l') (xorb neg negative))
  ∧ (isConstantOperand l' → ¬ denotesNoValue op l' →
     (∀ x, r' ≠ TypeOfExpression x) → g = unrecognised)
  ∧ (¬ isConstantOperand l' → ¬ denotesNoValue op r' →
     (∀ x text, ¬ (l' = TypeOfExpression x ∧ r' = StringLiteral text)) →
     g = unrecognised)
  ∧ (∀ name, propertySymbol (Identifier name) = None).
Proof.
  intros Hneg Hop g l' r' negative unrecognised.
  assert (negb (GuardExprChecker._isNegativeEqualityOperator op) = negative)
    as Hpolarity.
  { unfold negative. destruct Hop as [-> | [-> | [-> | ->]]]; cbn;
      [by rewrite bool_decide_eq_true_2 by tauto
      |by rewrite bool_decide_eq_true_2 by tauto
      |by rewrite bool_decide_eq_false_2 by (by intros [?|?])
      |by rewrite bool_decide_eq_false_2 by (by intros [?|?])]. }
  assert (∀ x,
            GuardExprChecker._evaluateEqualityExpression l' r'
              (GuardExprChecker._isNegativeEqualityOperator op)
              (GuardExprChecker._isStrictEqualityOperator op)
              (mkCheckerState (Some (BinaryExpression l op r)) None None
                 false false)
            = mkCheckerState (Some (GuardExprChecker._unwrapParentheses x))
                None None false
                (negb (GuardExprChecker._isNegativeEqualityOperator op)) →
            GuardExprChecker._unwrapParentheses x = x →
            g = mkGuardExpression x (propertySymbol x) (xorb neg negative))
    as Hguard.
  { intros x Hfields Hx. rewrite <- Hpolarity.
    apply (evaluate_plain_fields e (BinaryExpression l op r)); [done|].
    cbn [GuardExprChecker._isBinaryExpression].
    rewrite _evaluateBinaryExpression_equality by done.
    fold l' r'. by rewrite Hfields, Hx. }
  assert (GuardExprChecker._evaluateEqualityExpression l' r'
            (GuardExprChecker._isNegativeEqualityOperator op)
            (GuardExprChecker._isStrictEqualityOperator op)
            (mkCheckerState (Some (BinaryExpression l op r)) None None
               false false)
          = mkCheckerState (Some (BinaryExpression l op r)) None None
              false false →
          g = unrecognised) as Hwhole.
  { intros Hfields. apply evaluate_unrecognised; [done|].
    rewrite _evaluateBinaryExpression_equality by done.
    fold l' r'. by rewrite Hfields. }
  split_and!.
  - intros Hl. apply Hguard; [|apply _unwrapParentheses_idem].
    assert (GuardExprChecker._isStringLiteralOrNullOrUndefined l' = true)
      as Hconst.
    { apply _isStringLiteralOrNullOrUndefined_spec.
      unfold isConstantOperand.
      destruct Hl as [[->| ->]|[_ ->]]; tauto. }
    rewrite (_evaluateEqualityExpression_recognised op l' r' _ Hop);
      rewrite Hconst; done.
  - intros Hr Hl. apply Hguard; [|apply _unwrapParentheses_idem].
    assert (GuardExprChecker._isStringLiteralOrNullOrUndefined l' = false)
      as Hconst.
    { apply not_true_iff_false.
      by rewrite _isStringLiteralOrNullOrUndefined_spec. }
    rewrite (_evaluateEqualityExpression_recognised op l' r' _ Hop);
      rewrite Hconst; done.
  - intros Hl Hno Hr. apply Hwhole.
    apply _isStringLiteralOrNullOrUndefined_spec in Hl.
    apply (_evaluateEqualityExpression_unrecognised op l' r' _ Hop);
      rewrite Hl; [done|].
    intros x text [Hx _]. by destruct (Hr x).
  - intros Hl Hno Hr. apply Hwhole.
    rewrite <- _isStringLiteralOrNullOrUndefined_spec,
      not_true_iff_false in Hl.
    apply (_evaluateEqualityExpression_unrecognised op l' r' _ Hop);
      rewrite Hl; done.
  - done.
Qed.

Lemma undefined_comparison_guards_witness :
  let fetch := mkSymbol (lit "fetch") (Some (DeclarationNode 1)) in
  let checker : TypeChecker :=
    {| TsType := unit;
       getTypeAtLocation := λ _, tt;
       getApparentType := λ ty, ty;
       getPropertyOfType := λ _ _, Some fetch;
       getSymbolAtLocation :=
         λ _, Some (mkSymbol (lit "A") (Some (DeclarationNode 2))) |} in
  let x := PropertyAccessExpression (Identifier (lit "window")) (lit "fetch") in
  let undef := Identifier (lit "undefined") in
  let guarded := BinaryExpression (ParenthesizedExpression x)
                   ExclamationEqualsEqualsToken undef in
  let constant := BinaryExpression (StringLiteral (lit "a"))
                    EqualsEqualsToken undef in
  (@GuardExprChecker.evaluate checker guarded None GuardExprChecker.initial).1
  = mkGuardExpression x (Some fetch) false
  ∧ (@GuardExprChecker.evaluate checker constant None GuardExprChecker.initial).1
    = mkGuardExpression constant None false.
Proof.
  intros fetch checker x undef guarded constant. split.
  - destruct (@undefined_comparison_guards checker guarded
                (ParenthesizedExpression x) undef
                ExclamationEqualsEqualsToken false GuardExprChecker.initial)
      as (_ & Hright & _).
    + reflexivity.
    + right. right. by left.
    + apply Hright.
      * left. by right.
      * intros [[? ?]|[?|[?|[?|?]]]]; discriminate.
  - destruct (@undefined_comparison_guards checker constant
                (StringLiteral (lit "a")) undef
                EqualsEqualsToken false GuardExprChecker.initial)
      as (_ & _ & Hconstant & _).
    + reflexivity.
    + right. by left.
    + apply Hconstant.
      * left. by eexists.
      * intros [[?|?]|[_ ?]]; discriminate.
      * intros ?; discriminate.
Defined.

Section GuardResults.

Context `{TypeChecker}.

Implicit Types (e l r x : Expression) (st : CheckerState).

Import GuardExprChecker.

(** [evaluate] and [evaluateChain] read their argument only through
    [_unwrapNegations]. *)
Lemma evaluate_unwrapped e e' required st :
  _unwrapNegations e = _unwrapNegations e' →
  evaluate e required st = evaluate e' required st.
Proof. intros Heq. unfold evaluate. by rewrite Heq. Qed.

Lemma evaluateChain_unwrapped e e' st :
  _unwrapNegations e = _unwrapNegations e' →
  evaluateChain e st = evaluateChain e' st.
Proof.
  intros Heq. unfold evaluateChain.
  by rewrite Heq, (evaluate_unwrapped e e' None st Heq).
Qed.

Lemma _unwrapNegations_not_not e :
  _unwrapNegations
    (PrefixUnaryExpression ExclamationToken
       (PrefixUnaryExpression ExclamationToken e))
  = _unwrapNegations e.
Proof.
  rewrite !_unwrapNegations_not. cbn [fst snd].
  rewrite negb_involutive. by destruct (_unwrapNegations e).
Qed.

(** The two shapes of the result of [evaluateChain]. *)
Lemma evaluateChain_cases e st :
  (evaluateChain e st).1 = IsGuardExpression (evaluate e None st).1
  ∨ ∃ l op r,
      (_unwrapNegations e).1 = BinaryExpression l op r
      ∧ (op = AmpersandAmpersandToken ∨ op = BarBarToken)
      ∧ (evaluateChain e st).1
        = IsGuardExprChain
            (mkGuardExprChain
               (map (λ leaf,
                       (evaluate leaf
                          (Some (bool_decide (op = AmpersandAmpersandToken)))
                          st).1)
                  (chainLeaves op (BinaryExpression l op r)))
               op (_unwrapNegations e).2).
Proof.
  unfold evaluateChain.
  destruct (_unwrapNegations e) as [inner neg]. cbn [fst snd].
  destruct inner as [ | |l op r| | | | | | |];
    try (left; by destruct (evaluate e None st)).
  destruct (decide (op = AmpersandAmpersandToken ∨ op = BarBarToken))
    as [Hop|Hop].
  - right. exists l, op, r. split_and!; try done.
    assert (negb (bool_decide (op = AmpersandAmpersandToken))
            && negb (bool_decide (op = BarBarToken)) = false) as ->
        by (by destruct Hop as [-> | ->]).
    pose proof (_evaluateChainOperands_leaves op (BinaryExpression l op r) [] st)
      as Hleaves.
    destruct (_evaluateChainOperands (BinaryExpression l op r) op [] st)
      as [guardExprs st'].
    cbn [fst] in Hleaves |- *. by rewrite Hleaves.
  - left.
    assert (negb (bool_decide (op = AmpersandAmpersandToken))
            && negb (bool_decide (op = BarBarToken)) = true) as ->.
    { apply andb_true_iff.
      split; apply negb_true_iff, bool_decide_eq_false; tauto. }
    by destruct (evaluate e None st).
Qed.

Lemma chainLeaves_nonempty op e : chainLeaves op e ≠ [].
Proof.
  induction e as [e IH|o e IH|l IHl op' r IHr| | | | | | |]; try done.
  cbn [chainLeaves]. case_bool_decide; [|done].
  intros [Hl _]%app_eq_nil. done.
Qed.

End GuardResults.

(** X23. Guards without comparison.  Let [inner] be what is left of [e]
    without its parentheses and leading [!], [neg] telling whether the
    number of [!] is odd.  When [inner] is ['name' in X], the guard has
    the whole [in] expression as operand, polarity [neg], and as
    identity the property [name] of the type of [X] taken without its
    parentheses; the object on which the identity was resolved is the
    right operand as written.  When [inner] is no binary expression, the
    guard has operand [inner] and polarity [neg]; it has an identity
    only when [inner] is a property access, resolved on the object of
    the access; a bare identifier has none. *)
Theorem in_and_plain_guards `{TypeChecker}
  (e inner : Expression) (neg : bool) (st : CheckerState) :
  GuardExprChecker._unwrapNegations e = (inner, neg) →
  let g := (GuardExprChecker.evaluate e None st).1 in
  (∀ l r text,
     inner = BinaryExpression l InKeyword r →
     GuardExprChecker._unwrapParentheses l = StringLiteral text →
     g = mkGuardExpression inner
           (getPropertyOfType
              (getApparentType
                 (getTypeAtLocation (GuardExprChecker._unwrapParentheses r)))
              text)
           neg
     ∧ Guard.getSymbolResolveTarget g = (guardedSymbol g ≫= λ _, Some r))
  ∧ (GuardExprChecker._isBinaryExpression inner = false →
     g = mkGuardExpression inner (propertySymbol inner) neg
     ∧ Guard.getSymbolResolveTarget g
       = match inner with
         | PropertyAccessExpression obj _ => guardedSymbol g ≫= λ _, Some obj
         | _ => None
         end
     ∧ (∀ name, inner = Identifier name → guardedSymbol g = None)).
Proof.
  intros Hneg g. split.
  - intros l r text -> Hl.
    assert (g = mkGuardExpression (BinaryExpression l InKeyword r)
                  (getPropertyOfType
                     (getApparentType
                        (getTypeAtLocation
                           (GuardExprChecker._unwrapParentheses r)))
                     text)
                  neg) as Hg.
    { unfold g, GuardExprChecker.evaluate. rewrite Hneg.
      cbn [GuardExprChecker._isBinaryExpression].
      unfold GuardExprChecker._evaluateBinaryExpression.
      cbn [m_operand]. rewrite Hl.
      destruct neg;
        cbn [negb m_operand m_isTypeof m_isNegative m_propertyObj
               m_propertyName default];
        rewrite !bool_decide_eq_false_2 by done; reflexivity. }
    split; [done|]. rewrite Hg. unfold Guard.getSymbolResolveTarget.
    cbn [guardedSymbol operand]. by destruct (getPropertyOfType _ _).
  - intros Hplain.
    assert (g = mkGuardExpression inner (propertySymbol inner) neg) as Hg.
    { replace neg with (xorb neg false) by (by destruct neg).
      apply (evaluate_plain_fields e inner); [done|]. by rewrite Hplain. }
    split; [done|]. rewrite Hg. split.
    + unfold Guard.getSymbolResolveTarget. cbn [guardedSymbol operand].
      destruct inner; try done; cbn [propertySymbol];
        by destruct (getPropertyOfType _ _).
    + by intros name ->.
Qed.

Lemma in_and_plain_guards_witness :
  let fetch := mkSymbol (lit "fetch") (Some (DeclarationNode 1)) in
  let checker : TypeChecker :=
    {| TsType := unit;
       getTypeAtLocation := λ _, tt;
       getApparentType := λ ty, ty;
       getPropertyOfType := λ _ _, Some fetch;
       getSymbolAtLocation := λ _, None |} in
  let w := Identifier (lit "window") in
  let e := PrefixUnaryExpression ExclamationToken
             (ParenthesizedExpression
                (BinaryExpression (StringLiteral (lit "fetch")) InKeyword
                   (ParenthesizedExpression w))) in
  let g := (@GuardExprChecker.evaluate checker e None GuardExprChecker.initial).1 in
  guardedSymbol g = Some fetch ∧ isNegated g = true
  ∧ Guard.getSymbolResolveTarget g = Some (ParenthesizedExpression w).
Proof.
  intros fetch checker w e g.
  destruct (@in_and_plain_guards checker e
              (BinaryExpression (StringLiteral (lit "fetch")) InKeyword
                 (ParenthesizedExpression w))
              true GuardExprChecker.initial) as [Hin _].
  - reflexivity.
  - destruct (Hin (StringLiteral (lit "fetch")) (ParenthesizedExpression w)
                (lit "fetch")) as [Hg Htarget]; [reflexivity|reflexivity|].
    subst g. split_and!; [by rewrite Hg|by rewrite Hg|].
    rewrite Htarget. by rewrite Hg.
Defined.

(** X24. The operators that the walker does not hand to the guard
    checker.  For a binary expression whose operator
    [_canBinaryOperatorBeUsedInGuard] rejects, [evaluateChain] would
    return a single guard expression on the whole expression, positive
    and without identity: nothing would be pushed on the guard stack and
    no branch would be guarded. *)
Theorem unusable_operator_is_no_guard `{TypeChecker}
  (l r : Expression) (op : BinaryOperator) (st : CheckerState) :
  Guard._canBinaryOperatorBeUsedInGuard op = false →
  let result :=
    (GuardExprChecker.evaluateChain (BinaryExpression l op r) st).1 in
  result
  = IsGuardExpression (mkGuardExpression (BinaryExpression l op r) None false)
  ∧ Guard.pushedSymbols result = []
  ∧ Guard.guardsApplyToElse result = false.
Proof.
  intros Hop result.
  assert (result
          = IsGuardExpression
              (mkGuardExpression (BinaryExpression l op r) None false))
    as Hresult by (by destruct op).
  by rewrite Hresult.
Qed.

Lemma unusable_operator_is_no_guard_witness :
  let checker : TypeChecker :=
    {| TsType := unit;
       getTypeAtLocation := λ _, tt;
       getApparentType := λ ty, ty;
       getPropertyOfType :=
         λ _ _, Some (mkSymbol (lit "p") (Some (DeclarationNode 1)));
       getSymbolAtLocation :=
         λ _, Some (mkSymbol (lit "A") (Some (DeclarationNode 2))) |} in
  let e := BinaryExpression
             (PropertyAccessExpression (Identifier (lit "a")) (lit "p"))
             (OtherBinaryOperator 40) (Identifier (lit "b")) in
  Guard.pushedSymbols
    (@GuardExprChecker.evaluateChain checker e GuardExprChecker.initial).1
  = [].
Proof.
  intros checker e.
  destruct (@unusable_operator_is_no_guard checker
              (PropertyAccessExpression (Identifier (lit "a")) (lit "p"))
              (Identifier (lit "b")) (OtherBinaryOperator 40)
              GuardExprChecker.initial) as (_ & Hpushed & _).
  - reflexivity.
  - exact Hpushed.
Defined.

(** X25. Parentheses and negations around a condition.  Parentheses and
    a double [!] change nothing in the result of [evaluateChain].  One
    more leading [!] leaves the symbols that the walker pushes as they
    are and exchanges the branch that they guard. *)
Theorem negation_and_parentheses `{TypeChecker}
  (e : Expression) (st : CheckerState) :
  let result := (GuardExprChecker.evaluateChain e st).1 in
  let negated :=
    (GuardExprChecker.evaluateChain
       (PrefixUnaryExpression ExclamationToken e) st).1 in
  GuardExprChecker.evaluateChain (ParenthesizedExpression e) st
  = GuardExprChecker.evaluateChain e st
  ∧ GuardExprChecker.evaluateChain
      (PrefixUnaryExpression ExclamationToken
         (PrefixUnaryExpression ExclamationToken e)) st
    = GuardExprChecker.evaluateChain e st
  ∧ Guard.pushedSymbols negated = Guard.pushedSymbols result
  ∧ Guard.guardsApplyToElse negated = negb (Guard.guardsApplyToElse result).
Proof.
  intros result negated.
  assert (Guard.pushedSymbols negated = Guard.pushedSymbols result
          ∧ Guard.guardsApplyToElse negated
            = negb (Guard.guardsApplyToElse result)) as Hflip.
  { unfold result, negated, GuardExprChecker.evaluateChain.
    rewrite _unwrapNegations_not.
    pose proof (evaluate_not e st) as Hnot. cbn zeta in Hnot.
    destruct (GuardExprChecker._unwrapNegations e) as [inner neg].
    cbn [fst snd].
    assert (∀ a b : GuardExpression * CheckerState,
              a.1 = mkGuardExpression (operand b.1) (guardedSymbol b.1)
                      (negb (isNegated b.1)) →
              Guard.pushedSymbols (let '(g, st') := a in (IsGuardExpression g, st')).1
              = Guard.pushedSymbols
                  (let '(g, st') := b in (IsGuardExpression g, st')).1
              ∧ Guard.guardsApplyToElse
                  (let '(g, st') := a in (IsGuardExpression g, st')).1
                = negb (Guard.guardsApplyToElse
                          (let '(g, st') := b in (IsGuardExpression g, st')).1))
      as Hsingle.
    { intros [ga sa] [gb sb]. cbn [fst]. intros ->. by cbn. }
    destruct inner as [ | |l op r| | | | | | |]; try (by apply Hsingle).
    destruct (negb (bool_decide (op = AmpersandAmpersandToken))
              && negb (bool_decide (op = BarBarToken))); [by apply Hsingle|].
    destruct (GuardExprChecker._evaluateChainOperands
                (BinaryExpression l op r) op [] st) as [guardExprs st'].
    cbn [fst Guard.pushedSymbols Guard.guardsApplyToElse expressions
           operator chainIsNegated].
    split; [done|]. by destruct neg, (bool_decide (op = BarBarToken)). }
  split_and!; [|apply evaluateChain_unwrapped|apply Hflip|apply Hflip].
  - by apply evaluateChain_unwrapped.
  - apply _unwrapNegations_not_not.
Qed.

(** X26. The symbols of a condition guard the branch in which they
    exist.  In the result of [evaluateChain], every guard expression
    that has an identity is negated exactly when the guards apply to the
    else branch, the other way round when the result is a chain under an
    odd number of [!]: an AND chain keeps the identity of its positive
    operands only, an OR chain of its negative operands only.  A chain
    is one of [&&] or of [||] and has at least two guard expressions. *)
Theorem guarded_branch_matches_polarity `{TypeChecker}
  (e : Expression) (st : CheckerState) :
  let result := (GuardExprChecker.evaluateChain e st).1 in
  (∀ g, g ∈ guardExpressions result → is_Some (guardedSymbol g) →
        Guard.guardsApplyToElse result
        = xorb (isNegated g) (resultIsNegated result))
  ∧ (∀ c, result = IsGuardExprChain c →
          (operator c = AmpersandAmpersandToken ∨ operator c = BarBarToken)
          ∧ (2 ≤ length (expressions c))%nat
          ∧ ∀ g, g ∈ expressions c → is_Some (guardedSymbol g) →
                 isNegated g = bool_decide (operator c = BarBarToken)).
Proof.
  intros result.
  assert (∀ c, result = IsGuardExprChain c →
               (operator c = AmpersandAmpersandToken
                ∨ operator c = BarBarToken)
               ∧ (2 ≤ length (expressions c))%nat
               ∧ ∀ g, g ∈ expressions c → is_Some (guardedSymbol g) →
                      isNegated g = bool_decide (operator c = BarBarToken))
    as Hchain.
  { intros c Hc. unfold result in Hc.
    destruct (evaluateChain_cases e st)
      as [Hsingle|(l & op & r & _ & Hop & Hresult)]; [congruence|].
    rewrite Hresult in Hc. injection Hc as <-.
    cbn [operator expressions]. split_and!; [done| |].
    - rewrite length_map. cbn [chainLeaves].
      rewrite bool_decide_eq_true_2, length_app by done.
      pose proof (chainLeaves_nonempty op l).
      pose proof (chainLeaves_nonempty op r).
      destruct (chainLeaves op l), (chainLeaves op r); cbn [length]; try done.
      lia.
    - intros g (leaf & -> & _)%list_elem_of_fmap [s Hs].
      destruct (evaluate_required leaf
                  (bool_decide (op = AmpersandAmpersandToken)) st)
        as (_ & Hpol & Hdrop & _). cbn zeta in *.
      rewrite Hpol.
      destruct (decide (bool_decide (op = AmpersandAmpersandToken)
                        = isNegated (GuardExprChecker.evaluate leaf None st).1))
        as [Hsame|Hdiff]; [rewrite Hdrop in Hs by done; done|].
      destruct Hop as [-> | ->];
        by destruct (isNegated (GuardExprChecker.evaluate leaf None st).1). }
  split; [|done].
  intros g Hg Hsym. destruct result as [g0|c] eqn:Hresult.
  - apply list_elem_of_singleton in Hg as ->. cbn. by rewrite xorb_false_r.
  - destruct (Hchain c eq_refl) as (Hop & _ & Hpol).
    cbn [guardExpressions] in Hg. rewrite (Hpol g Hg Hsym).
    cbn [Guard.guardsApplyToElse resultIsNegated].
    by destruct (chainIsNegated c), (bool_decide (operator c = BarBarToken)).
Qed.

Lemma guarded_branch_matches_polarity_witness :
  let p := mkSymbol (lit "p") (Some (DeclarationNode 1)) in
  let checker : TypeChecker :=
    {| TsType := unit;
       getTypeAtLocation := λ _, tt;
       getApparentType := λ ty, ty;
       getPropertyOfType := λ _ _, Some p;
       getSymbolAtLocation := λ _, None |} in
  let a := PropertyAccessExpression (Identifier (lit "a")) (lit "p") in
  let b := PropertyAccessExpression (Identifier (lit "b")) (lit "q") in
  let e := BinaryExpression
             (PrefixUnaryExpression ExclamationToken a) BarBarToken b in
  let result :=
    (@GuardExprChecker.evaluateChain checker e GuardExprChecker.initial).1 in
  Guard.pushedSymbols result = [p] ∧ Guard.guardsApplyToElse result = true.
Proof.
  intros p checker a b e result. split; [reflexivity|].
  destruct (@guarded_branch_matches_polarity checker e
              GuardExprChecker.initial) as [Hbranch _].
  subst result. rewrite (Hbranch (mkGuardExpression a (Some p) true)).
  - reflexivity.
  - vm_compute. left.
  - by eexists.
Defined.

(** ** Library file paths *)

Section LibraryPaths.

Implicit Types (s pat dir name : jsstring) (c : N).

Lemma lastIndexOf_from_absent c s : ∀ i found,
  c ∉ s → JSString.lastIndexOf_from s [c] i found = found.
Proof.
  induction s as [|a s IH]; intros i found Hnin; [reflexivity|].
  apply not_elem_of_cons in Hnin as [Hne Hnin].
  cbn [JSString.lastIndexOf_from]. rewrite startsWith_cons_single.
  destruct (N.eqb_spec c a) as [->|_]; [done|]. by apply IH.
Qed.

Lemma lastIndexOf_from_last c (A B : jsstring) : ∀ i found,
  c ∉ B →
  JSString.lastIndexOf_from (A ++ c :: B) [c] i found
  = i + Z.of_nat (length A).
Proof.
  induction A as [|a A IH]; intros i found Hnin.
  - cbn [app JSString.lastIndexOf_from length].
    rewrite startsWith_cons_single, N.eqb_refl.
    rewrite lastIndexOf_from_absent by done. lia.
  - change ((a :: A) ++ c :: B) with (a :: (A ++ c :: B)).
    cbn [JSString.lastIndexOf_from]. rewrite IH by done.
    cbn [length]. lia.
Qed.

Lemma endsWith_longer (A : jsstring) s pat :
  (length pat ≤ length s)%nat →
  JSString.endsWith (A ++ s) pat = JSString.endsWith s pat.
Proof.
  intros Hlen. unfold JSString.endsWith. rewrite length_app.
  rewrite (proj2 (Nat.leb_le _ _) Hlen).
  rewrite (proj2 (Nat.leb_le (length pat) (length A + length s)))
    by lia.
  cbn [andb]. rewrite drop_app_ge by lia. do 2 f_equal. lia.
Qed.

End LibraryPaths.

(** X27. A library file is told by its file name alone.  For a path
    whose last component is [name], with or without directories before
    it, [_isLibraryFilePath] holds exactly when [name] starts with
    ["lib."] and ends with [".d.ts"]. *)
Theorem library_path_is_by_file_name (dir name : jsstring) :
  (47%N ∉ name) →
  let isLibraryName :=
    startsWith name (lit "lib.") && JSString.endsWith name (lit ".d.ts") in
  Guard._isLibraryFilePath (dir ++ lit "/" ++ name) = isLibraryName
  ∧ Guard._isLibraryFilePath name = isLibraryName.
Proof.
  intros Hname isLibraryName. unfold isLibraryName. split.
  - unfold Guard._isLibraryFilePath, JSString.lastIndexOf,
      JSString.startsWithAt.
    change (lit "/" ++ name) with (47%N :: name).
    change (lit "/") with [47%N].
    rewrite lastIndexOf_from_last by done.
    assert (dir ++ 47%N :: name = (dir ++ [47%N]) ++ name) as ->
        by (by rewrite <- app_assoc).
    replace (Z.to_nat (0 + Z.of_nat (length dir) + 1))
      with (length (dir ++ [47%N]))
      by (rewrite length_app; cbn [length]; lia).
    rewrite drop_app_length.
    destruct (startsWith name (lit "lib.")) eqn:Hlib; [|reflexivity].
    cbn [andb]. apply startsWith_inv in Hlib as [rest ->].
    destruct rest as [|c rest].
    + rewrite app_nil_r. unfold JSString.endsWith. rewrite !length_app.
      change (length (lit "lib.")) with 4%nat.
      change (length (lit ".d.ts")) with 5%nat. cbn [length].
      replace (length dir + 1 + 4 - 5)%nat with (length dir) by lia.
      rewrite <- app_assoc, drop_app_length.
      change (startsWith ([47%N] ++ lit "lib.") (lit ".d.ts")) with false.
      by rewrite andb_false_r.
    + apply endsWith_longer. rewrite length_app.
      change (length (lit ".d.ts")) with 5%nat.
      change (length (lit "lib.")) with 4%nat. cbn [length]. lia.
  - unfold Guard._isLibraryFilePath, JSString.lastIndexOf,
      JSString.startsWithAt.
    change (lit "/") with [47%N].
    by rewrite lastIndexOf_from_absent.
Qed.

Lemma library_path_is_by_file_name_witness :
  Guard._isLibraryFilePath (lit "/usr/lib/typescript/lib.dom.d.ts") = true
  ∧ Guard._isLibraryFilePath (lit "src/lib.ts") = false.
Proof.
  split.
  - destruct (library_path_is_by_file_name
                (lit "/usr/lib/typescript") (lit "lib.dom.d.ts"))
      as [Hpath _].
    + apply (bool_decide_unpack _). vm_compute. exact I.
    + exact Hpath.
  - destruct (library_path_is_by_file_name (lit "src") (lit "lib.ts"))
      as [Hpath _].
    + apply (bool_decide_unpack _). vm_compute. exact I.
    + exact Hpath.
Defined.

(** ** Notes and descriptions *)

Section Notes.

Implicit Types (a b s t acc : jsstring) (c : N).





End Notes.



(** X29. The description of a client.  For a range of valid versions,
    the description is the display name alone exactly when the range is
    the whole of [minVal .. maxVal]; otherwise it is the display name, a
    space and a range string that [rangeFromString] reads back as the
    client's range. *)
Theorem description_names_range
  (name displayName : jsstring) (minVersion maxVersion : Version) :
  validVersion minVersion → validVersion maxVersion →
  Version.compare minVersion maxVersion <= 0 →
  let client := ClientInfo.new name displayName minVersion maxVersion in
  ((minVersion = Version.minVal ∧ maxVersion = Version.maxVal) →
   description client = displayName)
  ∧ (¬ (minVersion = Version.minVal ∧ maxVersion = Version.maxVal) →
     ∃ range,
       description client = displayName ++ lit " " ++ range
       ∧ Version.rangeFromString range = Some (minVersion, maxVersion)).
Proof.
  intros Hmin Hmax Hle client. split.
  - by intros [-> ->].
  - intros Hnot. exists (Version.rangeToString minVersion maxVersion).
    split; [|by apply rangeToString_parse].
    cbn [client ClientInfo.new description].
    unfold ClientInfo._createDescription.
    destruct (Z.eqb_spec (Version.compare minVersion Version.minVal) 0)
      as [Hlow|Hlow]; [|done].
    destruct (Z.eqb_spec (Version.compare maxVersion Version.maxVal) 0)
      as [Hhigh|Hhigh]; [|done].
    destruct Hnot. split.
    + destruct (compare_cases minVersion Version.minVal)
        as [[? _]|[[_ ?]|[? _]]]; [lia|done|lia].
    + destruct (compare_cases maxVersion Version.maxVal)
        as [[? _]|[[_ ?]|[? _]]]; [lia|done|lia].
Qed.

Lemma description_names_range_witness :
  ∃ range,
    description
      (ClientInfo.new (lit "firefox") (lit "Firefox")
         (mkVersion 60 0) (mkVersion 70 Version._VERSION_MAX))
    = lit "Firefox" ++ lit " " ++ range
    ∧ Version.rangeFromString range
      = Some (mkVersion 60 0, mkVersion 70 Version._VERSION_MAX).
Proof.
  destruct (description_names_range (lit "firefox") (lit "Firefox")
              (mkVersion 60 0) (mkVersion 70 Version._VERSION_MAX))
    as [_ Hrange].
  - unfold validVersion, Version._VERSION_MAX. cbn. lia.
  - unfold validVersion, Version._VERSION_MAX. cbn. lia.
  - vm_compute. discriminate.
  - apply Hrange. intros [Heq _]. discriminate Heq.
Defined.
